(** * Module tree, forward-pass order, parameter counts, selection optimizer
      and ignore-list parser of llm-compressor-graph.

    A shallow embedding of [lib/weightMapParser.ts], [lib/regexOptimizer.ts]
    and [lib/formatOutput.ts].

    Conventions of the embedding:
    - a JavaScript string is a [string] of 8-bit characters (the ASCII /
      Latin-1 range); [toLowerCase] folds [A-Z] only;
    - a JavaScript [Map] that the code iterates is an association list in
      insertion order;
    - a number is modelled where it is used: layer indices as the
      doubles [parseInt] returns (module [Num]), sort priorities as
      rationals, parameter counts as an abstract type with its addition;
    - a regular-expression literal of the source is written out as the
      scanner it denotes; patterns built at run time ([new RegExp]) go
      through the parser and matcher of module [RegExp]. *)

From Stdlib Require Import String Ascii List Bool Arith NArith ZArith QArith Lia.
From Stdlib Require Import Permutation Sorted DecimalString.
Import ListNotations.

Set Warnings "-register-all".

Local Close Scope Q_scope.
Local Open Scope nat_scope.
Local Open Scope string_scope.
Local Open Scope list_scope.

(** String concatenation is written [+++]; [++] is list append. *)
Infix "+++" := String.append (right associativity, at level 60).

(** ** String primitives of the host language *)

Module Str.

Definition is_upper (c : ascii) : bool :=
  let n := nat_of_ascii c in (65 <=? n)%nat && (n <=? 90)%nat.

Definition lower_char (c : ascii) : ascii :=
  if is_upper c then ascii_of_nat (nat_of_ascii c + 32) else c.

(** [String.prototype.toLowerCase] on the 8-bit strings of this file: the
    letters A-Z are folded; the host also folds letters outside this
    range, which these strings do not hold. *)
Fixpoint toLowerCase (s : string) : string :=
  match s with
  | EmptyString => EmptyString
  | String c s' => String (lower_char c) (toLowerCase s')
  end.

(** [s.startsWith(p)]. *)
Fixpoint startsWith (s p : string) {struct p} : bool :=
  match p, s with
  | EmptyString, _ => true
  | String a p', String b s' => Ascii.eqb a b && startsWith s' p'
  | String _ _, EmptyString => false
  end.

(** [s.includes(sub)]: [sub] occurs somewhere in [s]. *)
Fixpoint includes (s sub : string) : bool :=
  startsWith s sub ||
  match s with
  | EmptyString => false
  | String _ s' => includes s' sub
  end.

(** [s.slice(n)] for [0 <= n]. *)
Fixpoint drop (n : nat) (s : string) : string :=
  match n, s with
  | O, _ => s
  | S n', String _ s' => drop n' s'
  | S _, EmptyString => EmptyString
  end.

(** [s.slice(0, n)] for [0 <= n]. *)
Fixpoint take (n : nat) (s : string) : string :=
  match n, s with
  | O, _ => EmptyString
  | S n', String c s' => String c (take n' s')
  | S _, EmptyString => EmptyString
  end.

(** [s.endsWith(suffix)]. *)
Definition endsWith (s suffix : string) : bool :=
  (String.length suffix <=? String.length s)%nat &&
  String.eqb (drop (String.length s - String.length suffix) s) suffix.

(** [list.includes(s)] on an array of strings. *)
Definition mem (s : string) (l : list string) : bool :=
  existsb (String.eqb s) l.

Definition is_digit (c : ascii) : bool :=
  let n := nat_of_ascii c in (48 <=? n)%nat && (n <=? 57)%nat.

Fixpoint all_digits (s : string) : bool :=
  match s with
  | EmptyString => true
  | String c s' => is_digit c && all_digits s'
  end.

(** The test [/^\d+$/.test(s)]: [s] is a non-empty run of decimal digits. *)
Definition is_number (s : string) : bool :=
  match s with
  | EmptyString => false
  | _ => all_digits s
  end.

End Str.

(** ** Roles and the classifier cascade ([classifySegment]) *)

Inductive LayerType : Set :=
  | embedding | attention | mlp | norm | head | vision | group.

Definition embedding_marker (s : string) : bool :=
  Str.includes s "embed" || String.eqb s "wte" || String.eqb s "wpe".

Definition norm_aliases : list string :=
  ["ln_1"; "ln_2"; "ln_f"; "final_layer_norm"; "input_layernorm";
   "post_attention_layernorm"; "layer_norm1"; "layer_norm2"].

Definition norm_marker (s : string) : bool :=
  Str.includes s "norm" || Str.includes s "layernorm" ||
  String.eqb s "ln_1" || String.eqb s "ln_2" || String.eqb s "ln_f" ||
  String.eqb s "final_layer_norm" || String.eqb s "input_layernorm" ||
  String.eqb s "post_attention_layernorm" || String.eqb s "layer_norm1" ||
  String.eqb s "layer_norm2".

Definition head_marker (s : string) : bool :=
  String.eqb s "lm_head" || String.eqb s "score" || String.eqb s "classifier".

Definition attention_aliases : list string :=
  ["q_proj"; "k_proj"; "v_proj"; "o_proj"; "qkv_proj"; "query"; "key"; "value"].

Definition attention_marker (s : string) : bool :=
  Str.includes s "self_attn" || Str.includes s "attention" ||
  Str.includes s "attn" ||
  String.eqb s "q_proj" || String.eqb s "k_proj" || String.eqb s "v_proj" ||
  String.eqb s "o_proj" || String.eqb s "qkv_proj" || String.eqb s "query" ||
  String.eqb s "key" || String.eqb s "value".

Definition mlp_marker (s : string) : bool :=
  Str.includes s "mlp" || String.eqb s "gate_proj" || String.eqb s "up_proj" ||
  String.eqb s "down_proj" || String.eqb s "fc1" || String.eqb s "fc2" ||
  String.eqb s "c_fc" || String.eqb s "c_proj" || String.eqb s "gate_up_proj" ||
  String.eqb s "dense_h_to_4h" || String.eqb s "dense_4h_to_h".

Definition mlp_aliases : list string :=
  ["gate_proj"; "up_proj"; "down_proj"; "fc1"; "fc2"; "c_fc"; "gate_up_proj";
   "dense_h_to_4h"; "dense_4h_to_h"].

Definition vision_marker (fp : string) : bool :=
  Str.includes fp "vision" || Str.includes fp "visual" ||
  Str.includes fp "image_encoder" || Str.includes fp "vit" ||
  Str.includes fp "clip".

Definition classifySegment (segment fullPath : string) : LayerType :=
  let s := Str.toLowerCase segment in
  let fp := Str.toLowerCase fullPath in
  if embedding_marker s then embedding
  else if norm_marker s then norm
  else if head_marker s then head
  else if attention_marker s &&
          (Str.includes fp "attn" || Str.includes fp "attention" ||
           Str.includes fp "self_attn" || Str.mem s attention_aliases)
       then attention
  else if mlp_marker s && (Str.includes fp "mlp" || Str.mem s mlp_aliases)
       then mlp
  else if vision_marker fp then vision
  else group.

(** ** Numbers of the host language

    [parseInt] is only ever applied to a match of [\d+], so the numbers
    that reach the sort comparators and the template literals are the
    non-negative integral doubles and [Infinity]. A [Number] is such a
    value; [of_N] is the rounding to the nearest double (ties to even). *)

Module Num.

Inductive Number : Set :=
  | Finite (n : N)
  | Infinity.

Definition two53 : N := 9007199254740992.

(** Round to 53 significant bits, ties to even; overflow past the largest
    double gives [Infinity]. *)
Definition of_N (n : N) : Number :=
  if (n <? two53)%N then Finite n
  else
    let e := (N.log2 n - 52)%N in
    let q := N.shiftr n e in
    let r := (n - N.shiftl q e)%N in
    let half := N.shiftl 1 (e - 1) in
    let q' := if (r <? half)%N then q
              else if (half <? r)%N then (q + 1)%N
              else if N.even q then q else (q + 1)%N in
    let v := N.shiftl q' e in
    if (v <? N.shiftl 1 1024)%N then Finite v else Infinity.

Definition digit_value (c : ascii) : N := N.of_nat (nat_of_ascii c - 48).

(** The mathematical value of the leading decimal digits of [s]. *)
Fixpoint decimal_value (acc : N) (s : string) : N :=
  match s with
  | EmptyString => acc
  | String c s' =>
      if Str.is_digit c then decimal_value (10 * acc + digit_value c) s'
      else acc
  end.

(** [parseInt(s, 10)] for [s] matching [\d+]: the decimal value, correctly
    rounded (the language leaves the rounding of more than 20 digits to
    the implementation). *)
Definition parseInt (s : string) : Number := of_N (decimal_value 0 s).

(** Sign of [a - b] as a sort comparator sees it: [Infinity - Infinity] is
    [NaN], which [Array.prototype.sort] treats as [0]. *)
Definition sub_sign (a b : Number) : comparison :=
  match a, b with
  | Finite x, Finite y => (x ?= y)%N
  | Finite _, Infinity => Lt
  | Infinity, Finite _ => Gt
  | Infinity, Infinity => Eq
  end.

(** Plain decimal digits of a natural number. *)
Definition decimal (n : N) : string := NilZero.string_of_uint (N.to_uint n).

Fixpoint zeros (k : nat) : string :=
  match k with O => EmptyString | S k' => String "0" (zeros k') end.

(** [Number::toString] above the safe range: the shortest digit string [s]
    (of [k] digits) and exponent [n] with [of_N (s * 10^(n-k))] equal to the
    value, the closest such [s]; printed with trailing zeros up to 21
    digits and in exponent notation beyond. *)
Definition candidates (v : N) (k : nat) : list (N * nat) :=
  let D := String.length (decimal v) in
  flat_map
    (fun n =>
       if (k <=? n)%nat then
         let scale := (10 ^ N.of_nat (n - k))%N in
         let s0 := (v / scale)%N in
         filter
           (fun sn =>
              let s := fst sn in
              (10 ^ N.of_nat (k - 1) <=? s)%N && (s <? 10 ^ N.of_nat k)%N &&
              match of_N (s * scale) with
              | Finite w => (w =? v)%N
              | Infinity => false
              end)
           [(s0, n); ((s0 + 1)%N, n)]
       else [])
    [D; S D].

Definition distance (v : N) (sn : N * nat) (k : nat) : N :=
  let x := (fst sn * 10 ^ N.of_nat (snd sn - k))%N in
  if (x <? v)%N then (v - x)%N else (x - v)%N.

Fixpoint closest (v : N) (k : nat) (best : N * nat) (l : list (N * nat))
  : N * nat :=
  match l with
  | [] => best
  | c :: l' =>
      if (distance v c k <? distance v best k)%N then closest v k c l'
      else closest v k best l'
  end.

Fixpoint shortest (v : N) (k : nat) (tries : nat) : option (N * nat * nat) :=
  match tries with
  | O => None
  | S tries' =>
      match candidates v k with
      | [] => shortest v (S k) tries'
      | c :: l => let b := closest v k c l in Some (fst b, snd b, k)
      end
  end.

Definition print_shortest (v : N) : string :=
  match shortest v 1 17 with
  | None => decimal v
  | Some (s, n, k) =>
      if (n <=? 21)%nat then decimal s +++ zeros (n - k)
      else
        match decimal s with
        | EmptyString => EmptyString
        | String d EmptyString => String d ("e+" +++ decimal (N.of_nat (n - 1)))
        | String d ds => String d ("." +++ ds +++ "e+" +++ decimal (N.of_nat (n - 1)))
        end
  end.

(** [String(x)] and the template-literal conversion of a [Number]. *)
Definition toString (x : Number) : string :=
  match x with
  | Infinity => "Infinity"
  | Finite n => if (n <? two53)%N then decimal n else print_shortest n
  end.

(** [x + 1] in double arithmetic. *)
Definition succ (x : Number) : Number :=
  match x with
  | Infinity => Infinity
  | Finite n => of_N (n + 1)
  end.

(** [a === b] *)
Definition eqb (a b : Number) : bool :=
  match a, b with
  | Finite x, Finite y => (x =? y)%N
  | Infinity, Infinity => true
  | _, _ => false
  end.

End Num.

(** ** [Array.prototype.sort] with a comparator

    The sort is stable and, for a comparator that is a total preorder,
    its result is determined: stable insertion from the right. The
    comparator's numeric result is represented by its sign. *)

Section ArraySort.
Context {A : Type} (compareFn : A -> A -> comparison).

Fixpoint sort_insert (x : A) (l : list A) : list A :=
  match l with
  | [] => [x]
  | y :: l' =>
      match compareFn x y with
      | Gt => y :: sort_insert x l'
      | _ => x :: l
      end
  end.

Definition Array_sort (l : list A) : list A := fold_right sort_insert [] l.
End ArraySort.

(** ** [Map] objects

    Entries in insertion order; [set] on a present key keeps its place. *)

Module JsMap.
Section Ops.
Context {V : Type}.

Fixpoint get (m : list (string * V)) (k : string) : option V :=
  match m with
  | [] => None
  | (k', v) :: m' => if String.eqb k' k then Some v else get m' k
  end.

Definition has (m : list (string * V)) (k : string) : bool :=
  match get m k with Some _ => true | None => false end.

Fixpoint set (m : list (string * V)) (k : string) (v : V) : list (string * V) :=
  match m with
  | [] => [(k, v)]
  | (k', v') :: m' =>
      if String.eqb k' k then (k, v) :: m' else (k', v') :: set m' k v
  end.
End Ops.
End JsMap.

(** [a ?? b] *)
Definition nullish {V : Type} (a : option V) (b : V) : V :=
  match a with Some v => v | None => b end.

(** ** [stripWeightSuffix] *)

Definition WEIGHT_SUFFIXES : list string :=
  [".weight"; ".bias"; ".scales"; ".zero_point"; ".weight_scale"].

(** The loop over the suffixes; [key.slice(0, -suffix.length)] keeps the
    first [key.length - suffix.length] characters (no suffix is empty). *)
Fixpoint strip_first (suffixes : list string) (key : string) : string :=
  match suffixes with
  | [] => key
  | suffix :: rest =>
      if Str.endsWith key suffix
      then Str.take (String.length key - String.length suffix) key
      else strip_first rest key
  end.

Definition stripWeightSuffix (key : string) : string :=
  strip_first WEIGHT_SUFFIXES key.

(** ** The module tree ([LayerNode]) *)

Section Tree.

(** Parameter counts are only ever added, so the tree is generic in the
    number type of the host ([num], with its [+] and [0]). *)
Variable num : Type.

Inductive LayerNode : Type := mkLayerNode {
  id : string;
  name : string;
  fullPath : string;
  type : LayerType;
  children : list LayerNode;
  isSelectable : bool;
  paramCount : option num
}.

(** [{ ...node, children: c }] *)
Definition with_children (node : LayerNode) (c : list LayerNode) : LayerNode :=
  mkLayerNode (id node) (name node) (fullPath node) (type node) c
              (isSelectable node) (paramCount node).

(** *** [collapseNumberedLayers] *)

Definition numberedPattern (node : LayerNode) : bool := Str.is_number (name node).

Definition by_index (a b : LayerNode) : comparison :=
  Num.sub_sign (Num.parseInt (name a)) (Num.parseInt (name b)).

(** One level of the pass: the non-numbered siblings in their order, then
    the numbered ones sorted by index. *)
Definition regroup (nodes : list LayerNode) : list LayerNode :=
  filter (fun n => negb (numberedPattern n)) nodes ++
  Array_sort by_index (filter numberedPattern nodes).

(** The source regroups a sibling list and then maps the recursive call
    over the regrouped nodes. The recursion is written here on the node,
    through its children first; regrouping looks at names only, which the
    recursive call keeps, so this is the same function (lemma
    [collapseNumberedLayers_eq] gives the equation of the source). *)
Fixpoint collapse_node (node : LayerNode) : LayerNode :=
  match node with
  | mkLayerNode i nm fp t ch sel pc =>
      mkLayerNode i nm fp t (regroup (map collapse_node ch)) sel pc
  end.

Definition collapseNumberedLayers (nodes : list LayerNode) : list LayerNode :=
  regroup (map collapse_node nodes).

(** *** [getForwardPassPriority] and [sortForwardPass] *)

Definition getForwardPassPriority (name : string) : Q :=
  let s := Str.toLowerCase name in
  (if Str.includes s "embed" || String.eqb s "wte" || String.eqb s "wpe" ||
     String.eqb s "patch_embed" || String.eqb s "pos_embed" then 0
  else if Str.includes s "visual" || Str.includes s "vision" ||
          String.eqb s "vit" || String.eqb s "clip" ||
          String.eqb s "image_encoder" then 1
  else if String.eqb s "merger" || String.eqb s "connector" ||
          String.eqb s "projector" || String.eqb s "multi_modal_projector" ||
          String.eqb s "deepstack" then 2
  else if String.eqb s "language_model" || String.eqb s "model" ||
          String.eqb s "transformer" then 3
  else if String.eqb s "layers" || String.eqb s "blocks" || String.eqb s "h" ||
          String.eqb s "encoder" || Str.is_number s then 4
  else if String.eqb s "input_layernorm" || String.eqb s "layer_norm1" then 50 # 10
  else if String.eqb s "self_attn" || String.eqb s "attention" ||
          String.eqb s "attn" then 51 # 10
  else if String.eqb s "post_attention_layernorm" ||
          String.eqb s "layer_norm2" then 52 # 10
  else if String.eqb s "mlp" then 53 # 10
  else if String.eqb s "norm" || String.eqb s "ln_f" ||
          String.eqb s "final_layer_norm" || String.eqb s "final_layernorm" then 6
  else if String.eqb s "lm_head" || String.eqb s "classifier" ||
          String.eqb s "score" then 7
  else 99)%Q.

(** [(a, b) => getForwardPassPriority(a.name) - getForwardPassPriority(b.name)] *)
Definition by_priority (a b : LayerNode) : comparison :=
  (getForwardPassPriority (name a) ?= getForwardPassPriority (name b))%Q.

(** As for the collapse pass, the recursion is on the node and the sort is
    applied after the children are done; lemma [sortForwardPass_eq] gives
    the equation of the source (copy, sort, then map the recursive call). *)
Fixpoint sort_node (node : LayerNode) : LayerNode :=
  match node with
  | mkLayerNode i nm fp t ch sel pc =>
      mkLayerNode i nm fp t (Array_sort by_priority (map sort_node ch)) sel pc
  end.

Definition sortForwardPass (nodes : list LayerNode) : list LayerNode :=
  Array_sort by_priority (map sort_node nodes).

(** *** [attachParamCounts] *)

Variable add : num -> num -> num.
Variable zero : num.

(** The first loop: module path to the total of its tensors. *)
Definition moduleParams (tensorParamCounts : list (string * num))
  : list (string * num) :=
  fold_left
    (fun m entry =>
       let '(tensorName, count) := entry in
       let modulePath := stripWeightSuffix tensorName in
       JsMap.set m modulePath (add (nullish (JsMap.get m modulePath) zero) count))
    tensorParamCounts [].

(** [children.reduce((sum, c) => sum + (c.paramCount ?? 0), 0)] *)
Definition sum_counts (cs : list LayerNode) : num :=
  fold_left (fun sum c => add sum (nullish (paramCount c) zero)) cs zero.

Fixpoint attach_node (mp : list (string * num)) (node : LayerNode) : LayerNode :=
  match node with
  | mkLayerNode i nm fp t ch sel pc =>
      match ch with
      | [] => mkLayerNode i nm fp t [] sel (Some (nullish (JsMap.get mp fp) zero))
      | _ :: _ =>
          let children' := map (attach_node mp) ch in
          mkLayerNode i nm fp t children' sel (Some (sum_counts children'))
      end
  end.

Definition attach (mp : list (string * num)) (nodes : list LayerNode)
  : list LayerNode :=
  map (attach_node mp) nodes.

Definition attachParamCounts (nodes : list LayerNode)
    (tensorParamCounts : list (string * num)) : list LayerNode :=
  attach (moduleParams tensorParamCounts) nodes.

End Tree.

Arguments mkLayerNode {num}.
Arguments id {num}.
Arguments name {num}.
Arguments fullPath {num}.
Arguments type {num}.
Arguments children {num}.
Arguments isSelectable {num}.
Arguments paramCount {num}.
Arguments with_children {num}.
Arguments numberedPattern {num}.
Arguments by_index {num}.
Arguments regroup {num}.
Arguments collapse_node {num}.
Arguments collapseNumberedLayers {num}.
Arguments by_priority {num}.
Arguments sort_node {num}.
Arguments sortForwardPass {num}.
Arguments sum_counts {num}.
Arguments attach_node {num}.
Arguments attach {num}.
Arguments attachParamCounts {num}.
Arguments moduleParams {num}.


(** ** The selection optimizer ([regexOptimizer.ts]) *)

Definition regex_special : list ascii :=
  ["."; "*"; "+"; "?"; "^"; "$"; "{"; "}"; "("; ")"; "|"; "["; "]"; "\"]%char.

Definition is_special (c : ascii) : bool := existsb (Ascii.eqb c) regex_special.

(** [str.replace(/[.*+?^${}()|[\]\\]/g, '\\$&')] *)
Fixpoint escapeRegex (str : string) : string :=
  match str with
  | EmptyString => EmptyString
  | String c s' =>
      if is_special c then String "\" (String c (escapeRegex s'))
      else String c (escapeRegex s')
  end.

(** Characters that [.] does not match (no [s] flag), among 8-bit
    characters: line feed and carriage return. The host also excludes the
    separators U+2028 and U+2029, which these strings do not hold. *)
Definition is_line_terminator (c : ascii) : bool :=
  Ascii.eqb c "010" || Ascii.eqb c "013".

Fixpoint no_line_terminator (s : string) : bool :=
  match s with
  | EmptyString => true
  | String c s' => negb (is_line_terminator c) && no_line_terminator s'
  end.

(** The longest run of digits at the head of [s], and what follows. *)
Fixpoint span_digits (s : string) : string * string :=
  match s with
  | EmptyString => (EmptyString, EmptyString)
  | String c s' =>
      if Str.is_digit c
      then let (d, r) := span_digits s' in (String c d, r)
      else (EmptyString, s)
  end.

(** [(\d+)(\..+)$] at the head of [rest]: a maximal digit run, a dot, and
    one or more characters up to the end of the input. *)
Definition match_index_suffix (rest : string) : option (string * string) :=
  match span_digits rest with
  | (EmptyString, _) => None
  | (d, String "." (String c tl)) =>
      if no_line_terminator (String c tl)
      then Some (d, String "." (String c tl)) else None
  | (_, _) => None
  end.

(** [/^(.+\.)(\d+)(\..+)$/] by backtracking: the greedy [.+] first runs on
    ([deeper]); only when no longer prefix leads to a match does it stop at
    [consumed], with the current character as the [\.] of the prefix.
    Returns the three groups. *)
Fixpoint match_template_from (consumed rest : string)
  : option (string * string * string) :=
  match rest with
  | EmptyString => None
  | String c rest' =>
      let deeper :=
        if is_line_terminator c then None
        else match_template_from (consumed +++ String c EmptyString) rest' in
      match deeper with
      | Some r => Some r
      | None =>
          if Ascii.eqb c "." && negb (String.eqb consumed EmptyString) then
            match match_index_suffix rest' with
            | Some (d, suf) => Some (consumed +++ ".", d, suf)
            | None => None
            end
          else None
      end
  end.

Definition match_template (path : string) : option (string * string * string) :=
  match_template_from EmptyString path.

Definition INDEX : string := "{{INDEX}}".

(** [toTemplate]: the template key and the parsed index, or [None]. *)
Definition toTemplate (path : string) : option (string * Num.Number) :=
  match match_template path with
  | None => None
  | Some (m1, m2, m3) => Some (m1 +++ INDEX +++ m3, Num.parseInt m2)
  end.

Record TemplateGroup : Set := mkTemplateGroup {
  template : string;
  prefix : string;
  suffix : string;
  indices : list Num.Number
}.

(** [templateGroups.get(template)!.indices.push(index)]: the group object
    is shared with the map, so the push is an update of the map entry. *)
Definition push_index (g : TemplateGroup) (index : Num.Number) : TemplateGroup :=
  mkTemplateGroup (template g) (prefix g) (suffix g) (indices g ++ [index]).

Fixpoint update_group (m : list (string * TemplateGroup)) (k : string)
    (f : TemplateGroup -> TemplateGroup) : list (string * TemplateGroup) :=
  match m with
  | [] => []
  | (k', g) :: m' =>
      if String.eqb k' k then (k', f g) :: m' else (k', g) :: update_group m' k f
  end.

(** One iteration of the grouping loop over [selectedPaths]. The second
    [path.match] of the source has the same groups 1 and 3 as the one in
    [toTemplate], so it cannot fail where [toTemplate] succeeded. *)
Definition group_step (st : list (string * TemplateGroup) * list string)
    (path : string) : list (string * TemplateGroup) * list string :=
  let (templateGroups, nonTemplated) := st in
  match toTemplate path with
  | None => (templateGroups, nonTemplated ++ [path])
  | Some (template, index) =>
      let templateGroups' :=
        if JsMap.has templateGroups template then templateGroups
        else
          match match_template path with
          | Some (m1, _, m2) =>
              JsMap.set templateGroups template
                        (mkTemplateGroup template m1 m2 [])
          | None => templateGroups
          end in
      (update_group templateGroups' template (fun g => push_index g index),
       nonTemplated)
  end.

(** The loop over [allSelectablePaths] that counts paths per template. *)
Definition count_step (allTemplateCount : list (string * nat)) (path : string)
  : list (string * nat) :=
  match toTemplate path with
  | Some (template, _) =>
      JsMap.set allTemplateCount template
                (nullish (JsMap.get allTemplateCount template) 0 + 1)
  | None => allTemplateCount
  end.

(** [items.join(sep)] *)
Fixpoint join (sep : string) (items : list string) : string :=
  match items with
  | [] => EmptyString
  | [x] => x
  | x :: rest => x +++ sep +++ join sep rest
  end.

(** [indices.every((val, i) => i === 0 || val === indices[i - 1] + 1)] *)
Fixpoint every_contiguous (prev : option Num.Number) (l : list Num.Number) : bool :=
  match l with
  | [] => true
  | val :: l' =>
      match prev with
      | None => true
      | Some p => Num.eqb val (Num.succ p)
      end && every_contiguous (Some val) l'
  end.

Definition by_value (a b : Num.Number) : comparison := Num.sub_sign a b.

(** The body of the loop over [templateGroups]: the rules of one group. *)
Definition emit_group (allTemplateCount : list (string * nat))
    (entry : string * TemplateGroup) : list string :=
  let (template, group) := entry in
  let totalForTemplate := nullish (JsMap.get allTemplateCount template) 0 in
  let indices := Array_sort by_value (indices group) in
  if (List.length indices =? totalForTemplate)%nat then
    let escapedPrefix := escapeRegex (prefix group) in
    let escapedSuffix := escapeRegex (suffix group) in
    ["re:" +++ escapedPrefix +++ "\d+" +++ escapedSuffix]
  else if (List.length indices <=? 3)%nat then
    map (fun idx => prefix group +++ Num.toString idx +++ suffix group) indices
  else
    let isContiguous := every_contiguous None indices in
    if isContiguous && (3 <? List.length indices)%nat then
      let idxPattern := join "|" (map Num.toString indices) in
      let escapedPrefix := escapeRegex (prefix group) in
      let escapedSuffix := escapeRegex (suffix group) in
      ["re:" +++ escapedPrefix +++ "(" +++ idxPattern +++ ")" +++ escapedSuffix]
    else
      let idxPattern := join "|" (map Num.toString indices) in
      let escapedPrefix := escapeRegex (prefix group) in
      let escapedSuffix := escapeRegex (suffix group) in
      ["re:" +++ escapedPrefix +++ "(" +++ idxPattern +++ ")" +++ escapedSuffix].

Record Selection : Set := mkSelection {
  explicit : list string;
  optimized : list string
}.

Definition optimizeSelection (selectedPaths allSelectablePaths : list string)
  : Selection :=
  match selectedPaths with
  | [] => mkSelection [] []
  | _ :: _ =>
      let (templateGroups, nonTemplated) :=
        fold_left group_step selectedPaths ([], []) in
      let allTemplateCount := fold_left count_step allSelectablePaths [] in
      mkSelection selectedPaths
        (nonTemplated ++ flat_map (emit_group allTemplateCount) templateGroups)
  end.


(** ** Regular expressions built at run time ([new RegExp], [test])

    The fragment of the pattern syntax that is modelled: literal
    characters, [\] followed by a syntax character, [\d], [.], [^], [$],
    groups [( )], alternation [|] and the quantifiers [*], [+], [?].
    [compile] answers [SyntaxError] where the host throws on this fragment
    (unbalanced parentheses, nothing to repeat, a trailing backslash) and
    [Unsupported] for every construct outside it, about which the model
    says nothing. *)

Module RegExp.

Inductive regex : Set :=
  | Empty
  | Chr (c : ascii)
  | Dot
  | Digit
  | Bol
  | Eol
  | Seq (a b : regex)
  | Alt (a b : regex)
  | Star (a : regex).

Inductive compiled : Set :=
  | Pattern (r : regex)
  | SyntaxError
  | Unsupported.

Inductive term_kind : Set := Atom | Quantified | Assertion.

(** A group being read: its finished alternatives and the terms of the
    current one, both most recent first. *)
Record frame : Set := mkFrame {
  alts : list regex;
  terms : list (regex * term_kind)
}.

Definition empty_frame : frame := mkFrame [] [].

Definition add_term (f : frame) (r : regex) (k : term_kind) : frame :=
  mkFrame (alts f) ((r, k) :: terms f).

Definition seq_of (ts : list (regex * term_kind)) : regex :=
  fold_left (fun acc t => Seq (fst t) acc) ts Empty.

Definition close (f : frame) : regex :=
  fold_left (fun acc a => Alt a acc) (alts f) (seq_of (terms f)).

Definition quantify (q : ascii) (r : regex) : regex :=
  if Ascii.eqb q "*" then Star r
  else if Ascii.eqb q "+" then Seq r (Star r)
  else Alt r Empty.

Definition is_quantifier (c : ascii) : bool :=
  Ascii.eqb c "*" || Ascii.eqb c "+" || Ascii.eqb c "?".

Definition is_bracket (c : ascii) : bool :=
  Ascii.eqb c "[" || Ascii.eqb c "]" || Ascii.eqb c "{" || Ascii.eqb c "}".

Fixpoint parse (s : string) (cur : frame) (stack : list frame) : compiled :=
  match s with
  | EmptyString =>
      match stack with
      | [] => Pattern (close cur)
      | _ :: _ => SyntaxError
      end
  | String c s' =>
      if Ascii.eqb c "(" then
        match s' with
        | String "?" _ => Unsupported
        | _ => parse s' empty_frame (cur :: stack)
        end
      else if Ascii.eqb c ")" then
        match stack with
        | [] => SyntaxError
        | parent :: stack' => parse s' (add_term parent (close cur) Atom) stack'
        end
      else if Ascii.eqb c "|" then
        parse s' (mkFrame (seq_of (terms cur) :: alts cur) []) stack
      else if is_quantifier c then
        match terms cur with
        | (r, Atom) :: ts =>
            parse s' (mkFrame (alts cur) ((quantify c r, Quantified) :: ts)) stack
        | (_, Quantified) :: _ =>
            if Ascii.eqb c "?" then Unsupported else SyntaxError
        | (_, Assertion) :: _ => SyntaxError
        | [] => SyntaxError
        end
      else if Ascii.eqb c "\" then
        match s' with
        | EmptyString => SyntaxError
        | String e s'' =>
            if is_special e then parse s'' (add_term cur (Chr e) Atom) stack
            else if Ascii.eqb e "d" then parse s'' (add_term cur Digit Atom) stack
            else Unsupported
        end
      else if Ascii.eqb c "." then parse s' (add_term cur Dot Atom) stack
      else if Ascii.eqb c "^" then parse s' (add_term cur Bol Assertion) stack
      else if Ascii.eqb c "$" then parse s' (add_term cur Eol Assertion) stack
      else if is_bracket c then Unsupported
      else parse s' (add_term cur (Chr c) Atom) stack
  end.

(** [new RegExp(source)] *)
Definition compile (source : string) : compiled := parse source empty_frame [].

(** The backtracking matcher, in continuation-passing style; [at_start]
    tells whether the current position is index 0. An iteration of a star
    that consumes nothing is rejected. *)
Fixpoint run (r : regex) (k : bool -> string -> bool) (at_start : bool)
    (s : string) : bool :=
  match r with
  | Empty => k at_start s
  | Chr c =>
      match s with
      | String c' s' => Ascii.eqb c c' && k false s'
      | EmptyString => false
      end
  | Dot =>
      match s with
      | String c' s' => negb (is_line_terminator c') && k false s'
      | EmptyString => false
      end
  | Digit =>
      match s with
      | String c' s' => Str.is_digit c' && k false s'
      | EmptyString => false
      end
  | Bol => at_start && k at_start s
  | Eol =>
      match s with
      | EmptyString => k at_start s
      | String _ _ => false
      end
  | Seq a b => run a (run b k) at_start s
  | Alt a b => run a k at_start s || run b k at_start s
  | Star a =>
      (fix loop (fuel : nat) (at_start : bool) (s : string) : bool :=
         match fuel with
         | O => k at_start s
         | S fuel' =>
             run a (fun st' s' =>
                      (String.length s' <? String.length s)%nat && loop fuel' st' s')
                 at_start s
             || k at_start s
         end) (String.length s) at_start s
  end.

(** [pattern.test(p)] for a pattern without flags: a match may start at
    any index and end anywhere. *)
Fixpoint test_from (r : regex) (at_start : bool) (s : string) : bool :=
  run r (fun _ _ => true) at_start s ||
  match s with
  | EmptyString => false
  | String _ s' => test_from r false s'
  end.

Definition test (r : regex) (p : string) : bool := test_from r true p.

End RegExp.

(** ** The ignore list: [formatIgnoreList] and [parseIgnoreItems] *)

Definition dquote : ascii := "034"%char.
Definition newline : string := String "010" EmptyString.

(** One line per item: four spaces, the item in double quotes, a comma;
    joined by newlines between an opening and a closing bracket line. *)
Definition formatStringList (items : list string) : string :=
  match items with
  | [] => "[]"
  | _ :: _ =>
      let inner := join newline
                        (map (fun item => "    " +++ String dquote (item +++ String dquote ","))
                             items) in
      "[" +++ newline +++ inner +++ newline +++ "]"
  end.

Definition formatIgnoreList (items : list string) : string :=
  "ignore=" +++ formatStringList items.

(** After an opening bracket: the text up to the first closing bracket. *)
Fixpoint until_close (s : string) : option string :=
  match s with
  | EmptyString => None
  | String c s' =>
      if Ascii.eqb c "]" then Some EmptyString
      else match until_close s' with
           | Some inner => Some (String c inner)
           | None => None
           end
  end.

(** The first bracketed span of [text] (the [bracketMatch] regular
    expression: an opening bracket, any characters other than a closing
    bracket, a closing bracket): group 1 of the leftmost match. *)
Fixpoint bracketMatch (text : string) : option string :=
  match text with
  | EmptyString => None
  | String c rest =>
      match (if Ascii.eqb c "[" then until_close rest else None) with
      | Some inner => Some inner
      | None => bracketMatch rest
      end
  end.

Definition is_quote (c : ascii) : bool :=
  Ascii.eqb c dquote || Ascii.eqb c "'".

(** The [exec] loop of the quoted-string expression (a quote character,
    one or more characters that are not quotes, a quote character; global
    flag). [open] is [Some acc] after a quote, with [acc] the non-quote
    characters read since. A quote that follows an empty [acc] fails the
    attempt begun at the previous quote, and the next attempt begins at
    this one. *)
Fixpoint quoted_items (open : option string) (s : string) : list string :=
  match s with
  | EmptyString => []
  | String c s' =>
      match open with
      | None => if is_quote c then quoted_items (Some EmptyString) s'
                else quoted_items None s'
      | Some acc =>
          if is_quote c then
            match acc with
            | EmptyString => quoted_items (Some EmptyString) s'
            | _ => acc :: quoted_items None s'
            end
          else quoted_items (Some (acc +++ String c EmptyString)) s'
      end
  end.

(** [result.add(p)] on a [Set]: insertion order, no duplicates. *)
Definition set_add (result : list string) (p : string) : list string :=
  if Str.mem p result then result else result ++ [p].

(** The body of the loop over the items; [None] when the pattern is
    outside the modelled fragment. *)
Definition resolve_item (allSelectablePaths : list string)
    (result : list string) (item : string) : option (list string) :=
  if Str.startsWith item "re:" then
    match RegExp.compile (Str.drop 3 item) with
    | RegExp.Pattern pattern =>
        Some (fold_left
                (fun res p => if RegExp.test pattern p then set_add res p else res)
                allSelectablePaths result)
    | RegExp.SyntaxError => Some result
    | RegExp.Unsupported => None
    end
  else if Str.mem item allSelectablePaths then Some (set_add result item)
  else Some result.

Fixpoint resolve_items (allSelectablePaths : list string)
    (result : list string) (items : list string) : option (list string) :=
  match items with
  | [] => Some result
  | item :: rest =>
      match resolve_item allSelectablePaths result item with
      | Some result' => resolve_items allSelectablePaths result' rest
      | None => None
      end
  end.

(** [parseIgnoreItems]: the resolved paths in insertion order, without
    duplicates; [None] only when an item is a pattern outside the modelled
    fragment. *)
Definition parseIgnoreItems (text : string) (allSelectablePaths : list string)
  : option (list string) :=
  match bracketMatch text with
  | None => Some []
  | Some inner =>
      resolve_items allSelectablePaths [] (quoted_items None inner)
  end.


(** ** The trie of module paths ([buildTrie], [trieToLayerNodes],
       [parseWeightMap]) *)

(** [path.split('.')]: [cur] is the segment being read. *)
Fixpoint split_from (cur s : string) : list string :=
  match s with
  | EmptyString => [cur]
  | String c s' =>
      if Ascii.eqb c "." then cur :: split_from EmptyString s'
      else split_from (cur +++ String c EmptyString) s'
  end.

Definition split_dot (path : string) : list string := split_from EmptyString path.

Module Trie.

Inductive TrieNode : Type := mkTrieNode {
  children : list (string * TrieNode);
  isLeaf : bool;
  fullPath : string
}.

Definition root : TrieNode := mkTrieNode [] false EmptyString.

(** The inner loop of [buildTrie] from index [i] on: [done] is
    [segments.slice(0, i)], [segments] the rest, [current] the node reached.
    A missing child is created with the path of the segments seen so far;
    the last node reached becomes a leaf. *)
Fixpoint insert (done segments : list string) (current : TrieNode) : TrieNode :=
  match segments with
  | [] => mkTrieNode (children current) true (fullPath current)
  | seg :: rest =>
      let child :=
        match JsMap.get (children current) seg with
        | Some c => c
        | None => mkTrieNode [] false (join "." (done ++ [seg]))
        end in
      mkTrieNode
        (JsMap.set (children current) seg (insert (done ++ [seg]) rest child))
        (isLeaf current) (fullPath current)
  end.

Definition buildTrie (modulePaths : list string) : TrieNode :=
  fold_left (fun trie path => insert [] (split_dot path) trie) modulePaths root.

End Trie.

Section TrieToTree.
Variable num : Type.

Fixpoint trieToLayerNodes (trie : Trie.TrieNode) : list (LayerNode num) :=
  match trie with
  | Trie.mkTrieNode ch _ _ =>
      map (fun entry : string * Trie.TrieNode =>
             let (name, child) := entry in
             let type := classifySegment name (Trie.fullPath child) in
             let childNodes := trieToLayerNodes child in
             mkLayerNode (Trie.fullPath child) name (Trie.fullPath child) type
                         childNodes
                         (Trie.isLeaf child &&
                          (List.length childNodes =? 0)%nat)
                         None)
          ch
  end.

(** [[...new Set(keys.map(stripWeightSuffix))]] and the default [sort()],
    which orders strings by their code units. *)
Definition modulePaths_of (keys : list string) : list string :=
  Array_sort String.compare (fold_left set_add (map stripWeightSuffix keys) []).

(** [parseWeightMap], from the keys of [index.weight_map]. *)
Definition parseWeightMap (keys : list string) : list (LayerNode num) :=
  collapseNumberedLayers
    (trieToLayerNodes (Trie.buildTrie (modulePaths_of keys))).

(** *** [collectSelectablePaths] and [collectLeafParamCounts] *)

Fixpoint walk_paths (node : LayerNode num) : list string :=
  match node with
  | mkLayerNode _ _ fp _ ch sel _ =>
      (if sel then [fp] else []) ++ flat_map walk_paths ch
  end.

Definition collectSelectablePaths (nodes : list (LayerNode num)) : list string :=
  flat_map walk_paths nodes.

Fixpoint walk_counts (node : LayerNode num) (map : list (string * num))
  : list (string * num) :=
  match node with
  | mkLayerNode _ _ fp _ ch sel pc =>
      let map' :=
        match pc with
        | Some count => if sel then JsMap.set map fp count else map
        | None => map
        end in
      fold_left (fun m child => walk_counts child m) ch map'
  end.

Definition collectLeafParamCounts (nodes : list (LayerNode num))
  : list (string * num) :=
  fold_left (fun m node => walk_counts node m) nodes [].

End TrieToTree.

Arguments trieToLayerNodes {num}.
Arguments parseWeightMap {num}.
Arguments walk_paths {num}.
Arguments collectSelectablePaths {num}.
Arguments walk_counts {num}.
Arguments collectLeafParamCounts {num}.

(** ** The recipe ([formatKVCacheScheme], [formatRecipe]) *)

Inductive ModifierType : Set :=
  | GPTQModifier | QuantizationModifier | SmoothQuantModifier.

Inductive SchemeType : Set := W4A16 | W8A16 | FP8 | FP8_BLOCK.

Inductive KVCacheSchemeType : Set :=
  | kv_none | FP8_TENSOR | FP8_HEAD | INT8_TENSOR.

Definition ModifierType_text (m : ModifierType) : string :=
  match m with
  | GPTQModifier => "GPTQModifier"
  | QuantizationModifier => "QuantizationModifier"
  | SmoothQuantModifier => "SmoothQuantModifier"
  end.

Definition SchemeType_text (s : SchemeType) : string :=
  match s with
  | W4A16 => "W4A16" | W8A16 => "W8A16" | FP8 => "FP8" | FP8_BLOCK => "FP8_BLOCK"
  end.

Definition KVCacheSchemeType_text (k : KVCacheSchemeType) : string :=
  match k with
  | kv_none => "none" | FP8_TENSOR => "FP8_TENSOR" | FP8_HEAD => "FP8_HEAD"
  | INT8_TENSOR => "INT8_TENSOR"
  end.

(** [s] between double quotes. *)
Definition quoted (s : string) : string :=
  String dquote (s +++ String dquote EmptyString).

(** The block of one preset: number type and strategy vary. *)
Definition kv_block (type strategy : string) : string :=
  join newline
    [ "    kv_cache_scheme={";
      "        " +++ quoted "num_bits" +++ ": 8,";
      "        " +++ quoted "type" +++ ": " +++ quoted type +++ ",";
      "        " +++ quoted "strategy" +++ ": " +++ quoted strategy +++ ",";
      "        " +++ quoted "dynamic" +++ ": False,";
      "        " +++ quoted "symmetric" +++ ": True,";
      "    }" ].

Definition formatKVCacheScheme (kvScheme : KVCacheSchemeType) : option string :=
  match kvScheme with
  | FP8_TENSOR => Some (kv_block "float" "tensor")
  | FP8_HEAD => Some (kv_block "float" "attn_head")
  | INT8_TENSOR => Some (kv_block "int" "tensor")
  | kv_none => None
  end.

Definition formatRecipe (items : list string) (modifier : ModifierType)
    (scheme : SchemeType) (kvCacheScheme : KVCacheSchemeType) : string :=
  let importPath :=
    match modifier with
    | SmoothQuantModifier => "llmcompressor.modifiers.smoothquant"
    | _ => "llmcompressor.modifiers.quantization"
    end in
  let ignoreStr := formatStringList items in
  let kvBlock := formatKVCacheScheme kvCacheScheme in
  let args :=
    [ "    targets=" +++ quoted "Linear";
      "    scheme=" +++ quoted (SchemeType_text scheme);
      "    ignore=" +++ ignoreStr ] ++
    match kvBlock with Some b => [b] | None => [] end in
  let vllmNote :=
    match kvCacheScheme with
    | kv_none => EmptyString
    | _ =>
        newline +++ newline +++ "# vLLM: load with kv_cache_dtype=" +++
        quoted (if Str.startsWith (KVCacheSchemeType_text kvCacheScheme) "FP8"
                then "fp8" else "int8")
    end in
  "from " +++ importPath +++ " import " +++ ModifierType_text modifier +++
  newline +++ newline +++
  "recipe = " +++ ModifierType_text modifier +++ "(" +++ newline +++
  join ("," +++ newline) args +++ "," +++ newline +++
  ")" +++ vllmNote.

(** ** The layer index of a path ([layerPattern]) *)

(** Group 1 of the leftmost match of the layer expression (a dot, one or
    more digits, a dot) in [p]. At a dot the digits are taken greedily up
    to the first character that is not a digit, which has to be a dot;
    giving digits back cannot help, as the character that follows would
    then be a digit. *)
Fixpoint layer_digits (p : string) : option string :=
  match p with
  | EmptyString => None
  | String c rest =>
      match (if Ascii.eqb c "." then
               match span_digits rest with
               | (EmptyString, _) => None
               | (d, String "." _) => Some d
               | (_, _) => None
               end
             else None) with
      | Some d => Some d
      | None => layer_digits rest
      end
  end.

(** [a > b], [a >= b] and [a <= b] on the numbers [parseInt] returns. *)
Definition number_gt (a b : Num.Number) : bool :=
  match Num.sub_sign a b with Gt => true | _ => false end.

Definition number_ge (a b : Num.Number) : bool :=
  match Num.sub_sign a b with Lt => false | _ => true end.

Definition number_le (a b : Num.Number) : bool :=
  match Num.sub_sign a b with Gt => false | _ => true end.

(** [getMaxLayerIndex] *)
Definition getMaxLayerIndex (paths : list string) : Num.Number :=
  fold_left
    (fun max p =>
       match layer_digits p with
       | Some d => let idx := Num.parseInt d in if number_gt idx max then idx else max
       | None => max
       end)
    paths (Num.Finite 0).

(** ** The tree of generated paths (the end of [buildTreeFromConfig]) *)

(** From the generated [paths] on: [None] when there are none; otherwise
    the tree and its selectable paths. The keys of the object made by
    [Object.fromEntries] are the paths with [.weight] appended, a repeated
    one at its first place; none of them is an array index, so they are
    listed in insertion order. *)
Definition buildTreeFromPaths {num : Type} (paths : list string)
  : option (list (LayerNode num) * list string) :=
  match paths with
  | [] => None
  | _ :: _ =>
      let keys := fold_left set_add (map (fun p => p +++ ".weight") paths) [] in
      let tree := parseWeightMap keys in
      Some (tree, collectSelectablePaths tree)
  end.

(** ** The selection store ([useSelectionStore]) *)

Module Store.

(** [selectedPaths] is a [Set]: insertion order, no duplicates. The third
    field of the store, [paramCountMap], is written by [setParamCountMap]
    only and read by none of the actions below; it is left out. *)
Record SelectionState : Set := mkState {
  selectedPaths : list string;
  allSelectablePaths : list string
}.

(** [new Set(paths)] *)
Definition Set_of (paths : list string) : list string :=
  fold_left set_add paths [].

(** [set.delete(p)] *)
Fixpoint set_delete (set : list string) (p : string) : list string :=
  match set with
  | [] => []
  | x :: rest => if String.eqb x p then rest else x :: set_delete rest p
  end.

Definition setAllSelectablePaths (paths : list string) (state : SelectionState)
  : SelectionState :=
  mkState [] paths.

Definition setSelectedPaths (paths : list string) (state : SelectionState)
  : SelectionState :=
  let valid := Set_of (allSelectablePaths state) in
  mkState
    (fold_left (fun next p => if Str.mem p valid then set_add next p else next)
               paths [])
    (allSelectablePaths state).

Definition toggle (path : string) (state : SelectionState) : SelectionState :=
  let next := selectedPaths state in
  mkState (if Str.mem path next then set_delete next path else set_add next path)
          (allSelectablePaths state).

Definition selectPaths (paths : list string) (state : SelectionState)
  : SelectionState :=
  mkState (fold_left set_add paths (selectedPaths state))
          (allSelectablePaths state).

Definition deselectPaths (paths : list string) (state : SelectionState)
  : SelectionState :=
  mkState (fold_left set_delete paths (selectedPaths state))
          (allSelectablePaths state).

Definition selectAll (state : SelectionState) : SelectionState :=
  mkState (Set_of (allSelectablePaths state)) (allSelectablePaths state).

Definition deselectAll (state : SelectionState) : SelectionState :=
  mkState [] (allSelectablePaths state).

Definition invertSelection (state : SelectionState) : SelectionState :=
  mkState
    (fold_left
       (fun next p => if Str.mem p (selectedPaths state) then next
                      else set_add next p)
       (allSelectablePaths state) [])
    (allSelectablePaths state).

(** [pattern] stands for [pattern.test] of a pattern without the global
    or sticky flag, whose answer depends on the path alone. *)
Definition selectByPattern (pattern : string -> bool) (state : SelectionState)
  : SelectionState :=
  mkState
    (fold_left (fun next p => if pattern p then set_add next p else next)
               (allSelectablePaths state) (selectedPaths state))
    (allSelectablePaths state).

Definition deselectByPattern (pattern : string -> bool) (state : SelectionState)
  : SelectionState :=
  mkState
    (fold_left (fun next p => if pattern p then set_delete next p else next)
               (allSelectablePaths state) (selectedPaths state))
    (allSelectablePaths state).

(** The bounds are taken among the numbers [parseInt] returns (the
    non-negative integers and [Infinity]); [suffixPattern], when given,
    stands for its [test] as in [selectByPattern]. *)
Definition selectRange (startLayer endLayer : Num.Number)
    (suffixPattern : option (string -> bool)) (state : SelectionState)
  : SelectionState :=
  mkState
    (fold_left
       (fun next p =>
          match layer_digits p with
          | Some d =>
              let idx := Num.parseInt d in
              if number_ge idx startLayer && number_le idx endLayer then
                if match suffixPattern with
                   | None => true
                   | Some pattern => pattern p
                   end
                then set_add next p else next
              else next
          | None => next
          end)
       (allSelectablePaths state) (selectedPaths state))
    (allSelectablePaths state).

Definition isSelected (path : string) (state : SelectionState) : bool :=
  Str.mem path (selectedPaths state).

End Store.

(** * Specification vocabulary *)

(** [x] may stay in front of [y] under a sort comparator. *)
Definition precedes {A : Type} (compareFn : A -> A -> comparison) (x y : A)
  : Prop :=
  compareFn x y <> Gt.

Section TreeVocabulary.
Context {num : Type}.
Local Abbreviation node := (LayerNode num).

(** Structural induction through the lists of children. *)
Section Induction.
Variable P : node -> Prop.
Hypothesis step :
  forall i nm fp t ch sel pc,
    Forall P ch -> P (mkLayerNode i nm fp t ch sel pc).

Fixpoint LayerNode_tree_ind (n : node) : P n :=
  match n with
  | mkLayerNode i nm fp t ch sel pc =>
      step i nm fp t ch sel pc
           ((fix all (l : list node) : Forall P l :=
               match l with
               | [] => Forall_nil P
               | x :: l' => Forall_cons x (LayerNode_tree_ind x) (all l')
               end) ch)
  end.
End Induction.

(** [n'] is [n] with sibling lists permuted, at every depth: same
    identifiers, names, paths, roles, flags and counts. *)
Inductive reordered : node -> node -> Prop :=
| reordered_node i nm fp t sel pc ch mid ch' :
    Forall2 reordered ch mid ->
    Permutation mid ch' ->
    reordered (mkLayerNode i nm fp t ch sel pc)
              (mkLayerNode i nm fp t ch' sel pc).

Definition reordered_forest (l l' : list node) : Prop :=
  exists mid, Forall2 reordered l mid /\ Permutation mid l'.

(** Order of the numbers [parseInt] returns for two names. *)
Definition index_le (a b : node) : Prop := precedes by_index a b.

(** A sibling list as the collapse pass leaves it: the names that are not
    numbers, then the numbers in ascending order of index. *)
Definition grouped (l : list node) : Prop :=
  exists others numbered,
    l = others ++ numbered /\
    Forall (fun n => numberedPattern n = false) others /\
    Forall (fun n => numberedPattern n = true) numbered /\
    Sorted index_le numbered.

Inductive grouped_below : node -> Prop :=
| grouped_below_node n :
    grouped (children n) -> Forall grouped_below (children n) ->
    grouped_below n.

(** Forward-pass order of a sibling list, and of every list below. *)
Definition priority_le (a b : node) : Prop := precedes by_priority a b.

Inductive forward_below : node -> Prop :=
| forward_below_node n :
    Sorted priority_le (children n) -> Forall forward_below (children n) ->
    forward_below n.

Definition forward_ordered (nodes : list node) : Prop :=
  Sorted priority_le nodes /\ Forall forward_below nodes.

(** The nodes of the given priority, in order. *)
Definition with_priority (q : Q) (nodes : list node) : list node :=
  filter (fun n => Qeq_bool (getForwardPassPriority (name n)) q) nodes.

(** A tree in which every leaf carries its module's total and every other
    node the sum of its children's counts. *)
Inductive counted (add : num -> num -> num) (zero : num)
    (mp : list (string * num)) : node -> Prop :=
| counted_leaf n :
    children n = [] ->
    paramCount n = Some (nullish (JsMap.get mp (fullPath n)) zero) ->
    counted add zero mp n
| counted_inner n :
    children n <> [] ->
    Forall (counted add zero mp) (children n) ->
    paramCount n = Some (sum_counts add zero (children n)) ->
    counted add zero mp n.

(** The tree without its counts. *)
Fixpoint forget_counts (n : node) : node :=
  match n with
  | mkLayerNode i nm fp t ch sel _ =>
      mkLayerNode i nm fp t (map forget_counts ch) sel None
  end.

(** The counts of the tensors that belong to [modulePath], in map order. *)
Definition tensors_of (modulePath : string) (tensorParamCounts : list (string * num))
  : list num :=
  map snd
      (filter (fun e => String.eqb (stripWeightSuffix (fst e)) modulePath)
              tensorParamCounts).
End TreeVocabulary.

(** Example trees. *)
Definition leaf (nm fp : string) : LayerNode N :=
  mkLayerNode fp nm fp (classifySegment nm fp) [] true None.

Definition container (nm fp : string) (ch : list (LayerNode N)) : LayerNode N :=
  mkLayerNode fp nm fp (classifySegment nm fp) ch false None.

Definition numbered_siblings : list (LayerNode N) :=
  [ leaf "10" "layers.10"; leaf "2" "layers.2"; leaf "1" "layers.1";
    leaf "mlp" "layers.mlp" ].

Definition layer_children : list (LayerNode N) :=
  [ leaf "mlp" "model.layers.0.mlp";
    leaf "self_attn" "model.layers.0.self_attn";
    leaf "input_layernorm" "model.layers.0.input_layernorm";
    leaf "post_attention_layernorm" "model.layers.0.post_attention_layernorm" ].

Definition ordered_example : list (LayerNode N) :=
  [ leaf "embed_tokens" "model.embed_tokens";
    container "layers" "model.layers"
      [ container "0" "model.layers.0"
          [ leaf "input_layernorm" "model.layers.0.input_layernorm";
            leaf "self_attn" "model.layers.0.self_attn";
            leaf "mlp" "model.layers.0.mlp" ] ];
    leaf "norm" "model.norm" ].

Definition counted_example : list (LayerNode N) :=
  [ container "mlp" "mlp"
      [ leaf "up_proj" "mlp.up_proj"; leaf "down_proj" "mlp.down_proj" ];
    leaf "lm_head" "lm_head" ].

Definition counted_example_counts : list (string * N) :=
  [ ("mlp.up_proj.weight", 100%N); ("mlp.down_proj.weight", 200%N);
    ("mlp.down_proj.bias", 50%N) ].

(** Occurrence of a character in a string. *)
Fixpoint has_char (c : ascii) (s : string) : bool :=
  match s with
  | EmptyString => false
  | String c' s' => Ascii.eqb c c' || has_char c s'
  end.

(** The text has no opening bracket that is followed, somewhere, by a
    closing bracket. *)
Definition no_bracketed_span (text : string) : Prop :=
  forall a b c, text <> a +++ "[" +++ b +++ "]" +++ c.

(** ** Vocabulary for the round trip *)

(** [t] without its prefix [p]. *)
Fixpoint strip_prefix (p t : string) : option string :=
  match p, t with
  | EmptyString, _ => Some t
  | String a p', String b t' =>
      if Ascii.eqb a b then strip_prefix p' t' else None
  | String _ _, EmptyString => None
  end.

(** The pattern that matches the characters of [s], then [tail]. *)
Fixpoint lits (s : string) (tail : RegExp.regex) : RegExp.regex :=
  match s with
  | EmptyString => tail
  | String c s' => RegExp.Seq (RegExp.Chr c) (lits s' tail)
  end.

Definition one_or_more_digits : RegExp.regex :=
  RegExp.Seq RegExp.Digit (RegExp.Star RegExp.Digit).

(** What the index-wildcard rule of a template compiles to. *)
Definition wildcard_regex (pre suf : string) : RegExp.regex :=
  lits pre (RegExp.Seq one_or_more_digits (lits suf RegExp.Empty)).

Fixpoint alternatives (ds : list string) : RegExp.regex :=
  match ds with
  | [] => RegExp.Empty
  | [d] => lits d RegExp.Empty
  | d :: rest => RegExp.Alt (lits d RegExp.Empty) (alternatives rest)
  end.

(** What the alternation rule of a template compiles to. *)
Definition alternation_regex (pre : string) (ds : list string) (suf : string)
  : RegExp.regex :=
  lits pre (RegExp.Seq (alternatives ds) (lits suf RegExp.Empty)).

(** The terms the parser has after reading the literal characters of [s]. *)
Fixpoint push_lits (s : string) (cur : RegExp.frame) : RegExp.frame :=
  match s with
  | EmptyString => cur
  | String c s' => push_lits s' (RegExp.add_term cur (RegExp.Chr c) RegExp.Atom)
  end.

(** The sequence of the terms read so far, in front of [acc]. *)
Definition build (ts : list (RegExp.regex * RegExp.term_kind))
    (acc : RegExp.regex) : RegExp.regex :=
  fold_left (fun acc t => RegExp.Seq (fst t) acc) ts acc.

(** The loop of the star, by name. *)
Definition star_loop (a : RegExp.regex) (k : bool -> string -> bool)
  : nat -> bool -> string -> bool :=
  fix loop (fuel : nat) (at_start : bool) (s : string) : bool :=
    match fuel with
    | O => k at_start s
    | S fuel' =>
        RegExp.run a
          (fun st' s' =>
             (String.length s' <? String.length s)%nat && loop fuel' st' s')
          at_start s
        || k at_start s
    end.

(** Whether the position after reading [s] is still index 0. *)
Definition after (s : string) (at_start : bool) : bool :=
  match s with
  | EmptyString => at_start
  | String _ _ => false
  end.

(** An instance of the template ([pre], digits, [suf]) at the head of [t]:
    what follows it. The suffix of a template begins with a dot, so the
    digits are the whole run. *)
Definition instance_at (pre suf t : string) : option string :=
  match strip_prefix pre t with
  | None => None
  | Some t1 =>
      match span_digits t1 with
      | (EmptyString, _) => None
      | (_, t2) => strip_prefix suf t2
      end
  end.

(** Every instance of the template inside [t] spans all of [t]
    ([at_start] says that [t] is the whole path). *)
Fixpoint only_whole (pre suf : string) (at_start : bool) (t : string) : bool :=
  match instance_at pre suf t with
  | Some y => at_start && String.eqb y EmptyString
  | None => true
  end &&
  match t with
  | EmptyString => true
  | String _ t' => only_whole pre suf false t'
  end.

(** No universe path has an instance of a selected path's template
    strictly inside it. *)
Definition scoped (selectedPaths allSelectablePaths : list string) : bool :=
  forallb
    (fun p =>
       match match_template p with
       | None => true
       | Some (pre, _, suf) => forallb (only_whole pre suf true) allSelectablePaths
       end)
    selectedPaths.

Definition forbidden (c : ascii) : bool :=
  is_quote c || Ascii.eqb c "]" || Ascii.eqb c "{".

Fixpoint no_forbidden (s : string) : bool :=
  match s with
  | EmptyString => true
  | String c s' => negb (forbidden c) && no_forbidden s'
  end.

(** A path that survives quoting: not empty, not beginning with [re:],
    without quotes, closing bracket or opening brace. *)
Definition plain_path (p : string) : bool :=
  negb (String.eqb p EmptyString) && negb (Str.startsWith p "re:") &&
  no_forbidden p.

(** The layer index of the path, if it has one, is written the way the
    host prints the number it parses to. *)
Definition canonical_index (p : string) : bool :=
  match match_template p with
  | None => true
  | Some (_, d, _) => String.eqb (Num.toString (Num.parseInt d)) d
  end.

(** The indices and the paths of one template key among [l], and the
    paths without template, in order. *)
Definition indices_for (k : string) (l : list string) : list Num.Number :=
  flat_map (fun p => match toTemplate p with
                     | Some (k', i) => if String.eqb k' k then [i] else []
                     | None => []
                     end) l.

Definition paths_for (k : string) (l : list string) : list string :=
  filter (fun p => match toTemplate p with
                   | Some (k', _) => String.eqb k' k
                   | None => false
                   end) l.

Definition untemplated (l : list string) : list string :=
  filter (fun p => match toTemplate p with
                   | Some _ => false
                   | None => true
                   end) l.

(** The template groups after the grouping loop has read [l]. *)
Definition groups_inv (l : list string) (groups : list (string * TemplateGroup))
  : Prop :=
  NoDup (map fst groups) /\
  (forall k g, In (k, g) groups ->
     template g = k /\ indices g = indices_for k l /\
     exists p0 d0, In p0 l /\
                   match_template p0 = Some (prefix g, d0, suffix g) /\
                   k = prefix g +++ INDEX +++ suffix g) /\
  (forall p k i, In p l -> toTemplate p = Some (k, i) -> In k (map fst groups)).

(** What one item of the list resolves to: the universe paths its
    pattern matches, or itself when it is a literal of the universe. *)
Definition selects (allSelectablePaths : list string) (item q : string) : Prop :=
  In q allSelectablePaths /\
  if Str.startsWith item "re:" then
    match RegExp.compile (Str.drop 3 item) with
    | RegExp.Pattern r => RegExp.test r q = true
    | _ => False
    end
  else q = item.

(** One line of the emitted list. *)
Definition item_line (item : string) : string :=
  "    " +++ String dquote (item +++ String dquote ",").

(** Example universes. *)
Definition five_paths : list string :=
  [ "model.embed_tokens"; "model.layers.0.self_attn.q_proj";
    "model.layers.0.mlp.down_proj"; "model.norm"; "lm_head" ].

Definition down_proj (i : nat) : string :=
  "model.layers." +++ Num.decimal (N.of_nat i) +++ ".mlp.down_proj".

Definition down_proj_universe : list string := map down_proj (seq 0 32).

Definition overlapping_universe : list string :=
  [ "model.layers.0.mlp"; "vision_model.layers.0.mlp" ].

Definition q_proj (i : nat) : string :=
  "model.layers." +++ Num.decimal (N.of_nat i) +++ ".self_attn.q_proj".

Definition mixed_universe : list string :=
  "model.embed_tokens" :: "model.norm" :: "lm_head" ::
  map q_proj (seq 0 2) ++ map down_proj (seq 0 8).

Definition mixed_selection : list string :=
  "model.norm" :: map down_proj [6; 0; 3; 5; 1] ++ map q_proj [1; 0].


(** ** Vocabulary of the further properties *)

(** No quote character and no closing bracket. *)
Fixpoint no_quote_or_close (s : string) : bool :=
  match s with
  | EmptyString => true
  | String c s' => negb (is_quote c || Ascii.eqb c "]") && no_quote_or_close s'
  end.

(** A path that is read back as itself from between quotes: not empty, not
    beginning with [re:], without quote characters or closing bracket. *)
Definition literal_path (p : string) : bool :=
  negb (String.eqb p EmptyString) && negb (Str.startsWith p "re:") &&
  no_quote_or_close p.

(** The text of a recipe before and after its list of items. *)
Definition recipe_head (modifier : ModifierType) (scheme : SchemeType) : string :=
  "from " +++
  match modifier with
  | SmoothQuantModifier => "llmcompressor.modifiers.smoothquant"
  | _ => "llmcompressor.modifiers.quantization"
  end +++ " import " +++ ModifierType_text modifier +++
  newline +++ newline +++
  "recipe = " +++ ModifierType_text modifier +++ "(" +++ newline +++
  "    targets=" +++ quoted "Linear" +++ "," +++ newline +++
  "    scheme=" +++ quoted (SchemeType_text scheme) +++ "," +++ newline +++
  "    ignore=".

Definition recipe_tail (kvCacheScheme : KVCacheSchemeType) : string :=
  match formatKVCacheScheme kvCacheScheme with
  | Some b => "," +++ newline +++ b
  | None => EmptyString
  end +++ "," +++ newline +++ ")" +++
  match kvCacheScheme with
  | kv_none => EmptyString
  | FP8_TENSOR | FP8_HEAD =>
      newline +++ newline +++ "# vLLM: load with kv_cache_dtype=" +++ quoted "fp8"
  | INT8_TENSOR =>
      newline +++ newline +++ "# vLLM: load with kv_cache_dtype=" +++ quoted "int8"
  end.

(** A tree in which a selectable node has no children, as the trees made
    from a weight map are. *)
Inductive selectable_leaves {num : Type} : LayerNode num -> Prop :=
| selectable_leaves_node n :
    (isSelectable n = true -> children n = []) ->
    Forall selectable_leaves (children n) ->
    selectable_leaves n.

(** *** The trie *)

(** Structural induction through the maps of children. *)
Section TrieInduction.
Variable P : Trie.TrieNode -> Prop.
Hypothesis step :
  forall ch leaf fp,
    Forall (fun e : string * Trie.TrieNode => P (snd e)) ch ->
    P (Trie.mkTrieNode ch leaf fp).

Fixpoint TrieNode_tree_ind (t : Trie.TrieNode) : P t :=
  match t with
  | Trie.mkTrieNode ch leaf fp =>
      step ch leaf fp
           ((fix all (l : list (string * Trie.TrieNode))
               : Forall (fun e : string * Trie.TrieNode => P (snd e)) l :=
               match l with
               | [] => Forall_nil _
               | (n, c) :: l' =>
                   Forall_cons (n, c) (TrieNode_tree_ind c) (all l')
               end) ch)
  end.
End TrieInduction.

(** A segment is a string without dot. *)
Definition segment (s : string) : Prop := has_char "." s = false.

(** The node reached from [t] along the segments. *)
Fixpoint descend (segs : list string) (t : Trie.TrieNode) : option Trie.TrieNode :=
  match segs with
  | [] => Some t
  | seg :: rest =>
      match JsMap.get (Trie.children t) seg with
      | Some child => descend rest child
      | None => None
      end
  end.

Definition node_at (t : Trie.TrieNode) (segs : list string) : Prop :=
  exists n, descend segs t = Some n.

Definition leaf_at (t : Trie.TrieNode) (segs : list string) : Prop :=
  exists n, descend segs t = Some n /\ Trie.isLeaf n = true.

(** Below the segments [done], every child is filed under a segment, once,
    and carries the path of the segments that lead to it. *)
Inductive trie_wf : list string -> Trie.TrieNode -> Prop :=
| trie_wf_node done ch leaf fp :
    NoDup (map fst ch) ->
    (forall name child, In (name, child) ch ->
       segment name /\ Trie.fullPath child = join "." (done ++ [name])) ->
    (forall name child, In (name, child) ch -> trie_wf (done ++ [name]) child) ->
    trie_wf done (Trie.mkTrieNode ch leaf fp).

(** The tree node made from one entry of a trie node's children. *)
Definition entry_node {num : Type} (entry : string * Trie.TrieNode)
  : LayerNode num :=
  let (name, child) := entry in
  mkLayerNode (Trie.fullPath child) name (Trie.fullPath child)
              (classifySegment name (Trie.fullPath child))
              (trieToLayerNodes child)
              (Trie.isLeaf child && (List.length (@trieToLayerNodes num child) =? 0)%nat)
              None.

(** A node of the tree of a weight map, below the path [parent]: its
    identifier is its path, its path is the parent's path, a dot and its
    name, its type is the class of its name and path, it has no count, and
    it has no children when it is selectable. *)
Inductive parsed_below {num : Type} (parent : option string)
  : LayerNode num -> Prop :=
| parsed_node n :
    id n = fullPath n ->
    fullPath n = match parent with
                 | None => name n
                 | Some pp => pp +++ "." +++ name n
                 end ->
    type n = classifySegment (name n) (fullPath n) ->
    paramCount n = None ->
    (isSelectable n = true -> children n = []) ->
    Forall (parsed_below (Some (fullPath n))) (children n) ->
    parsed_below parent n.

(** The path of the segments read so far, if any. *)
Definition parent_of (done : list string) : option string :=
  match done with
  | [] => None
  | _ :: _ => Some (join "." done)
  end.

(** *** The selection store *)

(** The selection lists each path once and lies inside the universe. *)
Definition valid_selection (state : Store.SelectionState) : Prop :=
  NoDup (Store.selectedPaths state) /\
  incl (Store.selectedPaths state) (Store.allSelectablePaths state).

(** *** Numbered layers in the forward-pass view *)

(** In every list of children the numbered ones stand in ascending order
    of index. *)
Inductive layers_ascending_below {num : Type} : LayerNode num -> Prop :=
| layers_ascending_node n :
    Sorted index_le (filter numberedPattern (children n)) ->
    Forall layers_ascending_below (children n) ->
    layers_ascending_below n.

(** *** Letter case *)

(** The same character, or an upper-case letter A-Z and its lower-case
    form (32 code points further), in either order. *)
Definition same_letter (c c' : ascii) : bool :=
  let n := nat_of_ascii c in
  let n' := nat_of_ascii c' in
  (n =? n')%nat ||
  ((65 <=? n)%nat && (n <=? 90)%nat && (n' =? n + 32)%nat) ||
  ((65 <=? n')%nat && (n' <=? 90)%nat && (n =? n' + 32)%nat).

(** Two names that differ in the case of their letters only. *)
Fixpoint same_up_to_case (a b : string) : bool :=
  match a, b with
  | EmptyString, EmptyString => true
  | String c a', String c' b' => same_letter c c' && same_up_to_case a' b'
  | _, _ => false
  end.

(** The children of a layer, out of order and in mixed case. *)
Definition mixed_case_children : list (LayerNode N) :=
  [ leaf "MLP" "model.layers.0.MLP";
    leaf "Self_Attn" "model.layers.0.Self_Attn";
    leaf "Input_LayerNorm" "model.layers.0.Input_LayerNorm";
    leaf "Post_Attention_LayerNorm" "model.layers.0.Post_Attention_LayerNorm" ].

(** *** Further example inputs *)

(** Two numbered siblings whose indices differ only past 53 bits. *)
Definition large_index_siblings : list (LayerNode N) :=
  [ leaf "9007199254740993" "layers.9007199254740993";
    leaf "9007199254740992" "layers.9007199254740992" ].

(** A model with a dense layer and a mixture-of-experts layer, whose
    router is the module [mlp.gate]. *)
Definition moe_universe : list string :=
  [ "model.embed_tokens";
    "model.layers.0.mlp.gate_proj"; "model.layers.0.mlp.up_proj";
    "model.layers.0.mlp.down_proj";
    "model.layers.1.mlp.gate";
    "model.layers.1.mlp.experts.0.gate_proj";
    "model.layers.1.mlp.experts.0.up_proj";
    "model.layers.1.mlp.experts.0.down_proj";
    "lm_head" ].

Definition moe_selection : list string := [ "model.layers.1.mlp.gate" ].

(** Two paths with one template key and different prefixes. *)
Definition colliding_paths : list string :=
  [ "a.5.b.{{INDEX}}.c"; "a.{{INDEX}}.b.7.c" ].

(** * Properties *)

(** ** Strings *)

Lemma lower_char_idem c : Str.lower_char (Str.lower_char c) = Str.lower_char c.
Proof.
  destruct c as [[] [] [] [] [] [] [] []]; reflexivity.
Qed.

Lemma toLowerCase_idem s :
  Str.toLowerCase (Str.toLowerCase s) = Str.toLowerCase s.
Proof.
  induction s as [| c s IH]; simpl; [reflexivity |].
  now rewrite lower_char_idem, IH.
Qed.

(** ** The classifier *)

Lemma norm_marker_of_substring s :
  Str.includes s "norm" = true -> norm_marker s = true.
Proof. intros H. unfold norm_marker. now rewrite H. Qed.

Lemma norm_marker_of_alias s :
  In s norm_aliases -> norm_marker s = true.
Proof.
  unfold norm_aliases. simpl.
  intros H. repeat (destruct H as [<- | H]; [reflexivity |]). contradiction.
Qed.

(** C4. Normalization markers are tested before attention markers:
    [post_attention_layernorm] is a norm for every full path, and every
    segment that (in lower case) contains [norm] or is one of the norm
    aliases is a norm unless an embedding marker fires first. *)
Theorem classify_norm_before_attention :
  (forall fullPath,
      classifySegment "post_attention_layernorm" fullPath = norm) /\
  (forall segment fullPath,
      Str.includes (Str.toLowerCase segment) "norm" = true \/
      In (Str.toLowerCase segment) norm_aliases ->
      classifySegment segment fullPath =
      if embedding_marker (Str.toLowerCase segment) then embedding else norm).
Proof.
  split.
  - intros fullPath. reflexivity.
  - intros segment fullPath H. unfold classifySegment.
    destruct (embedding_marker (Str.toLowerCase segment)); [reflexivity |].
    assert (Hn : norm_marker (Str.toLowerCase segment) = true).
    { destruct H; [now apply norm_marker_of_substring
                  | now apply norm_marker_of_alias]. }
    now rewrite Hn.
Qed.

Lemma classify_norm_before_attention_witness :
  Str.includes (Str.toLowerCase "Attention_RMSNorm") "norm" = true /\
  classifySegment "Attention_RMSNorm" "model.layers.0.self_attn.Attention_RMSNorm"
  = norm.
Proof.
  split; [reflexivity |].
  exact (proj2 classify_norm_before_attention "Attention_RMSNorm"
           "model.layers.0.self_attn.Attention_RMSNorm" (or_introl eq_refl)).
Defined.

(** ** [Array.prototype.sort] *)

Section ArraySortFacts.
Context {A : Type} (compareFn : A -> A -> comparison).

Local Abbreviation precedes := (precedes compareFn).

Lemma sort_insert_perm x l : Permutation (x :: l) (sort_insert compareFn x l).
Proof.
  induction l as [| y l IH]; simpl; [reflexivity |].
  destruct (compareFn x y); try reflexivity.
  rewrite perm_swap. now constructor.
Qed.

Lemma Array_sort_perm l : Permutation l (Array_sort compareFn l).
Proof.
  induction l as [| x l IH]; simpl; [constructor |].
  rewrite <- sort_insert_perm. now constructor.
Qed.

Lemma Array_sort_length l : List.length (Array_sort compareFn l) = List.length l.
Proof. symmetry. apply Permutation_length, Array_sort_perm. Qed.

Lemma sort_insert_sorted_head x l :
  HdRel precedes x l -> sort_insert compareFn x l = x :: l.
Proof.
  intros H. destruct l as [| y l]; [reflexivity |]. simpl.
  inversion H as [| ? ? Hxy]; subst. unfold precedes in Hxy.
  destruct (compareFn x y); try reflexivity. congruence.
Qed.

(** A list already in order is left as it is. *)
Lemma Array_sort_sorted_id l : Sorted precedes l -> Array_sort compareFn l = l.
Proof.
  induction 1 as [| x l Hs IH Hd]; simpl; [reflexivity |].
  rewrite IH. now apply sort_insert_sorted_head.
Qed.

(** The comparator never answers "after" both ways. *)
Hypothesis compare_asym : forall x y, compareFn x y = Gt -> compareFn y x <> Gt.

Lemma sort_insert_sorted x l :
  Sorted precedes l -> Sorted precedes (sort_insert compareFn x l).
Proof.
  induction 1 as [| y l Hs IH Hd]; simpl.
  - repeat constructor.
  - destruct (compareFn x y) eqn:E.
    + constructor; [now constructor |]. constructor. unfold precedes. congruence.
    + constructor; [now constructor |]. constructor. unfold precedes. congruence.
    + constructor; [exact IH |].
      destruct l as [| z l]; simpl.
      * constructor. now apply compare_asym.
      * inversion Hd; subst.
        destruct (compareFn x z); constructor;
          solve [now apply compare_asym | assumption].
Qed.

Lemma Array_sort_sorted l : Sorted precedes (Array_sort compareFn l).
Proof.
  induction l as [| x l IH]; simpl; [constructor |].
  now apply sort_insert_sorted.
Qed.

End ArraySortFacts.

(** Sorting commutes with a map that the comparator does not see. *)
Lemma sort_insert_map {A B} (cA : A -> A -> comparison) (cB : B -> B -> comparison)
    (f : A -> B) :
  (forall x y, cB (f x) (f y) = cA x y) ->
  forall x l, sort_insert cB (f x) (map f l) = map f (sort_insert cA x l).
Proof.
  intros Hc x l. induction l as [| y l IH]; simpl; [reflexivity |].
  rewrite Hc. destruct (cA x y); simpl; try reflexivity. now rewrite IH.
Qed.

Lemma Array_sort_map {A B} (cA : A -> A -> comparison) (cB : B -> B -> comparison)
    (f : A -> B) :
  (forall x y, cB (f x) (f y) = cA x y) ->
  forall l, Array_sort cB (map f l) = map f (Array_sort cA l).
Proof.
  intros Hc l. induction l as [| x l IH]; simpl; [reflexivity |].
  rewrite IH. now apply sort_insert_map.
Qed.

(** Stability: the elements that satisfy a predicate the comparator cannot
    tell apart keep their relative order. *)
Lemma sort_insert_filter {A} (c : A -> A -> comparison) (p : A -> bool) :
  (forall x y, p x = true -> p y = true -> c x y <> Gt) ->
  forall x l, filter p (sort_insert c x l) = filter p (x :: l).
Proof.
  intros Hp x l. induction l as [| y l IH]; [reflexivity |].
  cbn [sort_insert]. destruct (c x y) eqn:E; try reflexivity.
  cbn [filter] in *. rewrite IH.
  destruct (p x) eqn:Px, (p y) eqn:Py; try reflexivity.
  exfalso. now apply (Hp x y).
Qed.

Lemma Array_sort_filter {A} (c : A -> A -> comparison) (p : A -> bool) :
  (forall x y, p x = true -> p y = true -> c x y <> Gt) ->
  forall l, filter p (Array_sort c l) = filter p l.
Proof.
  intros Hp l. induction l as [| x l IH]; [reflexivity |].
  cbn [Array_sort fold_right]. rewrite sort_insert_filter by assumption.
  cbn [filter]. fold (Array_sort c l). now rewrite IH.
Qed.

(** ** The module tree *)

Section TreeFacts.
Context {num : Type}.
Local Abbreviation node := (LayerNode num).

Lemma Forall2_map_r (R : node -> node -> Prop) (f : node -> node) l :
  Forall (fun x => R x (f x)) l -> Forall2 R l (map f l).
Proof. induction 1; simpl; constructor; assumption. Qed.

Lemma map_ext_Forall {B} (f g : node -> B) l :
  Forall (fun x => f x = g x) l -> map f l = map g l.
Proof.
  induction 1; simpl; congruence.
Qed.

(** *** collapseNumberedLayers *)

Lemma collapse_node_name (n : node) : name (collapse_node n) = name n.
Proof.
  now destruct n.
Qed.

Lemma collapse_node_eq (n : node) :
  collapse_node n = with_children n (collapseNumberedLayers (children n)).
Proof.
  now destruct n.
Qed.

Lemma filter_map_collapse (p : string -> bool) (l : list node) :
  filter (fun n => p (name n)) (map collapse_node l) =
  map collapse_node (filter (fun n => p (name n)) l).
Proof.
  induction l as [| x l IH]; simpl; [reflexivity |].
  rewrite collapse_node_name. destruct (p (name x)); simpl; now rewrite IH.
Qed.

(** The definition by recursion on the tree satisfies the equation the
    source is written as: partition, map over the others, sort the
    numbered ones and map over them. *)
Lemma collapseNumberedLayers_eq (nodes : list node) :
  collapseNumberedLayers nodes =
  map (fun n => with_children n (collapseNumberedLayers (children n)))
      (filter (fun n => negb (numberedPattern n)) nodes) ++
  map (fun n => with_children n (collapseNumberedLayers (children n)))
      (Array_sort by_index (filter numberedPattern nodes)).
Proof.
  unfold collapseNumberedLayers at 1. unfold regroup.
  unfold numberedPattern.
  rewrite (filter_map_collapse (fun s => negb (Str.is_number s))).
  rewrite (filter_map_collapse Str.is_number).
  rewrite (Array_sort_map by_index by_index collapse_node).
  - f_equal; apply map_ext; intros n; apply collapse_node_eq.
  - intros x y. unfold by_index. now rewrite !collapse_node_name.
Qed.

Lemma regroup_perm (l : list node) : Permutation l (regroup l).
Proof.
  unfold regroup. rewrite <- Array_sort_perm.
  induction l as [| x l IH]; simpl; [constructor |].
  destruct (numberedPattern x); simpl.
  - now apply Permutation_cons_app.
  - now constructor.
Qed.

Lemma collapse_node_reordered (n : node) : reordered n (collapse_node n).
Proof.
  induction n as [i nm fp t ch sel pc IH] using LayerNode_tree_ind. simpl.
  apply reordered_node with (mid := map collapse_node ch).
  - now apply Forall2_map_r.
  - apply regroup_perm.
Qed.

Lemma collapse_reordered (nodes : list node) :
  reordered_forest nodes (collapseNumberedLayers nodes).
Proof.
  exists (map collapse_node nodes). split.
  - apply Forall2_map_r, Forall_forall. intros; apply collapse_node_reordered.
  - apply regroup_perm.
Qed.

Lemma sub_sign_asym x y : Num.sub_sign x y = Gt -> Num.sub_sign y x <> Gt.
Proof.
  destruct x as [x |], y as [y |]; simpl; try discriminate.
  intros H. rewrite N.compare_antisym, H. discriminate.
Qed.

Lemma by_index_asym (a b : node) : by_index a b = Gt -> by_index b a <> Gt.
Proof. apply sub_sign_asym. Qed.

Lemma regroup_grouped (l : list node) : grouped (regroup l).
Proof.
  exists (filter (fun n => negb (numberedPattern n)) l),
         (Array_sort by_index (filter numberedPattern l)).
  split; [reflexivity |]. repeat split.
  - apply Forall_forall. intros x Hx. apply filter_In in Hx.
    now apply negb_true_iff.
  - apply Forall_forall. intros x Hx.
    apply (Permutation_in _ (Permutation_sym (Array_sort_perm by_index _))) in Hx.
    now apply filter_In in Hx.
  - apply (Array_sort_sorted by_index by_index_asym).
Qed.

Lemma Forall_regroup (P : node -> Prop) l : Forall P l -> Forall P (regroup l).
Proof.
  intros H. eapply Permutation_Forall; [apply regroup_perm | exact H].
Qed.

Lemma collapse_node_grouped (n : node) : grouped_below (collapse_node n).
Proof.
  induction n as [i nm fp t ch sel pc IH] using LayerNode_tree_ind. simpl.
  constructor; simpl.
  - apply regroup_grouped.
  - apply Forall_regroup, Forall_map. exact IH.
Qed.

(** C5 (amended). The numbered-layer collapse pass puts the siblings whose names are
    not digit strings first, in their order, then the digit-named ones
    sorted ascending by the integer [parseInt] reads (the decimal value
    of the name, exact below 2^53), and does the same in every list of
    children; it changes no identifier, path or role. Names 10, 2, 1, mlp
    come out as mlp, 1, 2, 10. *)
Theorem collapse_numbered_layers_groups_and_sorts :
  (forall nodes : list node,
      collapseNumberedLayers nodes =
      map (fun n => with_children n (collapseNumberedLayers (children n)))
          (filter (fun n => negb (numberedPattern n)) nodes ++
           Array_sort by_index (filter numberedPattern nodes)) /\
      Permutation (filter numberedPattern nodes)
                  (Array_sort by_index (filter numberedPattern nodes)) /\
      Sorted index_le (Array_sort by_index (filter numberedPattern nodes)) /\
      reordered_forest nodes (collapseNumberedLayers nodes) /\
      grouped (collapseNumberedLayers nodes) /\
      Forall grouped_below (collapseNumberedLayers nodes)) /\
  map name (collapseNumberedLayers numbered_siblings) = ["mlp"; "1"; "2"; "10"] /\
  (forall s, (Num.decimal_value 0 s < Num.two53)%N ->
             Num.parseInt s = Num.Finite (Num.decimal_value 0 s)) /\
  (forall x y, precedes Num.sub_sign (Num.Finite x) (Num.Finite y) <-> (x <= y)%N).
Proof.
  split; [| split; [reflexivity | split]].
  2: { intros s H. unfold Num.parseInt, Num.of_N.
       apply N.ltb_lt in H. now rewrite H. }
  2: { intros x y. reflexivity. }
  intros nodes. repeat split.
  - rewrite map_app. apply collapseNumberedLayers_eq.
  - apply Array_sort_perm.
  - apply (Array_sort_sorted by_index by_index_asym).
  - apply collapse_reordered.
  - apply regroup_grouped.
  - apply Forall_regroup, Forall_map, Forall_forall.
    intros; apply collapse_node_grouped.
Qed.

(** *** sortForwardPass *)

Lemma sort_node_name (n : node) : name (sort_node n) = name n.
Proof. now destruct n. Qed.

Lemma sort_node_eq (n : node) :
  sort_node n = with_children n (sortForwardPass (children n)).
Proof. now destruct n. Qed.

Lemma by_priority_sort_node (x y : node) :
  by_priority (sort_node x) (sort_node y) = by_priority x y.
Proof. unfold by_priority. now rewrite !sort_node_name. Qed.

(** The equation the source is written as: copy, sort, then map. *)
Lemma sortForwardPass_eq (nodes : list node) :
  sortForwardPass nodes =
  map (fun n => with_children n (sortForwardPass (children n)))
      (Array_sort by_priority nodes).
Proof.
  unfold sortForwardPass at 1.
  rewrite (Array_sort_map by_priority by_priority sort_node)
    by apply by_priority_sort_node.
  apply map_ext, sort_node_eq.
Qed.

Lemma by_priority_asym (a b : node) :
  by_priority a b = Gt -> by_priority b a <> Gt.
Proof.
  unfold by_priority. intros H. rewrite <- Qcompare_antisym, H. discriminate.
Qed.

Lemma sort_node_reordered (n : node) : reordered n (sort_node n).
Proof.
  induction n as [i nm fp t ch sel pc IH] using LayerNode_tree_ind. simpl.
  apply reordered_node with (mid := map sort_node ch).
  - now apply Forall2_map_r.
  - apply Array_sort_perm.
Qed.

Lemma sort_node_forward (n : node) : forward_below (sort_node n).
Proof.
  induction n as [i nm fp t ch sel pc IH] using LayerNode_tree_ind. simpl.
  constructor; simpl.
  - apply (Array_sort_sorted by_priority by_priority_asym).
  - eapply Permutation_Forall; [apply Array_sort_perm |].
    apply Forall_map. exact IH.
Qed.

Lemma sortForwardPass_forward (nodes : list node) :
  forward_ordered (sortForwardPass nodes).
Proof.
  split.
  - apply (Array_sort_sorted by_priority by_priority_asym).
  - eapply Permutation_Forall; [apply Array_sort_perm |].
    apply Forall_map, Forall_forall. intros; apply sort_node_forward.
Qed.

Lemma sort_node_fixed (n : node) : forward_below n -> sort_node n = n.
Proof.
  induction n as [i nm fp t ch sel pc IH] using LayerNode_tree_ind.
  intros H. inversion H as [? Hs Hb]; subst. simpl in *.
  assert (E : map sort_node ch = ch).
  { rewrite <- (map_id ch) at 2. apply map_ext_Forall.
    rewrite Forall_forall in *. intros x Hx. apply IH; auto. }
  rewrite E. f_equal. now apply Array_sort_sorted_id.
Qed.

Lemma sortForwardPass_fixed (nodes : list node) :
  forward_ordered nodes -> sortForwardPass nodes = nodes.
Proof.
  intros [Hs Hb]. unfold sortForwardPass.
  assert (E : map sort_node nodes = nodes).
  { rewrite <- (map_id nodes) at 2. apply map_ext_Forall.
    rewrite Forall_forall in *. intros x Hx. now apply sort_node_fixed, Hb. }
  rewrite E. now apply Array_sort_sorted_id.
Qed.

Lemma with_priority_map_sort_node q (l : list node) :
  with_priority q (map sort_node l) = map sort_node (with_priority q l).
Proof.
  unfold with_priority. induction l as [| x l IH]; simpl; [reflexivity |].
  rewrite sort_node_name.
  destruct (Qeq_bool (getForwardPassPriority (name x)) q); simpl; now rewrite IH.
Qed.

(** Ties keep their order: the nodes of one priority are not permuted. *)
Lemma sortForwardPass_stable q (nodes : list node) :
  with_priority q (sortForwardPass nodes) =
  map sort_node (with_priority q nodes).
Proof.
  unfold sortForwardPass. rewrite <- with_priority_map_sort_node.
  unfold with_priority. apply Array_sort_filter.
  intros x y Hx Hy. unfold by_priority.
  apply Qeq_bool_iff in Hx, Hy.
  assert (E : (getForwardPassPriority (name x) == getForwardPassPriority (name y))%Q)
    by (rewrite Hx, Hy; reflexivity).
  apply Qeq_alt in E. rewrite E. discriminate.
Qed.

(** Letters that differ in case only fold to the same letter. *)
Lemma lower_char_same c c' :
  same_letter c c' = true -> Str.lower_char c = Str.lower_char c'.
Proof.
  unfold same_letter, Str.lower_char, Str.is_upper. cbv zeta. intros H.
  apply orb_true_iff in H. destruct H as [H | H];
    [apply orb_true_iff in H; destruct H as [H | H] |].
  - apply Nat.eqb_eq in H.
    assert (E : c = c').
    { rewrite <- (ascii_nat_embedding c), <- (ascii_nat_embedding c').
      now rewrite H. }
    now subst c'.
  - apply andb_true_iff in H. destruct H as [H H3].
    apply andb_true_iff in H. destruct H as [H1 H2].
    apply Nat.eqb_eq in H3. rewrite H1, H2. cbn [andb].
    apply Nat.leb_le in H1, H2.
    assert (E : (nat_of_ascii c' <=? 90)%nat = false)
      by (apply Nat.leb_gt; lia).
    rewrite E, andb_false_r, <- H3. apply ascii_nat_embedding.
  - apply andb_true_iff in H. destruct H as [H H3].
    apply andb_true_iff in H. destruct H as [H1 H2].
    apply Nat.eqb_eq in H3. rewrite H1, H2. cbn [andb].
    apply Nat.leb_le in H1, H2.
    assert (E : (nat_of_ascii c <=? 90)%nat = false)
      by (apply Nat.leb_gt; lia).
    rewrite E, andb_false_r, <- H3. symmetry. apply ascii_nat_embedding.
Qed.

Lemma toLowerCase_same a :
  forall b, same_up_to_case a b = true -> Str.toLowerCase a = Str.toLowerCase b.
Proof.
  induction a as [| c a IH]; intros [| c' b] H; cbn [same_up_to_case] in H;
    try discriminate; [reflexivity |].
  apply andb_true_iff in H. destruct H as [Hc Hs].
  cbn [Str.toLowerCase]. now rewrite (lower_char_same c c' Hc), (IH b Hs).
Qed.

(** C6. [sortForwardPass] permutes sibling lists only (same nodes, shapes,
    roles and counts) and leaves every sibling list, at every depth,
    sorted by the forward-pass priority of the nodes' names; the children
    mlp, self_attn, input_layernorm, post_attention_layernorm come out as
    input_layernorm, self_attn, post_attention_layernorm, mlp. The
    priority does not see the case of the letters: names that differ in
    case only have the same priority, and the children MLP, Self_Attn,
    Input_LayerNorm, Post_Attention_LayerNorm come out in the same
    order as their lower-case forms. *)
Theorem sortForwardPass_reorders_by_priority :
  (forall nodes : list node,
      sortForwardPass nodes =
      map (fun n => with_children n (sortForwardPass (children n)))
          (Array_sort by_priority nodes) /\
      reordered_forest nodes (sortForwardPass nodes) /\
      forward_ordered (sortForwardPass nodes)) /\
  map (fun n => (name n, map name (children n)))
      (sortForwardPass [container "0" "model.layers.0" layer_children]) =
  [("0", ["input_layernorm"; "self_attn"; "post_attention_layernorm"; "mlp"])] /\
  (forall s : string,
      getForwardPassPriority (Str.toLowerCase s) = getForwardPassPriority s) /\
  (forall a b : string,
      same_up_to_case a b = true ->
      getForwardPassPriority a = getForwardPassPriority b) /\
  map (fun n => (name n, map name (children n)))
      (sortForwardPass [container "0" "model.layers.0" mixed_case_children]) =
  [("0", ["Input_LayerNorm"; "Self_Attn"; "Post_Attention_LayerNorm"; "MLP"])] /\
  map getForwardPassPriority ["MLP"; "Self_Attn"; "LM_Head"; "Embed_Tokens"] =
  [(53 # 10)%Q; (51 # 10)%Q; 7%Q; 0%Q].
Proof.
  split; [| split; [| split; [| split; [| split]]]].
  - intros nodes. repeat split.
    + apply sortForwardPass_eq.
    + exists (map sort_node nodes). split.
      * apply Forall2_map_r, Forall_forall. intros; apply sort_node_reordered.
      * apply Array_sort_perm.
    + apply sortForwardPass_forward.
    + apply sortForwardPass_forward.
  - reflexivity.
  - intros s. unfold getForwardPassPriority.
    now rewrite toLowerCase_idem.
  - intros a b H. unfold getForwardPassPriority.
    now rewrite (toLowerCase_same a b H).
  - reflexivity.
  - reflexivity.
Qed.

(** C8. [sortForwardPass] is idempotent: a forest whose sibling lists are
    all in forward-pass order is returned as it is, nodes of equal
    priority keep their relative order, and sorting twice is sorting
    once. *)
Theorem sortForwardPass_idempotent :
  (forall nodes : list node,
      sortForwardPass (sortForwardPass nodes) = sortForwardPass nodes) /\
  (forall nodes : list node,
      forward_ordered nodes -> sortForwardPass nodes = nodes) /\
  (forall (q : Q) (nodes : list node),
      with_priority q (sortForwardPass nodes) =
      map (fun n => with_children n (sortForwardPass (children n)))
          (with_priority q nodes)).
Proof.
  split; [| split].
  - intros nodes. apply sortForwardPass_fixed, sortForwardPass_forward.
  - apply sortForwardPass_fixed.
  - intros q nodes. rewrite sortForwardPass_stable.
    apply map_ext, sort_node_eq.
Qed.

(** *** attachParamCounts *)

Section Attach.
Variable add : num -> num -> num.
Variable zero : num.

Lemma JsMap_get_set {V} (m : list (string * V)) k v k' :
  JsMap.get (JsMap.set m k v) k' =
  if String.eqb k k' then Some v else JsMap.get m k'.
Proof.
  induction m as [| [k0 v0] m IH]; simpl.
  - reflexivity.
  - destruct (String.eqb k0 k) eqn:E; simpl.
    + apply String.eqb_eq in E. subst k0.
      now destruct (String.eqb k k').
    + rewrite IH. destruct (String.eqb k0 k') eqn:E'; [| reflexivity].
      apply String.eqb_eq in E'. subst k0. now rewrite String.eqb_sym, E.
Qed.

Lemma moduleParams_get_from acc tensorParamCounts modulePath :
  nullish
    (JsMap.get
       (fold_left
          (fun m entry =>
             let '(tensorName, count) := entry in
             let mp := stripWeightSuffix tensorName in
             JsMap.set m mp (add (nullish (JsMap.get m mp) zero) count))
          tensorParamCounts acc) modulePath) zero =
  fold_left add (tensors_of modulePath tensorParamCounts)
            (nullish (JsMap.get acc modulePath) zero).
Proof.
  revert acc. induction tensorParamCounts as [| [tn c] l IH]; intros acc.
  - reflexivity.
  - cbn [fold_left]. rewrite IH. unfold tensors_of. cbn [filter fst].
    rewrite JsMap_get_set.
    destruct (String.eqb (stripWeightSuffix tn) modulePath) eqn:E.
    + apply String.eqb_eq in E. subst modulePath. reflexivity.
    + reflexivity.
Qed.

Lemma moduleParams_get tensorParamCounts modulePath :
  nullish (JsMap.get (moduleParams add zero tensorParamCounts) modulePath) zero =
  fold_left add (tensors_of modulePath tensorParamCounts) zero.
Proof. unfold moduleParams. now rewrite moduleParams_get_from. Qed.

Lemma attach_node_counted mp (n : node) :
  counted add zero mp (attach_node add zero mp n).
Proof.
  induction n as [i nm fp t ch sel pc IH] using LayerNode_tree_ind.
  destruct ch as [| c ch].
  - now apply counted_leaf.
  - apply counted_inner.
    + discriminate.
    + cbn [attach_node children]. apply Forall_map. exact IH.
    + reflexivity.
Qed.

Lemma attach_node_forget mp (n : node) :
  forget_counts (attach_node add zero mp n) = forget_counts n.
Proof.
  induction n as [i nm fp t ch sel pc IH] using LayerNode_tree_ind.
  destruct ch as [| c ch]; [reflexivity |].
  cbn [attach_node forget_counts]. f_equal.
  rewrite map_map. now apply map_ext_Forall.
Qed.
End Attach.
End TreeFacts.

(** C7. [attachParamCounts] sums the tensor counts per module path (the
    tensor name without its weight suffix); in its result every leaf has
    its module's total, 0 when the module has no tensor, and every other
    node the sum of its children's counts; the result is the input tree
    with counts added and nothing else changed. A container over leaves
    of 100 and 250 reports 350. *)
Theorem attachParamCounts_sums_bottom_up :
  (forall (num : Type) (add : num -> num -> num) (zero : num)
          (nodes : list (LayerNode num)) (tensorParamCounts : list (string * num)),
      let mp := moduleParams add zero tensorParamCounts in
      (forall modulePath,
          nullish (JsMap.get mp modulePath) zero =
          fold_left add (tensors_of modulePath tensorParamCounts) zero) /\
      Forall (counted add zero mp)
             (attachParamCounts add zero nodes tensorParamCounts) /\
      map forget_counts (attachParamCounts add zero nodes tensorParamCounts) =
      map forget_counts nodes) /\
  map (fun n => (name n, paramCount n, map (fun c => (name c, paramCount c)) (children n)))
      (attachParamCounts N.add 0%N counted_example counted_example_counts) =
  [ ("mlp", Some 350%N, [("up_proj", Some 100%N); ("down_proj", Some 250%N)]);
    ("lm_head", Some 0%N, []) ].
Proof.
  split; [| reflexivity].
  intros num add zero nodes tpc mp. repeat split.
  - apply moduleParams_get.
  - unfold attachParamCounts, attach. apply Forall_map, Forall_forall.
    intros; apply attach_node_counted.
  - unfold attachParamCounts, attach. rewrite map_map.
    apply map_ext. intros; apply attach_node_forget.
Qed.

(** The order is not that of the integer values of the names: two indices
    past 53 bits that [parseInt] rounds to the same number stay as they
    were, the larger integer first. *)
Lemma collapse_keeps_large_indices_unsorted :
  map name (collapseNumberedLayers large_index_siblings) =
  ["9007199254740993"; "9007199254740992"] /\
  (Num.decimal_value 0 "9007199254740992" <
   Num.decimal_value 0 "9007199254740993")%N /\
  Num.parseInt "9007199254740993" = Num.parseInt "9007199254740992".
Proof. repeat split. Qed.

Lemma collapse_numbered_layers_groups_and_sorts_witness :
  (Num.decimal_value 0 "0031" < Num.two53)%N /\
  Num.parseInt "0031" = Num.Finite 31.
Proof.
  split; [reflexivity |].
  exact (proj1 (proj2 (proj2 (@collapse_numbered_layers_groups_and_sorts N)))
           "0031" eq_refl).
Defined.

Lemma sortForwardPass_idempotent_witness :
  forward_ordered ordered_example /\
  sortForwardPass ordered_example = ordered_example.
Proof.
  assert (H : forward_ordered ordered_example).
  { split.
    - repeat constructor; discriminate.
    - repeat (constructor; simpl); discriminate. }
  split; [exact H |].
  exact (proj1 (proj2 sortForwardPass_idempotent) ordered_example H).
Defined.

(** ** The selection optimizer on the documented scenarios *)

Lemma five_paths_has_regex_rules :
  ~ (forall rule,
        In rule (optimized (optimizeSelection five_paths five_paths)) ->
        In rule five_paths /\ Str.startsWith rule "re:" = false).
Proof.
  intros H.
  destruct (H "re:model\.layers\.\d+\.mlp\.down_proj") as [_ E].
  - vm_compute. tauto.
  - discriminate E.
Qed.

(** C2 (amended). With the five paths all selected, the three paths
    without a layer index come out first as literals, and each of the two
    layer-0 paths, being every instance of its template in the universe,
    comes out as the index-wildcard rule of its template. *)
Theorem five_paths_optimized :
  optimizeSelection five_paths five_paths =
  mkSelection five_paths
    [ "model.embed_tokens"; "model.norm"; "lm_head";
      "re:model\.layers\.\d+\.self_attn\.q_proj";
      "re:model\.layers\.\d+\.mlp\.down_proj" ] /\
  map toTemplate five_paths =
  [ None;
    Some ("model.layers.{{INDEX}}.self_attn.q_proj", Num.Finite 0);
    Some ("model.layers.{{INDEX}}.mlp.down_proj", Num.Finite 0);
    None; None ].
Proof. split; reflexivity. Qed.

(** C3. On the universe of the 32 paths [model.layers.i.mlp.down_proj]:
    all 32 selected give the single wildcard rule; indices 0, 1, 2 give
    three literals; indices 0, 5, 10, 15, 20 give one alternation rule in
    ascending order whatever the order of selection, and a contiguous
    run of indices gives the same alternation form. *)
Theorem template_compression_scenarios :
  optimized (optimizeSelection down_proj_universe down_proj_universe) =
  [ "re:model\.layers\.\d+\.mlp\.down_proj" ] /\
  optimized (optimizeSelection (map down_proj [0; 1; 2]) down_proj_universe) =
  [ "model.layers.0.mlp.down_proj"; "model.layers.1.mlp.down_proj";
    "model.layers.2.mlp.down_proj" ] /\
  optimized (optimizeSelection (map down_proj [0; 5; 10; 15; 20])
                               down_proj_universe) =
  [ "re:model\.layers\.(0|5|10|15|20)\.mlp\.down_proj" ] /\
  optimized (optimizeSelection (map down_proj [20; 5; 15; 0; 10])
                               down_proj_universe) =
  [ "re:model\.layers\.(0|5|10|15|20)\.mlp\.down_proj" ] /\
  optimized (optimizeSelection (map down_proj [4; 5; 6; 7; 8])
                               down_proj_universe) =
  [ "re:model\.layers\.(4|5|6|7|8)\.mlp\.down_proj" ] /\
  (forall counts entry,
      let indices := Array_sort by_value (indices (snd entry)) in
      (List.length indices =? nullish (JsMap.get counts (fst entry)) 0)%nat = false ->
      (List.length indices <=? 3)%nat = false ->
      emit_group counts entry =
      [ "re:" +++ escapeRegex (prefix (snd entry)) +++ "(" +++
        join "|" (map Num.toString indices) +++ ")" +++
        escapeRegex (suffix (snd entry)) ]).
Proof.
  repeat split; try reflexivity.
  intros counts [k g] idx H1 H2. subst idx. cbn [fst snd] in *.
  unfold emit_group. rewrite H1, H2.
  now destruct (every_contiguous None _ && _).
Qed.

Lemma template_compression_scenarios_witness :
  let entry := ("a.{{INDEX}}.b",
                mkTemplateGroup "a.{{INDEX}}.b" "a." ".b"
                  [Num.Finite 9; Num.Finite 2; Num.Finite 7; Num.Finite 4]) in
  let counts := [("a.{{INDEX}}.b", 12)] in
  emit_group counts entry = [ "re:a\.(2|4|7|9)\.b" ].
Proof.
  intros entry counts.
  exact (proj2 (proj2 (proj2 (proj2 (proj2 template_compression_scenarios))))
           counts entry eq_refl eq_refl).
Defined.

(** ** Strings: concatenation *)

Lemma sapp_nil_r s : s +++ EmptyString = s.
Proof. induction s; simpl; congruence. Qed.

Lemma sapp_assoc a b c : (a +++ b) +++ c = a +++ b +++ c.
Proof. induction a; simpl; congruence. Qed.

Lemma sapp_inv_head a b c : a +++ b = a +++ c -> b = c.
Proof.
  induction a; simpl; intros H; [assumption | injection H; auto].
Qed.

Lemma has_char_app c a b : has_char c (a +++ b) = has_char c a || has_char c b.
Proof.
  induction a as [| x a IH]; simpl; [reflexivity |].
  now rewrite IH, orb_assoc.
Qed.

(** ** The bracketed span *)

Lemma until_close_found inner post :
  has_char "]" inner = false ->
  until_close (inner +++ "]" +++ post) = Some inner.
Proof.
  induction inner as [| x inner IH]; intros H.
  - reflexivity.
  - cbn [has_char] in H. apply orb_false_iff in H. destruct H as [Hx Hi].
    rewrite Ascii.eqb_sym in Hx. cbn [append until_close] in *.
    rewrite Hx, IH; auto.
Qed.

Lemma until_close_some b c : until_close (b +++ "]" +++ c) <> None.
Proof.
  induction b as [| x b IH]; cbn [append until_close] in *.
  - discriminate.
  - destruct (Ascii.eqb x "]"); [discriminate |].
    destruct (until_close _); [discriminate | contradiction].
Qed.

Lemma until_close_inv s inner :
  until_close s = Some inner ->
  exists post, s = inner +++ "]" +++ post /\ has_char "]" inner = false.
Proof.
  revert inner. induction s as [| x s IH]; cbn [until_close]; intros inner H.
  - discriminate.
  - destruct (Ascii.eqb x "]") eqn:E.
    + apply Ascii.eqb_eq in E. subst x. injection H as <-.
      exists s. split; reflexivity.
    + destruct (until_close s) as [i |] eqn:U; [| discriminate].
      injection H as <-. destruct (IH i eq_refl) as [post [-> Hn]].
      exists post. split; [reflexivity |]. cbn [has_char].
      now rewrite Ascii.eqb_sym, E, Hn.
Qed.

Lemma bracketMatch_found pre inner post :
  has_char "[" pre = false -> has_char "]" inner = false ->
  bracketMatch (pre +++ "[" +++ inner +++ "]" +++ post) = Some inner.
Proof.
  intros Hpre Hin. induction pre as [| x pre IH].
  - pose proof (until_close_found inner post Hin) as E.
    cbn [append bracketMatch] in *. now rewrite Ascii.eqb_refl, E.
  - cbn [has_char] in Hpre. apply orb_false_iff in Hpre.
    destruct Hpre as [Hx Hp].
    rewrite Ascii.eqb_sym in Hx. cbn [append bracketMatch] in *.
    rewrite Hx. now apply IH.
Qed.

Lemma bracketMatch_some a b c :
  bracketMatch (a +++ "[" +++ b +++ "]" +++ c) <> None.
Proof.
  induction a as [| x a IH].
  - pose proof (until_close_some b c) as E.
    cbn [append bracketMatch] in *. rewrite Ascii.eqb_refl.
    destruct (until_close _); [discriminate | contradiction].
  - cbn [append bracketMatch] in *.
    destruct (if Ascii.eqb x "[" then _ else None); [discriminate | exact IH].
Qed.

Lemma bracketMatch_inv text inner :
  bracketMatch text = Some inner ->
  exists a c, text = a +++ "[" +++ inner +++ "]" +++ c.
Proof.
  induction text as [| x text IH]; cbn [bracketMatch]; [discriminate |].
  destruct (Ascii.eqb x "[") eqn:E.
  - destruct (until_close text) as [i |] eqn:U.
    + intros H; injection H as <-. apply Ascii.eqb_eq in E. subst x.
      destruct (until_close_inv _ _ U) as [post [-> _]].
      exists EmptyString, post. reflexivity.
    + intros H. destruct (IH H) as [a [c ->]].
      exists (String x a), c. reflexivity.
  - intros H. destruct (IH H) as [a [c ->]].
    exists (String x a), c. reflexivity.
Qed.

Lemma bracketMatch_none_iff text :
  bracketMatch text = None <-> no_bracketed_span text.
Proof.
  split.
  - intros H a b c ->. now apply bracketMatch_some in H.
  - intros H. destruct (bracketMatch text) as [inner |] eqn:E; [| reflexivity].
    destruct (bracketMatch_inv _ _ E) as [a [c ->]]. now elim (H a inner c).
Qed.

(** C10. A text without a bracketed span resolves to the empty list, for
    every universe; otherwise only the quoted strings between the first
    opening bracket and the first closing bracket after it are resolved,
    so the text before and after that span contributes nothing. *)
Theorem parseIgnoreItems_reads_first_span_only :
  (forall text allSelectablePaths,
      no_bracketed_span text ->
      parseIgnoreItems text allSelectablePaths = Some []) /\
  (forall pre inner post allSelectablePaths,
      has_char "[" pre = false -> has_char "]" inner = false ->
      parseIgnoreItems (pre +++ "[" +++ inner +++ "]" +++ post)
                       allSelectablePaths =
      resolve_items allSelectablePaths [] (quoted_items None inner)).
Proof.
  split.
  - intros text U H. unfold parseIgnoreItems.
    apply bracketMatch_none_iff in H. now rewrite H.
  - intros pre inner post U Hpre Hin. unfold parseIgnoreItems.
    now rewrite bracketMatch_found.
Qed.

Lemma parseIgnoreItems_reads_first_span_only_witness :
  (no_bracketed_span "] 'lm_head', 'model.norm' [" /\
   parseIgnoreItems "] 'lm_head', 'model.norm' [" five_paths = Some []) /\
  parseIgnoreItems ("'model.norm' ignore=" +++ "[" +++ " 'lm_head', 'absent' " +++
                    "]" +++ " 'model.embed_tokens' ['model.norm']") five_paths =
  Some ["lm_head"].
Proof.
  assert (H : no_bracketed_span "] 'lm_head', 'model.norm' [")
    by (apply bracketMatch_none_iff; reflexivity).
  split; [split; [exact H |] |].
  - exact (proj1 parseIgnoreItems_reads_first_span_only _ five_paths H).
  - exact (proj2 parseIgnoreItems_reads_first_span_only
             "'model.norm' ignore=" " 'lm_head', 'absent' "
             " 'model.embed_tokens' ['model.norm']" five_paths eq_refl eq_refl).
Defined.

(** ** The pattern parser on emitted rules *)

Lemma strip_prefix_app p t : strip_prefix p (p +++ t) = Some t.
Proof.
  induction p as [| c p IH]; cbn [append strip_prefix]; [reflexivity |].
  now rewrite Ascii.eqb_refl.
Qed.

Lemma strip_prefix_inv p t t' : strip_prefix p t = Some t' -> t = p +++ t'.
Proof.
  revert t. induction p as [| c p IH]; intros t H.
  - cbn in H. now injection H as ->.
  - destruct t as [| b t]; cbn [strip_prefix] in H; [discriminate |].
    destruct (Ascii.eqb c b) eqn:E; [| discriminate].
    apply Ascii.eqb_eq in E. subst b. cbn [append]. f_equal. now apply IH.
Qed.

Lemma parse_plain c s cur stack :
  is_special c = false ->
  RegExp.parse (String c s) cur stack =
  RegExp.parse s (RegExp.add_term cur (RegExp.Chr c) RegExp.Atom) stack.
Proof.
  destruct c as [[] [] [] [] [] [] [] []]; intros H;
    solve [discriminate H | reflexivity].
Qed.

Lemma parse_escaped c s cur stack :
  is_special c = true ->
  RegExp.parse (String "\" (String c s)) cur stack =
  RegExp.parse s (RegExp.add_term cur (RegExp.Chr c) RegExp.Atom) stack.
Proof.
  destruct c as [[] [] [] [] [] [] [] []]; intros H;
    solve [discriminate H | reflexivity].
Qed.

Lemma parse_escapeRegex s rest cur stack :
  RegExp.parse (escapeRegex s +++ rest) cur stack =
  RegExp.parse rest (push_lits s cur) stack.
Proof.
  revert cur. induction s as [| c s IH]; intros cur; [reflexivity |].
  cbn [escapeRegex push_lits]. destruct (is_special c) eqn:E; cbn [append].
  - now rewrite parse_escaped, IH.
  - now rewrite parse_plain, IH.
Qed.

Lemma digit_not_special c : Str.is_digit c = true -> is_special c = false.
Proof.
  destruct c as [[] [] [] [] [] [] [] []]; intros H;
    solve [discriminate H | reflexivity].
Qed.

Lemma escapeRegex_digits d : Str.all_digits d = true -> escapeRegex d = d.
Proof.
  induction d as [| c d IH]; cbn [Str.all_digits escapeRegex]; [reflexivity |].
  intros H. apply andb_true_iff in H. destruct H as [Hc Hd].
  now rewrite (digit_not_special c Hc), IH.
Qed.

Lemma parse_digits d rest cur stack :
  Str.all_digits d = true ->
  RegExp.parse (d +++ rest) cur stack =
  RegExp.parse rest (push_lits d cur) stack.
Proof.
  intros H. rewrite <- (escapeRegex_digits d H) at 1. apply parse_escapeRegex.
Qed.

Lemma alts_push_lits s cur : RegExp.alts (push_lits s cur) = RegExp.alts cur.
Proof.
  revert cur. induction s as [| c s IH]; intros cur; [reflexivity |].
  cbn [push_lits]. now rewrite IH.
Qed.

Lemma build_push_lits s cur acc :
  build (RegExp.terms (push_lits s cur)) acc =
  build (RegExp.terms cur) (lits s acc).
Proof.
  revert cur. induction s as [| c s IH]; intros cur; [reflexivity |].
  cbn [push_lits]. now rewrite IH.
Qed.

Lemma close_push_lits s cur :
  RegExp.close (push_lits s cur) =
  fold_left (fun acc a => RegExp.Alt a acc) (RegExp.alts cur)
            (build (RegExp.terms cur) (lits s RegExp.Empty)).
Proof.
  unfold RegExp.close, RegExp.seq_of.
  now rewrite alts_push_lits, <- build_push_lits.
Qed.

(** The wildcard rule compiles, to the expected pattern. *)
Lemma compile_wildcard pre suf :
  RegExp.compile (escapeRegex pre +++ "\d+" +++ escapeRegex suf) =
  RegExp.Pattern (wildcard_regex pre suf).
Proof.
  unfold RegExp.compile. rewrite parse_escapeRegex.
  rewrite <- (sapp_nil_r (escapeRegex suf)).
  change ("\d+" +++ escapeRegex suf +++ EmptyString)
    with (String "\" (String "d" (String "+" (escapeRegex suf +++ EmptyString)))).
  cbn [RegExp.parse Ascii.eqb Bool.eqb RegExp.is_quantifier orb is_special
       existsb regex_special RegExp.add_term RegExp.terms RegExp.alts
       RegExp.quantify].
  rewrite parse_escapeRegex. cbn [RegExp.parse].
  rewrite close_push_lits. cbn [RegExp.alts RegExp.terms fold_left build fst].
  rewrite alts_push_lits. cbn [RegExp.empty_frame RegExp.alts fold_left].
  change (fold_left (fun acc t => RegExp.Seq (fst t) acc)
            (RegExp.terms (push_lits pre RegExp.empty_frame))
            (RegExp.Seq (RegExp.Seq RegExp.Digit (RegExp.Star RegExp.Digit))
               (lits suf RegExp.Empty)))
    with (build (RegExp.terms (push_lits pre RegExp.empty_frame))
            (RegExp.Seq one_or_more_digits (lits suf RegExp.Empty))).
  now rewrite build_push_lits.
Qed.

Lemma parse_alternatives d ds rest alts parent stack :
  Forall (fun d => Str.all_digits d = true) (d :: ds) ->
  RegExp.parse (join "|" (d :: ds) +++ ")" +++ rest)
               (RegExp.mkFrame alts []) (parent :: stack) =
  RegExp.parse rest
    (RegExp.add_term parent
       (fold_left (fun acc a => RegExp.Alt a acc) alts (alternatives (d :: ds)))
       RegExp.Atom)
    stack.
Proof.
  revert d alts. induction ds as [| d2 ds IH]; intros d alts H.
  - inversion H as [| ? ? Hd _]; subst. cbn [join].
    rewrite parse_digits by assumption.
    change (")" +++ rest) with (String ")" rest). cbn [RegExp.parse Ascii.eqb Bool.eqb].
    now rewrite close_push_lits.
  - inversion H as [| ? ? Hd Hds]; subst.
    change (join "|" (d :: d2 :: ds)) with (d +++ "|" +++ join "|" (d2 :: ds)).
    rewrite !sapp_assoc. rewrite parse_digits by assumption.
    change ("|" +++ join "|" (d2 :: ds) +++ ")" +++ rest)
      with (String "|" (join "|" (d2 :: ds) +++ ")" +++ rest)).
    cbn [RegExp.parse Ascii.eqb Bool.eqb].
    unfold RegExp.seq_of. fold (build (RegExp.terms (push_lits d (RegExp.mkFrame alts []))) RegExp.Empty).
    rewrite build_push_lits, alts_push_lits. cbn [RegExp.terms RegExp.alts build fold_left].
    rewrite IH by assumption. reflexivity.
Qed.

(** The alternation rule compiles, to the expected pattern. *)
Lemma compile_alternation pre ds suf :
  ds <> [] -> Forall (fun d => Str.is_number d = true) ds ->
  RegExp.compile (escapeRegex pre +++ "(" +++ join "|" ds +++ ")" +++ escapeRegex suf) =
  RegExp.Pattern (alternation_regex pre ds suf).
Proof.
  intros Hne Hds. destruct ds as [| d ds]; [contradiction |].
  assert (Hdig : Forall (fun d => Str.all_digits d = true) (d :: ds)).
  { eapply Forall_impl; [| exact Hds]. intros [| c x]; [discriminate | auto]. }
  unfold RegExp.compile. rewrite parse_escapeRegex.
  assert (Hopen : forall tl cur stack,
             RegExp.parse (String "(" (join "|" (d :: ds) +++ tl)) cur stack =
             RegExp.parse (join "|" (d :: ds) +++ tl) RegExp.empty_frame (cur :: stack)).
  { intros tl cur stack. inversion Hds as [| ? ? Hd _]; subst.
    destruct d as [| c d]; [discriminate |].
    assert (Hc : Str.is_digit c = true)
      by (cbn [Str.is_number Str.all_digits] in Hd; now apply andb_true_iff in Hd).
    assert (E : exists tl', join "|" (String c d :: ds) +++ tl = String c tl').
    { destruct ds; cbn [join append]; eauto. }
    destruct E as [tl' ->]. cbn [RegExp.parse Ascii.eqb Bool.eqb].
    destruct c as [[] [] [] [] [] [] [] []]; solve [discriminate Hc | reflexivity]. }
  change ("(" +++ join "|" (d :: ds) +++ ")" +++ escapeRegex suf)
    with (String "(" (join "|" (d :: ds) +++ ")" +++ escapeRegex suf)).
  rewrite Hopen. unfold RegExp.empty_frame at 1.
  rewrite parse_alternatives by assumption.
  rewrite <- (sapp_nil_r (escapeRegex suf)), parse_escapeRegex.
  cbn [RegExp.parse fold_left]. rewrite close_push_lits.
  cbn [RegExp.add_term RegExp.alts RegExp.terms build fold_left fst].
  rewrite alts_push_lits. cbn [RegExp.empty_frame RegExp.alts fold_left].
  fold (build (RegExp.terms (push_lits pre RegExp.empty_frame))
          (RegExp.Seq (alternatives (d :: ds)) (lits suf RegExp.Empty))).
  now rewrite build_push_lits.
Qed.

(** ** The matcher on emitted rules *)

Lemma run_lits s tail k st t :
  RegExp.run (lits s tail) k st t =
  match strip_prefix s t with
  | Some t' => RegExp.run tail k (after s st) t'
  | None => false
  end.
Proof.
  revert st t. induction s as [| c s IH]; intros st t; [reflexivity |].
  cbn [lits RegExp.run strip_prefix after].
  destruct t as [| b t]; [reflexivity |].
  destruct (Ascii.eqb c b); [| reflexivity].
  cbn [andb]. rewrite IH. now destruct s.
Qed.

Lemma star_loop_digits k fuel :
  forall st t, String.length t <= fuel ->
    (star_loop RegExp.Digit k fuel st t = true <->
     exists d t', t = d +++ t' /\ Str.all_digits d = true /\
                  k (after d st) t' = true).
Proof.
  induction fuel as [| fuel IH]; intros st t Hlen.
  - destruct t as [| c t]; [| cbn in Hlen; lia].
    cbn [star_loop]. split.
    + intros H. exists EmptyString, EmptyString. auto.
    + intros [d [t' [E [_ H]]]]. destruct d; [| discriminate].
      cbn in E. now subst t'.
  - cbn [star_loop RegExp.run]. destruct t as [| c t].
    + cbn [orb]. split.
      * intros H. exists EmptyString, EmptyString. auto.
      * intros [d [t' [E [_ H]]]]. destruct d; [| discriminate].
        cbn in E. now subst t'.
    + assert (Hlt : (String.length t <? String.length (String c t))%nat = true)
        by (apply Nat.ltb_lt; cbn; lia).
      rewrite Hlt. cbn [andb]. cbn in Hlen.
      specialize (IH false t ltac:(lia)).
      rewrite orb_true_iff, andb_true_iff, IH. split.
      * intros [[Hc [d [t' [-> [Hd Hk]]]]] | Hk].
        -- exists (String c d), t'. cbn [append Str.all_digits after].
           rewrite Hc, Hd. repeat split. now destruct d.
        -- exists EmptyString, (String c t). auto.
      * intros [d [t' [E [Hd Hk]]]]. destruct d as [| c' d].
        -- right. cbn in E. now subst t'.
        -- left. cbn [append] in E. injection E as <- ->.
           cbn [Str.all_digits] in Hd. apply andb_true_iff in Hd.
           destruct Hd as [Hc Hd]. split; [assumption |].
           exists d, t'. repeat split; auto. now destruct d.
Qed.

Lemma run_one_or_more_digits k st t :
  RegExp.run one_or_more_digits k st t = true <->
  exists d t', t = d +++ t' /\ Str.is_number d = true /\ k false t' = true.
Proof.
  unfold one_or_more_digits. cbn [RegExp.run]. destruct t as [| c t].
  - split; [discriminate |].
    intros [d [t' [E [Hd _]]]]. destruct d; discriminate.
  - fold (star_loop RegExp.Digit k (String.length t) false t).
    rewrite andb_true_iff, (star_loop_digits k _ false t (le_n _)). split.
    + intros [Hc [d [t' [-> [Hd Hk]]]]].
      exists (String c d), t'. cbn [append Str.is_number Str.all_digits].
      rewrite Hc, Hd. repeat split. now destruct d.
    + intros [d [t' [E [Hd Hk]]]]. destruct d as [| c' d]; [discriminate |].
      cbn [append] in E. injection E as <- ->.
      cbn [Str.is_number Str.all_digits] in Hd. apply andb_true_iff in Hd.
      destruct Hd as [Hc Hd]. split; [assumption |].
      exists d, t'. repeat split; auto. now destruct d.
Qed.

Lemma run_alternatives ds k st t :
  ds <> [] ->
  RegExp.run (alternatives ds) k st t =
  existsb (fun d => match strip_prefix d t with
                    | Some t' => k (after d st) t'
                    | None => false
                    end) ds.
Proof.
  intros Hne. induction ds as [| d ds IH]; [contradiction |].
  destruct ds as [| d2 ds].
  - cbn [alternatives existsb]. rewrite run_lits, orb_false_r. reflexivity.
  - change (alternatives (d :: d2 :: ds))
      with (RegExp.Alt (lits d RegExp.Empty) (alternatives (d2 :: ds))).
    cbn [RegExp.run]. rewrite run_lits, IH by discriminate. reflexivity.
Qed.

(** [test] looks for a match at every index. *)
Lemma test_from_spec r st q :
  RegExp.test_from r st q = true <->
  exists x t, q = x +++ t /\
              RegExp.run r (fun _ _ => true) (after x st) t = true.
Proof.
  revert st. induction q as [| c q IH]; intros st; cbn [RegExp.test_from].
  - rewrite orb_false_r. split.
    + intros H. exists EmptyString, EmptyString. auto.
    + intros [x [t [E H]]]. destruct x; [| discriminate].
      cbn in E. now subst t.
  - rewrite orb_true_iff, IH. split.
    + intros [H | [x [t [-> H]]]].
      * exists EmptyString, (String c q). auto.
      * exists (String c x), t. split; [reflexivity |].
        cbn [after]. now destruct x.
    + intros [x [t [E H]]]. destruct x as [| c' x].
      * left. cbn in E. now subst t.
      * right. cbn [append] in E. injection E as <- ->.
        exists x, t. split; [reflexivity |]. cbn [after] in H. now destruct x.
Qed.

(** The wildcard rule is not anchored: it matches a path exactly when
    the path contains the prefix, one or more digits and the suffix. *)
Lemma test_wildcard pre suf q :
  RegExp.test (wildcard_regex pre suf) q = true <->
  exists x d y, q = x +++ pre +++ d +++ suf +++ y /\ Str.is_number d = true.
Proof.
  unfold RegExp.test, wildcard_regex. rewrite test_from_spec. split.
  - intros [x [t [-> H]]]. rewrite run_lits in H.
    destruct (strip_prefix pre t) as [t1 |] eqn:E1; [| discriminate].
    apply strip_prefix_inv in E1. subst t. cbn [RegExp.run] in H.
    apply run_one_or_more_digits in H. destruct H as [d [t2 [-> [Hd H]]]].
    rewrite run_lits in H.
    destruct (strip_prefix suf t2) as [y |] eqn:E2; [| discriminate].
    apply strip_prefix_inv in E2. subst t2. now exists x, d, y.
  - intros [x [d [y [-> Hd]]]]. exists x, (pre +++ d +++ suf +++ y).
    split; [reflexivity |]. rewrite run_lits, strip_prefix_app.
    cbn [RegExp.run]. apply run_one_or_more_digits.
    exists d, (suf +++ y). repeat split; [assumption |].
    now rewrite run_lits, strip_prefix_app.
Qed.

Lemma test_alternation pre ds suf q :
  ds <> [] ->
  (RegExp.test (alternation_regex pre ds suf) q = true <->
   exists x d y, In d ds /\ q = x +++ pre +++ d +++ suf +++ y).
Proof.
  intros Hne. unfold RegExp.test, alternation_regex. rewrite test_from_spec.
  split.
  - intros [x [t [-> H]]]. rewrite run_lits in H.
    destruct (strip_prefix pre t) as [t1 |] eqn:E1; [| discriminate].
    apply strip_prefix_inv in E1. subst t. cbn [RegExp.run] in H.
    rewrite run_alternatives in H by assumption.
    apply existsb_exists in H. destruct H as [d [Hd H]].
    destruct (strip_prefix d t1) as [t2 |] eqn:E2; [| discriminate].
    apply strip_prefix_inv in E2. subst t1. rewrite run_lits in H.
    destruct (strip_prefix suf t2) as [y |] eqn:E3; [| discriminate].
    apply strip_prefix_inv in E3. subst t2. now exists x, d, y.
  - intros [x [d [y [Hd ->]]]]. exists x, (pre +++ d +++ suf +++ y).
    split; [reflexivity |]. rewrite run_lits, strip_prefix_app.
    cbn [RegExp.run]. rewrite run_alternatives by assumption.
    apply existsb_exists. exists d. split; [assumption |].
    now rewrite strip_prefix_app, run_lits, strip_prefix_app.
Qed.

(** ** Emitting and re-reading the list *)

Lemma no_forbidden_app a b :
  no_forbidden (a +++ b) = no_forbidden a && no_forbidden b.
Proof.
  induction a as [| c a IH]; cbn [append no_forbidden]; [reflexivity |].
  now rewrite IH, andb_assoc.
Qed.

Lemma no_forbidden_no_close s : no_forbidden s = true -> has_char "]" s = false.
Proof.
  induction s as [| c s IH]; cbn [no_forbidden has_char]; [reflexivity |].
  intros H. apply andb_true_iff in H. destruct H as [Hc Hs].
  rewrite (IH Hs), orb_false_r. unfold forbidden in Hc.
  rewrite Ascii.eqb_sym. destruct (Ascii.eqb c "]"); [| reflexivity].
  now rewrite orb_true_r in Hc.
Qed.

Lemma forbidden_quote c : is_quote c = true -> forbidden c = true.
Proof. intros H. unfold forbidden. now rewrite H. Qed.

Lemma quoted_items_read item acc rest :
  no_forbidden item = true -> acc +++ item <> EmptyString ->
  quoted_items (Some acc) (item +++ String dquote rest) =
  (acc +++ item) :: quoted_items None rest.
Proof.
  revert acc. induction item as [| c item IH]; intros acc Hf Hne.
  - cbn [append quoted_items]. rewrite sapp_nil_r in *.
    change (is_quote dquote) with true. cbv iota.
    destruct acc; [contradiction | reflexivity].
  - cbn [no_forbidden] in Hf. apply andb_true_iff in Hf. destruct Hf as [Hc Hi].
    cbn [append quoted_items].
    assert (Hq : is_quote c = false).
    { destruct (is_quote c) eqn:E; [| reflexivity].
      now rewrite (forbidden_quote c E) in Hc. }
    rewrite Hq, IH.
    + now rewrite sapp_assoc.
    + assumption.
    + rewrite sapp_assoc. cbn [append]. now destruct acc.
Qed.

Lemma quoted_items_line item rest :
  no_forbidden item = true -> item <> EmptyString ->
  quoted_items None (item_line item +++ rest) =
  item :: quoted_items None ("," +++ rest).
Proof.
  intros Hf Hne. unfold item_line.
  change ("    " +++ String dquote (item +++ String dquote ","))
    with (String " " (String " " (String " " (String " "
            (String dquote (item +++ String dquote ",")))))).
  cbn [append quoted_items].
  change (is_quote " ") with false. change (is_quote dquote) with true. cbv iota.
  rewrite sapp_assoc. cbn [append].
  now rewrite quoted_items_read.
Qed.

Lemma quoted_items_lines items :
  Forall (fun i => no_forbidden i = true /\ i <> EmptyString) items ->
  quoted_items None (join newline (map item_line items) +++ newline) = items.
Proof.
  induction items as [| i items IH]; intros H; [reflexivity |].
  inversion H as [| ? ? [Hf Hne] Hrest]; subst.
  destruct items as [| i2 items].
  - cbn [map join]. now rewrite quoted_items_line.
  - change (join newline (map item_line (i :: i2 :: items)))
      with (item_line i +++ newline +++ join newline (map item_line (i2 :: items))).
    rewrite !sapp_assoc, quoted_items_line by assumption.
    f_equal. specialize (IH Hrest). unfold newline at 1.
    cbn [append quoted_items].
    change (is_quote ",") with false. change (is_quote "010") with false.
    cbv iota. exact IH.
Qed.

Lemma has_close_lines items :
  Forall (fun i => no_forbidden i = true /\ i <> EmptyString) items ->
  has_char "]" (join newline (map item_line items)) = false.
Proof.
  induction items as [| i items IH]; intros H; [reflexivity |].
  inversion H as [| ? ? [Hf Hne] Hrest]; subst.
  assert (Hl : has_char "]" (item_line i) = false).
  { unfold item_line. rewrite has_char_app. cbn [has_char].
    rewrite has_char_app, (no_forbidden_no_close i Hf). reflexivity. }
  destruct items as [| i2 items]; [exact Hl |].
  change (join newline (map item_line (i :: i2 :: items)))
    with (item_line i +++ newline +++ join newline (map item_line (i2 :: items))).
  rewrite !has_char_app, Hl, IH by assumption. reflexivity.
Qed.

(** Re-reading an emitted list gives back its items. *)
Lemma parse_format items allSelectablePaths :
  Forall (fun i => no_forbidden i = true /\ i <> EmptyString) items ->
  parseIgnoreItems (formatIgnoreList items) allSelectablePaths =
  resolve_items allSelectablePaths [] items.
Proof.
  intros H. destruct items as [| i items]; [reflexivity |].
  unfold formatIgnoreList, formatStringList.
  set (body := join newline (map item_line (i :: items))).
  assert (E : bracketMatch ("ignore=" +++ "[" +++ (newline +++ body +++ newline)
                              +++ "]" +++ EmptyString) =
              Some (newline +++ body +++ newline)).
  { apply bracketMatch_found; [reflexivity |].
    rewrite !has_char_app. unfold body. rewrite has_close_lines by assumption.
    reflexivity. }
  unfold parseIgnoreItems.
  replace ("ignore=" +++ "[" +++ newline +++
           join newline (map (fun item => "    " +++ String dquote (item +++ String dquote ","))
                             (i :: items)) +++ newline +++ "]")
    with ("ignore=" +++ "[" +++ (newline +++ body +++ newline) +++ "]" +++ EmptyString).
  - rewrite E. f_equal. unfold newline at 1. cbn [append quoted_items].
    change (is_quote "010") with false. cbv iota.
    unfold body. now apply quoted_items_lines.
  - unfold body. rewrite !sapp_assoc. reflexivity.
Qed.

(** ** Resolving the items *)

Lemma mem_In s l : Str.mem s l = true <-> In s l.
Proof.
  unfold Str.mem. rewrite existsb_exists. split.
  - intros [x [Hx E]]. apply String.eqb_eq in E. now subst x.
  - intros H. exists s. split; [assumption | apply String.eqb_refl].
Qed.

Lemma set_add_In res p q : In q (set_add res p) <-> In q res \/ q = p.
Proof.
  unfold set_add. destruct (Str.mem p res) eqn:E.
  - apply mem_In in E. split; [auto |]. intros [H | ->]; assumption.
  - rewrite in_app_iff. cbn [In]. intuition congruence.
Qed.

Lemma set_add_NoDup res p : NoDup res -> NoDup (set_add res p).
Proof.
  intros H. unfold set_add. destruct (Str.mem p res) eqn:E; [assumption |].
  apply NoDup_app; [assumption | repeat constructor; intros [] |].
  intros x Hx [<- | []]. apply mem_In in Hx. congruence.
Qed.

Lemma resolve_regex_In (test : string -> bool) paths res q :
  In q (fold_left (fun res p => if test p then set_add res p else res) paths res)
  <-> In q res \/ (In q paths /\ test q = true).
Proof.
  revert res. induction paths as [| p paths IH]; intros res; cbn [fold_left].
  - cbn [In]. tauto.
  - rewrite IH. cbn [In]. destruct (test p) eqn:E.
    + rewrite set_add_In. split.
      * intros [[H | ->] | [H1 H2]]; auto.
      * intros [H | [[-> | H1] H2]]; auto.
    + split.
      * intros [H | [H1 H2]]; auto.
      * intros [H | [[-> | H1] H2]]; auto. congruence.
Qed.

Lemma resolve_regex_NoDup (test : string -> bool) paths res :
  NoDup res ->
  NoDup (fold_left (fun res p => if test p then set_add res p else res) paths res).
Proof.
  revert res. induction paths as [| p paths IH]; intros res H; cbn [fold_left].
  - assumption.
  - apply IH. destruct (test p); [now apply set_add_NoDup | assumption].
Qed.

Lemma resolve_item_spec U res item :
  (Str.startsWith item "re:" = true ->
   exists r, RegExp.compile (Str.drop 3 item) = RegExp.Pattern r) ->
  exists res',
    resolve_item U res item = Some res' /\
    (NoDup res -> NoDup res') /\
    (forall q, In q res' <-> In q res \/ selects U item q).
Proof.
  intros Hc. unfold resolve_item, selects.
  destruct (Str.startsWith item "re:").
  - destruct (Hc eq_refl) as [r ->]. eexists. split; [reflexivity |]. split.
    + apply resolve_regex_NoDup.
    + intros q. rewrite resolve_regex_In. tauto.
  - destruct (Str.mem item U) eqn:E.
    + apply mem_In in E. eexists. split; [reflexivity |]. split.
      * apply set_add_NoDup.
      * intros q. rewrite set_add_In. split.
        -- intros [H | ->]; auto.
        -- intros [H | [_ ->]]; auto.
    + eexists. split; [reflexivity |]. split; [auto |].
      intros q. split; [auto |]. intros [H | [H ->]]; [assumption |].
      apply mem_In in H. congruence.
Qed.

Lemma resolve_items_spec U items :
  Forall (fun item =>
            Str.startsWith item "re:" = true ->
            exists r, RegExp.compile (Str.drop 3 item) = RegExp.Pattern r) items ->
  forall res,
  exists res',
    resolve_items U res items = Some res' /\
    (NoDup res -> NoDup res') /\
    (forall q, In q res' <->
               In q res \/ exists item, In item items /\ selects U item q).
Proof.
  induction 1 as [| item items Hc _ IH]; intros res; cbn [resolve_items].
  - exists res. split; [reflexivity |]. split; [auto |].
    intros q. split; [auto |]. intros [H | [item [[] _]]]. assumption.
  - destruct (resolve_item_spec U res item Hc) as [r1 [-> [Hn1 Hin1]]].
    destruct (IH r1) as [r2 [E2 [Hn2 Hin2]]].
    exists r2. split; [assumption |]. split; [auto |].
    intros q. rewrite Hin2, Hin1. cbn [In]. split.
    + intros [[H | H] | [i [Hi Hs]]]; eauto.
    + intros [H | [i [[<- | Hi] Hs]]]; eauto.
Qed.

(** ** The template scanner *)

Lemma digit_facts c :
  Str.is_digit c = true ->
  is_line_terminator c = false /\ Ascii.eqb c "." = false /\ forbidden c = false.
Proof.
  destruct c as [[] [] [] [] [] [] [] []]; intros H;
    solve [discriminate H | repeat split].
Qed.

Lemma is_number_all_digits d : Str.is_number d = true -> Str.all_digits d = true.
Proof. destruct d; [discriminate | auto]. Qed.

Lemma span_digits_inv t d r :
  span_digits t = (d, r) -> t = d +++ r /\ Str.all_digits d = true.
Proof.
  revert d r. induction t as [| c t IH]; intros d r H; cbn [span_digits] in H.
  - injection H as <- <-. auto.
  - destruct (Str.is_digit c) eqn:E.
    + destruct (span_digits t) as [d' r'] eqn:E'. injection H as <- <-.
      destruct (IH d' r' eq_refl) as [-> Hd]. cbn [append Str.all_digits].
      now rewrite E, Hd.
    + injection H as <- <-. auto.
Qed.

Lemma span_digits_app d c r :
  Str.all_digits d = true -> Str.is_digit c = false ->
  span_digits (d +++ String c r) = (d, String c r).
Proof.
  intros Hd Hc. induction d as [| x d IH]; cbn [append span_digits].
  - now rewrite Hc.
  - cbn [Str.all_digits] in Hd. apply andb_true_iff in Hd. destruct Hd as [Hx Hd].
    now rewrite Hx, IH.
Qed.

Lemma match_index_suffix_inv rest d suf :
  match_index_suffix rest = Some (d, suf) ->
  rest = d +++ suf /\ Str.is_number d = true /\
  exists c tl, suf = String "." (String c tl) /\
               no_line_terminator (String c tl) = true.
Proof.
  unfold match_index_suffix. intros H.
  destruct (span_digits rest) as [d0 r0] eqn:E.
  apply span_digits_inv in E. destruct E as [-> Hd0].
  destruct d0 as [| x d0]; [discriminate |].
  destruct r0 as [| a r0]; [discriminate |].
  destruct (Ascii.eqb a ".") eqn:Ea.
  - apply Ascii.eqb_eq in Ea. subst a.
    destruct r0 as [| c tl]; [discriminate |].
    destruct (no_line_terminator (String c tl)) eqn:El; [| discriminate].
    injection H as <- <-. repeat split; eauto.
  - destruct a as [[] [] [] [] [] [] [] []]; try discriminate H.
    discriminate Ea.
Qed.

Lemma match_index_suffix_app d c tl :
  Str.is_number d = true -> no_line_terminator (String c tl) = true ->
  match_index_suffix (d +++ String "." (String c tl)) =
  Some (d, String "." (String c tl)).
Proof.
  intros Hd Hl. unfold match_index_suffix.
  rewrite span_digits_app by (auto using is_number_all_digits).
  destruct d; [discriminate |]. now rewrite Hl.
Qed.

Lemma match_template_from_inv rest :
  forall consumed pre d suf,
    match_template_from consumed rest = Some (pre, d, suf) ->
    exists u, pre = consumed +++ u +++ "." /\
              rest = u +++ "." +++ d +++ suf /\
              match_index_suffix (d +++ suf) = Some (d, suf).
Proof.
  induction rest as [| x rest IH]; intros consumed pre d suf H;
    cbn [match_template_from] in H; [discriminate |].
  destruct (if is_line_terminator x then None
            else match_template_from (consumed +++ String x EmptyString) rest)
    as [res |] eqn:E.
  - injection H as ->. destruct (is_line_terminator x); [discriminate |].
    destruct (IH _ _ _ _ E) as [u [-> [-> Hm]]].
    exists (String x u). rewrite !sapp_assoc. repeat split; assumption.
  - destruct (Ascii.eqb x "." && negb (String.eqb consumed EmptyString)) eqn:Ex;
      [| discriminate].
    apply andb_true_iff in Ex. destruct Ex as [Ex _].
    apply Ascii.eqb_eq in Ex. subst x.
    destruct (match_index_suffix rest) as [[d0 s0] |] eqn:Em; [| discriminate].
    injection H as <- <- <-.
    destruct (match_index_suffix_inv _ _ _ Em) as [-> _].
    exists EmptyString. repeat split. assumption.
Qed.

Lemma match_template_from_none rest :
  forall c1 c2, c1 <> EmptyString -> c2 <> EmptyString ->
    match_template_from c1 rest = None -> match_template_from c2 rest = None.
Proof.
  induction rest as [| x rest IH]; intros c1 c2 H1 H2 H;
    cbn [match_template_from] in *; [reflexivity |].
  assert (N1 : c1 +++ String x EmptyString <> EmptyString) by now destruct c1.
  assert (N2 : c2 +++ String x EmptyString <> EmptyString) by now destruct c2.
  destruct (is_line_terminator x).
  - destruct (Ascii.eqb x "."); cbn [andb] in *; [| reflexivity].
    destruct c1; [contradiction |]. destruct c2; [contradiction |].
    cbn [String.eqb negb] in *.
    destruct (match_index_suffix rest) as [[? ?] |]; [discriminate | reflexivity].
  - destruct (match_template_from (c1 +++ String x EmptyString) rest) eqn:E1;
      [discriminate |].
    rewrite (IH _ _ N1 N2 E1).
    destruct (Ascii.eqb x "."); cbn [andb] in *; [| reflexivity].
    destruct c1; [contradiction |]. destruct c2; [contradiction |].
    cbn [String.eqb negb] in *.
    destruct (match_index_suffix rest) as [[? ?] |]; [discriminate | reflexivity].
Qed.

Lemma match_template_from_digits d :
  forall consumed rest,
    Str.all_digits d = true ->
    match_template_from consumed (d +++ rest) =
    match_template_from (consumed +++ d) rest.
Proof.
  induction d as [| x d IH]; intros consumed rest Hd.
  - now rewrite sapp_nil_r.
  - cbn [Str.all_digits] in Hd. apply andb_true_iff in Hd. destruct Hd as [Hx Hd].
    destruct (digit_facts x Hx) as [Hl [Hdot _]].
    cbn [append match_template_from]. rewrite Hl, Hdot. cbn [andb].
    rewrite IH by assumption. rewrite sapp_assoc. cbn [append].
    now destruct (match_template_from _ rest).
Qed.

(** Replacing the index of a templated path by other digits keeps the
    template. *)
Lemma match_template_from_reindex u :
  forall consumed d suf d',
    match_template_from consumed (u +++ "." +++ d +++ suf) =
    Some (consumed +++ u +++ ".", d, suf) ->
    Str.is_number d' = true ->
    match_template_from consumed (u +++ "." +++ d' +++ suf) =
    Some (consumed +++ u +++ ".", d', suf).
Proof.
  induction u as [| x u IH]; intros consumed d suf d' H Hd'.
  - cbn [append] in *. cbn [match_template_from] in *.
    change (is_line_terminator ".") with false in *. cbv iota in *.
    destruct (match_template_from (consumed +++ ".") (d +++ suf)) as [res |] eqn:E.
    + exfalso. injection H as ->.
      destruct (match_template_from_inv _ _ _ _ _ E) as [u' [Hp _]].
      rewrite sapp_assoc in Hp. apply sapp_inv_head in Hp.
      destruct u'; discriminate.
    + rewrite Ascii.eqb_refl in *. cbn [andb] in *.
      destruct (negb (String.eqb consumed EmptyString)) eqn:Ec; [| discriminate].
      destruct (match_index_suffix (d +++ suf)) as [[d0 s0] |] eqn:Em;
        [| discriminate].
      injection H as Hd0 Hs0. subst d0 s0.
      destruct (match_index_suffix_inv _ _ _ Em) as [_ [Hd [c [tl [-> Hl]]]]].
      rewrite match_template_from_digits in E by now apply is_number_all_digits.
      rewrite match_template_from_digits by now apply is_number_all_digits.
      rewrite (match_template_from_none _ ((consumed +++ ".") +++ d)
                 ((consumed +++ ".") +++ d')).
      * now rewrite match_index_suffix_app.
      * destruct consumed; discriminate.
      * destruct consumed; discriminate.
      * assumption.
  - cbn [append] in *. cbn [match_template_from] in *.
    destruct (is_line_terminator x) eqn:El.
    + exfalso.
      destruct (Ascii.eqb x "." && negb (String.eqb consumed EmptyString));
        [| discriminate].
      destruct (match_index_suffix _) as [[d0 s0] |]; [| discriminate].
      injection H as Hp _ _. apply sapp_inv_head in Hp.
      injection Hp as _ Hp. destruct u; discriminate.
    + destruct (match_template_from (consumed +++ String x EmptyString)
                  (u +++ String "." (d +++ suf))) as [res |] eqn:E.
      * injection H as ->.
        replace (consumed +++ String x (u +++ "."))
          with ((consumed +++ String x EmptyString) +++ u +++ ".") in *
          by now rewrite sapp_assoc.
        specialize (IH _ _ _ d' E Hd'). cbn [append] in IH. now rewrite IH.
      * exfalso.
        destruct (Ascii.eqb x "." && negb (String.eqb consumed EmptyString));
          [| discriminate].
        destruct (match_index_suffix _) as [[d0 s0] |]; [| discriminate].
        injection H as Hp _ _. apply sapp_inv_head in Hp.
        injection Hp as _ Hp. destruct u; discriminate.
Qed.

(** What a template match says about the path. *)
Lemma match_template_inv p pre d suf :
  match_template p = Some (pre, d, suf) ->
  p = pre +++ d +++ suf /\ Str.is_number d = true /\
  (exists c tl, suf = String "." (String c tl)) /\
  forall d', Str.is_number d' = true ->
             match_template (pre +++ d' +++ suf) = Some (pre, d', suf).
Proof.
  unfold match_template. intros H.
  destruct (match_template_from_inv _ _ _ _ _ H) as [u [Hp [Hr Hm]]].
  cbn [append] in Hp. subst pre.
  destruct (match_index_suffix_inv _ _ _ Hm) as [_ [Hd [c [tl [Hs _]]]]].
  repeat split.
  - now rewrite sapp_assoc.
  - assumption.
  - eauto.
  - intros d' Hd'. rewrite sapp_assoc. rewrite Hr in H.
    now apply (match_template_from_reindex u EmptyString d suf d').
Qed.

(** ** The grouping loop *)

Lemma JsMap_has_In {V} (m : list (string * V)) k :
  JsMap.has m k = true <-> In k (map fst m).
Proof.
  unfold JsMap.has. induction m as [| [k0 v0] m IH]; cbn [JsMap.get map fst In].
  - split; [discriminate | contradiction].
  - destruct (String.eqb k0 k) eqn:E.
    + apply String.eqb_eq in E. tauto.
    + apply String.eqb_neq in E. rewrite IH. tauto.
Qed.

Lemma JsMap_set_absent {V} (m : list (string * V)) k v :
  JsMap.has m k = false -> JsMap.set m k v = m ++ [(k, v)].
Proof.
  unfold JsMap.has. induction m as [| [k0 v0] m IH]; cbn [JsMap.get JsMap.set app].
  - reflexivity.
  - destruct (String.eqb k0 k); [discriminate |]. intros H. now rewrite IH.
Qed.

Lemma update_group_keys m k f : map fst (update_group m k f) = map fst m.
Proof.
  induction m as [| [k0 g0] m IH]; cbn [update_group map]; [reflexivity |].
  destruct (String.eqb k0 k); cbn [map fst]; congruence.
Qed.

Lemma update_group_In m k f k' g' :
  NoDup (map fst m) ->
  (In (k', g') (update_group m k f) <->
   (k' <> k /\ In (k', g') m) \/
   (k' = k /\ exists g, In (k, g) m /\ g' = f g)).
Proof.
  induction m as [| [k0 g0] m IH]; intros Hnd; cbn [update_group].
  - cbn [In]. split; [contradiction |]. intros [[_ []] | [_ [g [[] _]]]].
  - cbn [map fst] in Hnd. inversion Hnd as [| ? ? Hk0 Hnd']; subst.
    destruct (String.eqb k0 k) eqn:E.
    + apply String.eqb_eq in E. subst k0. cbn [In]. split.
      * intros [H | H].
        -- injection H as <- <-. right. split; [reflexivity |]. eauto.
        -- left. split; [| auto]. intros ->. apply Hk0.
           apply in_map_iff. now exists (k, g').
      * intros [[Hne [H | H]] | [-> [g [[H | H] ->]]]].
        -- injection H as -> _. contradiction.
        -- auto.
        -- injection H as ->. auto.
        -- exfalso. apply Hk0. apply in_map_iff. now exists (k, g).
    + apply String.eqb_neq in E. cbn [In]. rewrite (IH Hnd'). split.
      * intros [H | [[Hne H] | [-> [g [H ->]]]]].
        -- injection H as <- <-. left. auto.
        -- left. auto.
        -- right. split; [reflexivity |]. eauto.
      * intros [[Hne [H | H]] | [-> [g [[H | H] ->]]]].
        -- auto.
        -- right. left. auto.
        -- injection H as -> _. contradiction.
        -- right. right. split; [reflexivity |]. eauto.
Qed.

Lemma toTemplate_some p k i :
  toTemplate p = Some (k, i) <->
  exists pre d suf, match_template p = Some (pre, d, suf) /\
                    k = pre +++ INDEX +++ suf /\ i = Num.parseInt d.
Proof.
  unfold toTemplate. destruct (match_template p) as [[[pre d] suf] |].
  - split.
    + intros H. injection H as <- <-. now exists pre, d, suf.
    + intros [pre' [d' [suf' [H [-> ->]]]]]. now injection H as -> -> ->.
  - split; [discriminate |]. intros [? [? [? [H _]]]]. discriminate.
Qed.

Lemma indices_for_app k l1 l2 :
  indices_for k (l1 ++ l2) = indices_for k l1 ++ indices_for k l2.
Proof. apply flat_map_app. Qed.

Lemma indices_for_absent k l :
  (forall p i, In p l -> toTemplate p <> Some (k, i)) -> indices_for k l = [].
Proof.
  induction l as [| p l IH]; intros H; [reflexivity |].
  cbn [indices_for flat_map]. fold (indices_for k l).
  rewrite IH by (intros; apply H; now right).
  destruct (toTemplate p) as [[k' i] |] eqn:E; [| reflexivity].
  destruct (String.eqb k' k) eqn:Ek; [| reflexivity].
  apply String.eqb_eq in Ek. subst k'. exfalso. apply (H p i); [now left | exact E].
Qed.

Lemma group_step_inv l groups p :
  groups_inv l groups ->
  exists groups',
    group_step (groups, untemplated l) p = (groups', untemplated (l ++ [p])) /\
    groups_inv (l ++ [p]) groups'.
Proof.
  intros [Hnd [Hent Hcov]]. unfold group_step, untemplated.
  rewrite filter_app. cbn [filter].
  destruct (toTemplate p) as [[k i] |] eqn:T.
  - rewrite app_nil_r.
    destruct (proj1 (toTemplate_some p k i) T) as [pre [d [suf [M [Hk Hi]]]]].
    rewrite M.
    set (groups1 := if JsMap.has groups k then groups
                    else JsMap.set groups k (mkTemplateGroup k pre suf [])).
    eexists. split; [reflexivity |].
    assert (H1 : NoDup (map fst groups1) /\
                 (forall k' g', In (k', g') groups1 ->
                                (In (k', g') groups) \/
                                (JsMap.has groups k = false /\ k' = k /\
                                 g' = mkTemplateGroup k pre suf [])) /\
                 (forall k', In k' (map fst groups) -> In k' (map fst groups1)) /\
                 In k (map fst groups1)).
    { unfold groups1. destruct (JsMap.has groups k) eqn:Hh.
      - repeat split; auto. now apply JsMap_has_In.
      - rewrite JsMap_set_absent by assumption. rewrite map_app. cbn [map fst].
        repeat split.
        + apply NoDup_app; [assumption | repeat constructor; intros [] |].
          intros x Hx [<- | []]. apply JsMap_has_In in Hx. congruence.
        + intros k' g' H. apply in_app_iff in H. destruct H as [H | [H | []]].
          * now left.
          * injection H as <- <-. right. auto.
        + intros k' H. apply in_app_iff. now left.
        + apply in_app_iff. right. now left. }
    destruct H1 as [Hnd1 [Hent1 [Hkeys1 Hk1]]].
    split; [| split].
    + now rewrite update_group_keys.
    + intros k' g' H. apply (update_group_In _ _ _ _ _ Hnd1) in H.
      rewrite indices_for_app. cbn [indices_for flat_map]. rewrite T, app_nil_r.
      destruct H as [[Hne H] | [-> [g [H ->]]]].
      * destruct (Hent1 _ _ H) as [Hold | [_ [-> _]]]; [| contradiction].
        destruct (Hent _ _ Hold) as [Ht [Hix [p0 [d0 [Hp0 [Hm0 Hk0]]]]]].
        assert (E : String.eqb k k' = false) by (apply String.eqb_neq; congruence).
        rewrite E, app_nil_r. repeat split; auto.
        exists p0, d0. repeat split; auto. apply in_app_iff. now left.
      * rewrite String.eqb_refl.
        destruct (Hent1 _ _ H) as [Hold | [Hh [_ ->]]].
        -- destruct (Hent _ _ Hold) as [Ht [Hix [p0 [d0 [Hp0 [Hm0 Hk0]]]]]].
           unfold push_index. cbn [template indices prefix suffix].
           rewrite Hix. repeat split; auto.
           exists p0, d0. repeat split; auto. apply in_app_iff. now left.
        -- unfold push_index. cbn [template indices prefix suffix app].
           rewrite indices_for_absent.
           ++ repeat split. exists p, d. repeat split; auto.
              apply in_app_iff. right. now left.
           ++ intros p' i' Hp' Hk'. apply Hcov in Hk'; [| assumption].
              apply JsMap_has_In in Hk'. congruence.
    + intros p' k' i' Hp' Hk'. rewrite update_group_keys.
      apply in_app_iff in Hp'. destruct Hp' as [Hp' | [<- | []]].
      * apply Hkeys1. eapply Hcov; eauto.
      * rewrite T in Hk'. now injection Hk' as <- _.
  - eexists. split; [reflexivity |]. split; [assumption | split].
    + intros k g H. destruct (Hent _ _ H) as [Ht [Hix [p0 [d0 [Hp0 [Hm0 Hk0]]]]]].
      rewrite indices_for_app. cbn [indices_for flat_map]. rewrite T, !app_nil_r.
      repeat split; auto. exists p0, d0. repeat split; auto.
      apply in_app_iff. now left.
    + intros p' k' i' Hp' Hk'.
      apply in_app_iff in Hp'. destruct Hp' as [Hp' | [<- | []]].
      * eapply Hcov; eauto.
      * congruence.
Qed.

Lemma grouping_loop l :
  exists groups,
    fold_left group_step l ([], []) = (groups, untemplated l) /\
    groups_inv l groups.
Proof.
  induction l as [| p l IH] using rev_ind.
  - exists []. split; [reflexivity |].
    split; [constructor | split]; intros; contradiction.
  - destruct IH as [groups [E Hinv]].
    destruct (group_step_inv l groups p Hinv) as [groups' [Es Hinv']].
    exists groups'. split; [| assumption].
    now rewrite fold_left_app, E.
Qed.

(** The counting loop over the universe. *)
Lemma counting_loop_from U :
  forall acc k,
    nullish (JsMap.get (fold_left count_step U acc) k) 0 =
    nullish (JsMap.get acc k) 0 + List.length (paths_for k U).
Proof.
  induction U as [| p U IH]; intros acc k; cbn [fold_left paths_for filter].
  - now rewrite Nat.add_0_r.
  - fold (paths_for k U). rewrite IH. unfold count_step.
    destruct (toTemplate p) as [[k' i] |]; [| reflexivity].
    rewrite JsMap_get_set. destruct (String.eqb k' k) eqn:E.
    + apply String.eqb_eq in E. subst k'. cbn [nullish List.length]. lia.
    + reflexivity.
Qed.

Lemma counting_loop U k :
  nullish (JsMap.get (fold_left count_step U []) k) 0 =
  List.length (paths_for k U).
Proof. now rewrite counting_loop_from. Qed.

(** ** The round trip *)

Lemma no_forbidden_escapeRegex s : no_forbidden (escapeRegex s) = no_forbidden s.
Proof.
  induction s as [| c s IH]; [reflexivity |].
  cbn [escapeRegex]. destruct (is_special c); cbn [no_forbidden]; now rewrite IH.
Qed.

Lemma no_forbidden_digits d : Str.all_digits d = true -> no_forbidden d = true.
Proof.
  induction d as [| c d IH]; [reflexivity |].
  cbn [Str.all_digits no_forbidden]. intros H. apply andb_true_iff in H.
  destruct H as [Hc Hd]. destruct (digit_facts c Hc) as [_ [_ ->]]. auto.
Qed.

Lemma no_forbidden_join ds :
  Forall (fun d => Str.is_number d = true) ds ->
  no_forbidden (join "|" ds) = true.
Proof.
  induction 1 as [| d ds Hd _ IH]; [reflexivity |].
  destruct ds as [| d2 ds].
  - now apply no_forbidden_digits, is_number_all_digits.
  - change (join "|" (d :: d2 :: ds)) with (d +++ "|" +++ join "|" (d2 :: ds)).
    rewrite !no_forbidden_app, IH.
    now rewrite no_forbidden_digits by now apply is_number_all_digits.
Qed.

(** Without braces in the prefixes, the template key determines the
    prefix and the suffix. *)
Lemma template_key_inj a :
  forall b s s',
    no_forbidden a = true -> no_forbidden b = true ->
    a +++ INDEX +++ s = b +++ INDEX +++ s' -> a = b /\ s = s'.
Proof.
  induction a as [| x a IH]; intros b s s' Ha Hb E.
  - destruct b as [| y b].
    + cbn [append] in E. apply sapp_inv_head in E. auto.
    + exfalso. cbn in E. injection E as <- _. discriminate Hb.
  - destruct b as [| y b].
    + exfalso. cbn in E. injection E as -> _. discriminate Ha.
    + cbn [append] in E. injection E as <- E.
      cbn [no_forbidden] in Ha, Hb.
      apply andb_true_iff in Ha, Hb. destruct Ha as [_ Ha], Hb as [_ Hb].
      destruct (IH _ _ _ Ha Hb E) as [-> ->]. auto.
Qed.

Lemma instance_at_app pre suf d y :
  Str.is_number d = true ->
  (exists c tl, suf = String "." (String c tl)) ->
  instance_at pre suf (pre +++ d +++ suf +++ y) = Some y.
Proof.
  intros Hd [c [tl ->]]. unfold instance_at. rewrite strip_prefix_app.
  cbn [append]. rewrite span_digits_app; [| now apply is_number_all_digits | reflexivity].
  destruct d; [discriminate |].
  change (String "." (String c (tl +++ y))) with (String "." (String c tl) +++ y).
  apply strip_prefix_app.
Qed.

Lemma only_whole_head pre suf st t y :
  only_whole pre suf st t = true -> instance_at pre suf t = Some y ->
  st = true /\ y = EmptyString.
Proof.
  intros H Hi.
  assert (E : (st && String.eqb y EmptyString) = true).
  { destruct t; cbn [only_whole] in H; rewrite Hi in H;
      now apply andb_true_iff in H. }
  apply andb_true_iff in E. destruct E as [-> E].
  apply String.eqb_eq in E. auto.
Qed.

Lemma only_whole_spec pre suf t :
  forall st x t' y,
    only_whole pre suf st t = true -> t = x +++ t' ->
    instance_at pre suf t' = Some y ->
    x = EmptyString /\ y = EmptyString.
Proof.
  induction t as [| c t IH]; intros st x t' y H E Hi.
  - destruct x; [| discriminate]. cbn in E. subst t'.
    now destruct (only_whole_head _ _ _ _ _ H Hi).
  - destruct x as [| c' x].
    + cbn in E. subst t'. now destruct (only_whole_head _ _ _ _ _ H Hi).
    + exfalso. cbn [append] in E. injection E as <- ->.
      cbn [only_whole] in H. apply andb_true_iff in H. destruct H as [_ H].
      destruct (IH false x t' y H eq_refl Hi) as [-> _].
      cbn [append] in H. now destruct (only_whole_head _ _ _ _ _ H Hi).
Qed.

Lemma selects_regex U X r q :
  RegExp.compile X = RegExp.Pattern r ->
  (selects U ("re:" +++ X) q <-> In q U /\ RegExp.test r q = true).
Proof.
  intros H. unfold selects.
  change (Str.startsWith ("re:" +++ X) "re:") with true.
  change (Str.drop 3 ("re:" +++ X)) with X. cbv iota. now rewrite H.
Qed.

Lemma selects_literal U item q :
  Str.startsWith item "re:" = false ->
  (selects U item q <-> In q U /\ q = item).
Proof. intros H. unfold selects. now rewrite H. Qed.

Section RoundTrip.
Variables selectedPaths allSelectablePaths : list string.
Hypothesis sel_nodup : NoDup selectedPaths.
Hypothesis sel_incl : incl selectedPaths allSelectablePaths.
Hypothesis sel_plain : forallb plain_path selectedPaths = true.
Hypothesis sel_canonical : forallb canonical_index selectedPaths = true.
Hypothesis sel_scoped : scoped selectedPaths allSelectablePaths = true.

Local Abbreviation counts := (fold_left count_step allSelectablePaths []).

Lemma plain_facts p :
  In p selectedPaths ->
  p <> EmptyString /\ Str.startsWith p "re:" = false /\ no_forbidden p = true.
Proof.
  intros H. rewrite forallb_forall in sel_plain. specialize (sel_plain p H).
  unfold plain_path in sel_plain.
  apply andb_true_iff in sel_plain. destruct sel_plain as [H1 H3].
  apply andb_true_iff in H1. destruct H1 as [H1 H2].
  apply negb_true_iff in H1, H2. apply String.eqb_neq in H1. auto.
Qed.

Lemma scoped_use p pre d0 suf q x d y :
  In p selectedPaths -> match_template p = Some (pre, d0, suf) ->
  In q allSelectablePaths ->
  q = x +++ pre +++ d +++ suf +++ y -> Str.is_number d = true ->
  x = EmptyString /\ y = EmptyString.
Proof.
  intros Hp Hm Hq E Hd. unfold scoped in sel_scoped.
  rewrite forallb_forall in sel_scoped. specialize (sel_scoped p Hp).
  rewrite Hm in sel_scoped. rewrite forallb_forall in sel_scoped.
  specialize (sel_scoped q Hq).
  destruct (match_template_inv _ _ _ _ Hm) as [_ [_ [Hsuf _]]].
  eapply only_whole_spec; [exact sel_scoped | exact E |].
  now apply instance_at_app.
Qed.

Lemma paths_for_In k l p :
  In p (paths_for k l) <-> In p l /\ exists i, toTemplate p = Some (k, i).
Proof.
  unfold paths_for. rewrite filter_In. split.
  - intros [H E]. split; [assumption |].
    destruct (toTemplate p) as [[k' i] |]; [| discriminate].
    apply String.eqb_eq in E. subst k'. eauto.
  - intros [H [i E]]. split; [assumption |]. rewrite E. apply String.eqb_refl.
Qed.

Lemma indices_for_In k l i :
  In i (indices_for k l) <-> exists p, In p l /\ toTemplate p = Some (k, i).
Proof.
  unfold indices_for. rewrite in_flat_map. split.
  - intros [p [Hp H]]. exists p. split; [assumption |].
    destruct (toTemplate p) as [[k' i'] |]; [| contradiction].
    destruct (String.eqb k' k) eqn:E; [| contradiction].
    apply String.eqb_eq in E. subst k'. destruct H as [<- | []]. reflexivity.
  - intros [p [Hp E]]. exists p. split; [assumption |].
    rewrite E, String.eqb_refl. now left.
Qed.

Lemma indices_for_length k l :
  List.length (indices_for k l) = List.length (paths_for k l).
Proof.
  induction l as [| p l IH]; [reflexivity |].
  cbn [indices_for paths_for flat_map filter].
  fold (indices_for k l). fold (paths_for k l). rewrite length_app, IH.
  destruct (toTemplate p) as [[k' i] |]; [| reflexivity].
  now destruct (String.eqb k' k).
Qed.

Section Group.
Variables (groups : list (string * TemplateGroup)) (k : string) (g : TemplateGroup).
Hypothesis Hinv : groups_inv selectedPaths groups.
Hypothesis Hg : In (k, g) groups.

Local Abbreviation pre := (prefix g).
Local Abbreviation suf := (suffix g).
Local Abbreviation sorted := (Array_sort by_value (indices g)).

Lemma group_first :
  exists p0 d0, In p0 selectedPaths /\ match_template p0 = Some (pre, d0, suf) /\
                k = pre +++ INDEX +++ suf /\
                no_forbidden pre = true /\ no_forbidden suf = true.
Proof.
  destruct Hinv as [_ [Hent _]].
  destruct (Hent _ _ Hg) as [_ [_ [p0 [d0 [Hp0 [Hm0 Hk0]]]]]].
  exists p0, d0. repeat split; auto.
  - destruct (plain_facts p0 Hp0) as [_ [_ Hf]].
    destruct (match_template_inv _ _ _ _ Hm0) as [E _]. rewrite E in Hf.
    rewrite !no_forbidden_app in Hf. now apply andb_true_iff in Hf.
  - destruct (plain_facts p0 Hp0) as [_ [_ Hf]].
    destruct (match_template_inv _ _ _ _ Hm0) as [E _]. rewrite E in Hf.
    rewrite !no_forbidden_app in Hf. apply andb_true_iff in Hf.
    destruct Hf as [_ Hf]. now apply andb_true_iff in Hf.
Qed.

(** A selected path of the group: prefix, canonical digits, suffix. *)
Lemma group_member p i :
  In p selectedPaths -> toTemplate p = Some (k, i) ->
  exists d, match_template p = Some (pre, d, suf) /\ p = pre +++ d +++ suf /\
            Str.is_number d = true /\ Num.toString i = d.
Proof.
  intros Hp Ht.
  destruct (proj1 (toTemplate_some _ _ _) Ht) as [pre' [d [suf' [Hm [Hk Hi]]]]].
  destruct group_first as [p0 [d0 [_ [_ [Hk0 [Hfp _]]]]]].
  destruct (match_template_inv _ _ _ _ Hm) as [E [Hd _]].
  destruct (plain_facts p Hp) as [_ [_ Hf]].
  assert (Hfp' : no_forbidden pre' = true).
  { rewrite E, no_forbidden_app in Hf. now apply andb_true_iff in Hf. }
  rewrite Hk0 in Hk. destruct (template_key_inj _ _ _ _ Hfp Hfp' Hk) as [<- <-].
  exists d. repeat split; auto.
  rewrite forallb_forall in sel_canonical. specialize (sel_canonical p Hp).
  unfold canonical_index in sel_canonical. rewrite Hm in sel_canonical.
  apply String.eqb_eq in sel_canonical. now subst i.
Qed.

Lemma sorted_In i :
  In i sorted <-> exists p, In p selectedPaths /\ toTemplate p = Some (k, i).
Proof.
  destruct Hinv as [_ [Hent _]]. destruct (Hent _ _ Hg) as [_ [Hix _]].
  rewrite <- indices_for_In, <- Hix. split.
  - apply Permutation_in, Permutation_sym, Array_sort_perm.
  - apply Permutation_in, Array_sort_perm.
Qed.

Lemma sorted_length :
  List.length sorted = List.length (paths_for k selectedPaths).
Proof.
  destruct Hinv as [_ [Hent _]]. destruct (Hent _ _ Hg) as [_ [Hix _]].
  now rewrite Array_sort_length, Hix, indices_for_length.
Qed.

Lemma sorted_numbers :
  Forall (fun d => Str.is_number d = true) (map Num.toString sorted).
Proof.
  apply Forall_forall. intros d Hd. apply in_map_iff in Hd.
  destruct Hd as [i [<- Hi]]. apply sorted_In in Hi. destruct Hi as [p [Hp Ht]].
  destruct (group_member p i Hp Ht) as [d [_ [_ [Hd <-]]]]. assumption.
Qed.

(** The literal that the optimizer prints for an index is the selected
    path it came from. *)
Lemma literal_of_index i :
  In i sorted -> In (pre +++ Num.toString i +++ suf) (paths_for k selectedPaths).
Proof.
  intros Hi. apply sorted_In in Hi. destruct Hi as [p [Hp Ht]].
  destruct (group_member p i Hp Ht) as [d [_ [E [_ ->]]]].
  rewrite <- E. apply paths_for_In. eauto.
Qed.

Lemma index_of_path p :
  In p (paths_for k selectedPaths) ->
  exists i, In i sorted /\ p = pre +++ Num.toString i +++ suf.
Proof.
  intros H. apply paths_for_In in H. destruct H as [Hp [i Ht]].
  exists i. split; [apply sorted_In; eauto |].
  destruct (group_member p i Hp Ht) as [d [_ [E [_ ->]]]]. assumption.
Qed.

Local Abbreviation wildcard_rule :=
  ("re:" +++ escapeRegex pre +++ "\d+" +++ escapeRegex suf).
Local Abbreviation alternation_rule :=
  ("re:" +++ escapeRegex pre +++ "(" +++ join "|" (map Num.toString sorted)
         +++ ")" +++ escapeRegex suf).

Lemma emit_group_cases :
  emit_group counts (k, g) =
  if (List.length sorted =? List.length (paths_for k allSelectablePaths))%nat
  then [wildcard_rule]
  else if (List.length sorted <=? 3)%nat
       then map (fun idx => pre +++ Num.toString idx +++ suf) sorted
       else [alternation_rule].
Proof.
  unfold emit_group. rewrite counting_loop.
  destruct (_ =? _)%nat; [reflexivity |].
  destruct (_ <=? 3)%nat; [reflexivity |].
  now destruct (every_contiguous None sorted && _).
Qed.

Lemma group_items_ok :
  Forall (fun i => no_forbidden i = true /\ i <> EmptyString)
         (emit_group counts (k, g)).
Proof.
  destruct group_first as [p0 [d0 [Hp0 [Hm0 [_ [Hfp Hfs]]]]]].
  rewrite emit_group_cases.
  destruct (_ =? _)%nat; [| destruct (_ <=? 3)%nat].
  - repeat constructor; [| discriminate].
    rewrite !no_forbidden_app, !no_forbidden_escapeRegex, Hfp, Hfs. reflexivity.
  - apply Forall_forall. intros item Hi. apply in_map_iff in Hi.
    destruct Hi as [i [<- Hi]]. apply literal_of_index in Hi.
    apply paths_for_In in Hi. destruct Hi as [Hi _].
    destruct (plain_facts _ Hi) as [Hne [_ Hf]]. auto.
  - repeat constructor; [| discriminate].
    rewrite !no_forbidden_app, !no_forbidden_escapeRegex, Hfp, Hfs.
    rewrite (no_forbidden_join _ sorted_numbers). reflexivity.
Qed.

Lemma sorted_many :
  (List.length sorted <=? 3)%nat = false -> map Num.toString sorted <> [].
Proof.
  intros H E. apply (f_equal (@List.length _)) in E.
  rewrite length_map in E. rewrite E in H. discriminate H.
Qed.

Lemma group_items_compile :
  Forall (fun item =>
            Str.startsWith item "re:" = true ->
            exists r, RegExp.compile (Str.drop 3 item) = RegExp.Pattern r)
         (emit_group counts (k, g)).
Proof.
  rewrite emit_group_cases.
  destruct (_ =? _)%nat; [| destruct (_ <=? 3)%nat eqn:E3].
  - repeat constructor. intros _. eexists. apply compile_wildcard.
  - apply Forall_forall. intros item Hi Hre. exfalso.
    apply in_map_iff in Hi. destruct Hi as [i [<- Hi]].
    apply literal_of_index in Hi. apply paths_for_In in Hi. destruct Hi as [Hi _].
    destruct (plain_facts _ Hi) as [_ [Hs _]]. congruence.
  - repeat constructor. intros _. eexists.
    apply compile_alternation; [now apply sorted_many | apply sorted_numbers].
Qed.

Lemma member_in_universe p :
  In p (paths_for k selectedPaths) -> In p allSelectablePaths.
Proof. intros H. apply paths_for_In in H. now apply sel_incl. Qed.

(** A universe path that is an instance of the group's template has the
    group's template key. *)
Lemma instance_has_key q d :
  Str.is_number d = true -> q = pre +++ d +++ suf ->
  exists i, toTemplate q = Some (k, i).
Proof.
  intros Hd ->. destruct group_first as [p0 [d0 [_ [Hm0 [Hk0 _]]]]].
  destruct (match_template_inv _ _ _ _ Hm0) as [_ [_ [_ Hre]]].
  exists (Num.parseInt d). apply toTemplate_some.
  exists pre, d, suf. auto.
Qed.

(** The rules of one group resolve to the selected paths of the group. *)
Lemma group_selects q :
  (exists item, In item (emit_group counts (k, g)) /\
                selects allSelectablePaths item q) <->
  In q (paths_for k selectedPaths).
Proof.
  destruct group_first as [p0 [d0 [Hp0 [Hm0 [Hk0 _]]]]].
  rewrite emit_group_cases.
  destruct (_ =? _)%nat eqn:Eall; [| destruct (_ <=? 3)%nat eqn:E3].
  - (* every instance selected: the wildcard *)
    apply Nat.eqb_eq in Eall. rewrite sorted_length in Eall. split.
    + intros [item [[<- | []] Hs]].
      apply (selects_regex _ _ _ _ (compile_wildcard pre suf)) in Hs.
      destruct Hs as [Hq Ht]. apply test_wildcard in Ht.
      destruct Ht as [x [d [y [E Hd]]]].
      destruct (scoped_use _ _ _ _ _ _ _ _ Hp0 Hm0 Hq E Hd) as [-> ->].
      cbn [append] in E. rewrite sapp_nil_r in E.
      assert (Hin : In q (paths_for k allSelectablePaths)).
      { apply paths_for_In. split; [assumption |]. now apply (instance_has_key q d). }
      revert Hin. apply NoDup_length_incl.
      * now apply NoDup_filter.
      * lia.
      * intros p Hp. apply paths_for_In in Hp. apply paths_for_In.
        destruct Hp as [Hp Hi]. split; [now apply sel_incl | assumption].
    + intros Hq. exists wildcard_rule. split; [now left |].
      apply (selects_regex _ _ _ _ (compile_wildcard pre suf)).
      split; [now apply member_in_universe |].
      apply test_wildcard. destruct (index_of_path q Hq) as [i [Hi E]].
      exists EmptyString, (Num.toString i), EmptyString.
      rewrite sapp_nil_r. split; [exact E |].
      assert (Hn := sorted_numbers). rewrite Forall_forall in Hn.
      apply Hn, in_map, Hi.
  - (* few indices: literals *)
    split.
    + intros [item [Hi Hs]]. apply in_map_iff in Hi. destruct Hi as [i [<- Hi]].
      apply literal_of_index in Hi.
      assert (Hsel := Hi). apply paths_for_In in Hsel. destruct Hsel as [Hsel _].
      destruct (plain_facts _ Hsel) as [_ [Hre _]].
      apply (selects_literal _ _ _ Hre) in Hs. destruct Hs as [_ ->]. assumption.
    + intros Hq. destruct (index_of_path q Hq) as [i [Hi E]].
      exists (pre +++ Num.toString i +++ suf).
      split; [apply in_map_iff; now exists i |].
      assert (Hsel := Hq). apply paths_for_In in Hsel. destruct Hsel as [Hsel _].
      destruct (plain_facts _ Hsel) as [_ [Hre _]]. rewrite <- E.
      apply (selects_literal _ _ _ Hre). split; [now apply member_in_universe | auto].
  - (* many indices, not all: the alternation *)
    assert (Hc := compile_alternation pre _ suf (sorted_many E3) sorted_numbers).
    split.
    + intros [item [[<- | []] Hs]].
      apply (selects_regex _ _ _ _ Hc) in Hs. destruct Hs as [Hq Ht].
      apply (test_alternation _ _ _ _ (sorted_many E3)) in Ht.
      destruct Ht as [x [d [y [Hd E]]]].
      assert (Hn := sorted_numbers). rewrite Forall_forall in Hn.
      destruct (scoped_use _ _ _ _ _ _ _ _ Hp0 Hm0 Hq E (Hn d Hd)) as [-> ->].
      cbn [append] in E. rewrite sapp_nil_r in E. subst q.
      apply in_map_iff in Hd. destruct Hd as [i [<- Hi]].
      now apply literal_of_index.
    + intros Hq. exists alternation_rule. split; [now left |].
      apply (selects_regex _ _ _ _ Hc). split; [now apply member_in_universe |].
      apply (test_alternation _ _ _ _ (sorted_many E3)).
      destruct (index_of_path q Hq) as [i [Hi E]].
      exists EmptyString, (Num.toString i), EmptyString.
      rewrite sapp_nil_r. split; [now apply in_map | exact E].
Qed.
End Group.

End RoundTrip.

(** ** Unanchored rules and the round trip *)

Lemma resolve_regex_item U res pat r :
  RegExp.compile pat = RegExp.Pattern r ->
  exists resolved,
    resolve_item U res ("re:" +++ pat) = Some resolved /\
    (forall q, In q resolved <->
               In q res \/ (In q U /\ RegExp.test r q = true)).
Proof.
  intros H.
  destruct (resolve_item_spec U res ("re:" +++ pat)) as [resolved [E [_ Hin]]].
  - intros _. exists r. exact H.
  - exists resolved. split; [assumption |]. intros q.
    now rewrite Hin, (selects_regex U pat r q H).
Qed.

(** C9. A [re:] item is tested against the universe paths without
    anchors: a path is added when the pattern matches at some index and
    up to some index of the path. The wildcard rule of a template so
    matches every path that contains the prefix, digits and the suffix,
    and resolves to paths of other templates in some universes. *)
Theorem regex_rules_are_unanchored :
  (forall r p,
      RegExp.test r p = true <->
      exists x t, p = x +++ t /\
                  RegExp.run r (fun _ _ => true) (after x true) t = true) /\
  (forall pre suf,
      RegExp.compile (escapeRegex pre +++ "\d+" +++ escapeRegex suf) =
      RegExp.Pattern (wildcard_regex pre suf)) /\
  (forall pre suf q,
      RegExp.test (wildcard_regex pre suf) q = true <->
      exists x d y, q = x +++ pre +++ d +++ suf +++ y /\
                    Str.is_number d = true) /\
  (forall allSelectablePaths pat r result,
      RegExp.compile pat = RegExp.Pattern r ->
      exists resolved,
        resolve_item allSelectablePaths result ("re:" +++ pat) = Some resolved /\
        (forall q, In q resolved <->
                   In q result \/
                   (In q allSelectablePaths /\ RegExp.test r q = true))) /\
  optimized (optimizeSelection ["model.layers.0.mlp"] overlapping_universe) =
  ["re:model\.layers\.\d+\.mlp"] /\
  parseIgnoreItems (formatIgnoreList ["re:model\.layers\.\d+\.mlp"])
                   overlapping_universe =
  Some ["model.layers.0.mlp"; "vision_model.layers.0.mlp"] /\
  map toTemplate overlapping_universe =
  [ Some ("model.layers.{{INDEX}}.mlp", Num.Finite 0);
    Some ("vision_model.layers.{{INDEX}}.mlp", Num.Finite 0) ].
Proof.
  split; [| split; [| split; [| split; [| repeat split]]]].
  - intros r p. apply test_from_spec.
  - apply compile_wildcard.
  - apply test_wildcard.
  - intros U pat r res. apply resolve_regex_item.
Qed.

Lemma regex_rules_are_unanchored_witness :
  RegExp.compile "model\.layers\.\d+\.mlp" =
  RegExp.Pattern (wildcard_regex "model.layers." ".mlp") /\
  exists resolved,
    resolve_item overlapping_universe [] "re:model\.layers\.\d+\.mlp" =
    Some resolved /\
    (forall q, In q resolved <->
               In q [] \/
               (In q overlapping_universe /\
                RegExp.test (wildcard_regex "model.layers." ".mlp") q = true)).
Proof.
  split; [reflexivity |].
  exact (proj1 (proj2 (proj2 (proj2 regex_rules_are_unanchored)))
           overlapping_universe "model\.layers\.\d+\.mlp"
           (wildcard_regex "model.layers." ".mlp") [] eq_refl).
Defined.

(** The round trip as the specification states it fails: the wildcard rule
    of a fully selected template also resolves to a longer universe path
    that ends with an instance of the template. *)
Lemma round_trip_fails_unanchored :
  ~ (forall selectedPaths allSelectablePaths,
        NoDup selectedPaths -> incl selectedPaths allSelectablePaths ->
        exists resolved,
          parseIgnoreItems
            (formatIgnoreList
               (optimized (optimizeSelection selectedPaths allSelectablePaths)))
            allSelectablePaths = Some resolved /\
          (forall q, In q resolved <-> In q selectedPaths)).
Proof.
  intros H.
  destruct (H ["model.layers.0.mlp"] overlapping_universe) as [res [E Hin]].
  - repeat constructor. intros [].
  - intros x [<- | []]. now left.
  - vm_compute in E. injection E as <-.
    assert (Hq : In "vision_model.layers.0.mlp" ["model.layers.0.mlp"])
      by (apply Hin; right; now left).
    destruct Hq as [Hq | []]. discriminate Hq.
Qed.

(** The same with the alternation rule. *)
Lemma round_trip_fails_alternation :
  let universe := "vision_model.layers.3.mlp.down_proj" :: map down_proj (seq 0 8) in
  parseIgnoreItems
    (formatIgnoreList (optimized (optimizeSelection (map down_proj [0; 3; 5; 6])
                                                    universe)))
    universe =
  Some ("vision_model.layers.3.mlp.down_proj" :: map down_proj [0; 3; 5; 6]).
Proof. vm_compute. reflexivity. Qed.

(** An index with leading zeros is printed without them, and a path with
    a closing bracket ends the list early. *)
Lemma round_trip_needs_canonical_and_plain :
  parseIgnoreItems
    (formatIgnoreList (optimized (optimizeSelection ["h.00.attn"]
                                                    ["h.00.attn"; "h.1.attn"])))
    ["h.00.attn"; "h.1.attn"] = Some [] /\
  parseIgnoreItems
    (formatIgnoreList (optimized (optimizeSelection ["blocks[0]"; "head"]
                                                    ["blocks[0]"; "head"])))
    ["blocks[0]"; "head"] = Some [].
Proof. split; vm_compute; reflexivity. Qed.

(** C1. The round trip fails on a model with a dense and a
    mixture-of-experts layer: with the router [mlp.gate] of the one layer
    that has it selected, every instance of the template in the universe
    is selected, the optimizer emits the wildcard rule of the template,
    and, the rule being tested without anchors, the list resolves to the
    router and to the unselected [mlp.gate_proj] of the dense layer. *)
Lemma round_trip_selects_unselected_gate_proj :
  NoDup moe_selection /\ incl moe_selection moe_universe /\
  optimized (optimizeSelection moe_selection moe_universe) =
  ["re:model\.layers\.\d+\.mlp\.gate"] /\
  parseIgnoreItems
    (formatIgnoreList (optimized (optimizeSelection moe_selection moe_universe)))
    moe_universe =
  Some ["model.layers.0.mlp.gate_proj"; "model.layers.1.mlp.gate"] /\
  ~ In "model.layers.0.mlp.gate_proj" moe_selection.
Proof.
  split; [repeat constructor; intros [] |].
  split; [intros q [<- | []]; cbn; tauto |].
  split; [reflexivity |]. split; [vm_compute; reflexivity |].
  intros [H | []]. discriminate H.
Qed.

(** Two selected paths with one template key and different prefixes are
    put in one group, under the prefix of the first: the second is lost. *)
Lemma round_trip_fails_on_template_collision :
  optimized (optimizeSelection colliding_paths colliding_paths) =
  ["re:a\.\d+\.b\.\{\{INDEX\}\}\.c"] /\
  parseIgnoreItems
    (formatIgnoreList (optimized (optimizeSelection colliding_paths colliding_paths)))
    colliding_paths = Some ["a.5.b.{{INDEX}}.c"].
Proof. split; vm_compute; reflexivity. Qed.

(** X27. Conditions under which the round trip is exact. For a selection
    without duplicates inside the universe, whose paths are plain (not
    empty, no quote, closing bracket or opening brace, not beginning with
    [re:]) and carry their layer index in the form the host prints it,
    and for a universe in which no path contains an instance of a
    selected path's template strictly inside it, the emitted ignore list
    resolves to exactly the selection, as a set, whichever branch the
    optimizer takes for each template. The conditions are sufficient;
    they are not claimed to be necessary. *)
Theorem round_trip_scoped :
  forall selectedPaths allSelectablePaths,
    NoDup selectedPaths ->
    incl selectedPaths allSelectablePaths ->
    forallb plain_path selectedPaths = true ->
    forallb canonical_index selectedPaths = true ->
    scoped selectedPaths allSelectablePaths = true ->
    exists resolved,
      parseIgnoreItems
        (formatIgnoreList
           (optimized (optimizeSelection selectedPaths allSelectablePaths)))
        allSelectablePaths = Some resolved /\
      NoDup resolved /\
      (forall q, In q resolved <-> In q selectedPaths).
Proof.
  intros selectedPaths allSelectablePaths Hnd Hincl Hplain Hcanon Hscoped.
  pose proof (plain_facts selectedPaths Hplain) as plain.
  pose proof (group_selects selectedPaths allSelectablePaths
                Hnd Hincl Hplain Hcanon Hscoped) as resolves.
  destruct (grouping_loop selectedPaths) as [groups [Eg Hinv]].
  set (counts := fold_left count_step allSelectablePaths []) in *.
  assert (Eopt : optimized (optimizeSelection selectedPaths allSelectablePaths) =
                 untemplated selectedPaths ++
                 flat_map (emit_group counts) groups).
  { unfold optimizeSelection. destruct selectedPaths as [| p l] eqn:El.
    - cbn in Eg. now injection Eg as <-.
    - rewrite Eg. reflexivity. }
  rewrite Eopt.
  assert (Hun : forall p, In p (untemplated selectedPaths) <->
                          In p selectedPaths /\ toTemplate p = None).
  { intros p. unfold untemplated. rewrite filter_In.
    destruct (toTemplate p); intuition congruence. }
  rewrite parse_format.
  - destruct (resolve_items_spec allSelectablePaths
                (untemplated selectedPaths ++ flat_map (emit_group counts) groups))
      with (res := @nil string) as [res [E [Hres Hin]]].
    + apply Forall_app. split.
      * apply Forall_forall. intros p Hp Hre. exfalso.
        apply Hun in Hp. destruct (plain p (proj1 Hp)) as [_ [Hs _]].
        congruence.
      * apply Forall_flat_map, Forall_forall. intros [k g] Hg.
        now apply (group_items_compile selectedPaths allSelectablePaths
                     Hplain Hcanon groups k g).
    + exists res. split; [assumption |]. split; [apply Hres; constructor |].
      intros q. rewrite Hin. cbn [In]. split.
      * (* what is resolved was selected *)
        intros [[] | [item [Hi Hs]]]. apply in_app_iff in Hi.
        destruct Hi as [Hi | Hi].
        -- apply Hun in Hi. destruct Hi as [Hi _].
           destruct (plain _ Hi) as [_ [Hre _]].
           apply (selects_literal _ _ _ Hre) in Hs. now destruct Hs as [_ ->].
        -- apply in_flat_map in Hi. destruct Hi as [[k g] [Hg Hi]].
           assert (Hq : In q (paths_for k selectedPaths)).
           { apply (resolves groups k g Hinv Hg). eauto. }
           now apply paths_for_In in Hq.
      * (* what was selected is resolved *)
        intros Hq. right. destruct (toTemplate q) as [[k i] |] eqn:T.
        -- assert (Hk : In k (map fst groups)).
           { destruct Hinv as [_ [_ Hcov]]. eapply Hcov; eauto. }
           apply in_map_iff in Hk.
           destruct Hk as [[k' g] [Ek Hg]]. cbn [fst] in Ek. subst k'.
           assert (Hp : In q (paths_for k selectedPaths))
             by (apply paths_for_In; eauto).
           apply (resolves groups k g Hinv Hg) in Hp.
           destruct Hp as [item [Hi Hs]]. exists item. split; [| assumption].
           apply in_app_iff. right. apply in_flat_map. now exists (k, g).
        -- exists q. split.
           ++ apply in_app_iff. left. now apply Hun.
           ++ destruct (plain _ Hq) as [_ [Hre _]].
              apply (selects_literal _ _ _ Hre). split; [now apply Hincl | auto].
  - apply Forall_app. split.
    + apply Forall_forall. intros p Hp. apply Hun in Hp.
      destruct (plain p (proj1 Hp)) as [Hne [_ Hf]]. auto.
    + apply Forall_flat_map, Forall_forall. intros [k g] Hg.
      now apply (group_items_ok selectedPaths allSelectablePaths
                   Hplain Hcanon groups k g).
Qed.

Lemma round_trip_scoped_witness :
  optimized (optimizeSelection mixed_selection mixed_universe) =
  [ "model.norm"; "re:model\.layers\.(0|1|3|5|6)\.mlp\.down_proj";
    "re:model\.layers\.\d+\.self_attn\.q_proj" ] /\
  exists resolved,
    parseIgnoreItems
      (formatIgnoreList (optimized (optimizeSelection mixed_selection mixed_universe)))
      mixed_universe = Some resolved /\
    NoDup resolved /\
    (forall q, In q resolved <-> In q mixed_selection).
Proof.
  split; [reflexivity |].
  apply (round_trip_scoped mixed_selection mixed_universe).
  - repeat constructor; cbn; intuition discriminate.
  - intros x Hx. cbn in Hx |- *. intuition.
  - vm_compute. reflexivity.
  - vm_compute. reflexivity.
  - vm_compute. reflexivity.
Defined.

(** * Further properties *)

(** ** Suffixes and [stripWeightSuffix] *)

Lemma sapp_length a b :
  String.length (a +++ b) = String.length a + String.length b.
Proof.
  induction a as [| c a IH]; cbn [append String.length]; [reflexivity |].
  now rewrite IH.
Qed.

Lemma take_drop n s : Str.take n s +++ Str.drop n s = s.
Proof.
  revert s. induction n as [| n IH]; intros s; [reflexivity |].
  destruct s as [| c s]; [reflexivity |].
  cbn [Str.take Str.drop append]. now rewrite IH.
Qed.

Lemma take_app p s : Str.take (String.length p) (p +++ s) = p.
Proof.
  induction p as [| c p IH]; cbn [String.length append Str.take].
  - now destruct s.
  - now rewrite IH.
Qed.

Lemma drop_app p s : Str.drop (String.length p) (p +++ s) = s.
Proof.
  induction p as [| c p IH]; cbn [String.length append Str.drop]; auto.
Qed.

Lemma endsWith_spec key suffix :
  Str.endsWith key suffix = true <-> exists q, key = q +++ suffix.
Proof.
  unfold Str.endsWith. rewrite andb_true_iff, Nat.leb_le, String.eqb_eq. split.
  - intros [_ E]. exists (Str.take (String.length key - String.length suffix) key).
    pose proof (take_drop (String.length key - String.length suffix) key) as H.
    rewrite E in H. now symmetry.
  - intros [q ->]. rewrite sapp_length. split; [lia |].
    replace (String.length q + String.length suffix - String.length suffix)
      with (String.length q) by lia.
    apply drop_app.
Qed.

Lemma endsWith_app p suffix :
  Str.endsWith (p +++ suffix) suffix = true /\
  Str.take (String.length (p +++ suffix) - String.length suffix) (p +++ suffix) = p.
Proof.
  split; [apply endsWith_spec; now exists p |].
  rewrite sapp_length.
  replace (String.length p + String.length suffix - String.length suffix)
    with (String.length p) by lia.
  apply take_app.
Qed.

(** Two suffixes of one string: one of them ends with the other. *)
Lemma common_end q :
  forall p s1 s2,
    q +++ s2 = p +++ s1 ->
    Str.endsWith s1 s2 = true \/ Str.endsWith s2 s1 = true.
Proof.
  induction q as [| c q IH]; intros p s1 s2 E.
  - right. apply endsWith_spec. exists p. exact E.
  - destruct p as [| c' p].
    + left. apply endsWith_spec. exists (String c q). now symmetry.
    + cbn [append] in E. injection E as _ E. now apply (IH p).
Qed.

Lemma strip_first_app suffixes p suffix :
  In suffix suffixes ->
  (forall s, In s suffixes -> s <> suffix ->
             Str.endsWith suffix s = false /\ Str.endsWith s suffix = false) ->
  strip_first suffixes (p +++ suffix) = p.
Proof.
  induction suffixes as [| s0 suffixes IH]; intros Hin Hdis; [contradiction |].
  cbn [strip_first]. destruct (String.eqb s0 suffix) eqn:E.
  - apply String.eqb_eq in E. subst s0.
    destruct (endsWith_app p suffix) as [-> ->]. reflexivity.
  - apply String.eqb_neq in E.
    destruct (Hdis s0 (or_introl eq_refl) E) as [H1 H2].
    destruct (Str.endsWith (p +++ suffix) s0) eqn:Ee.
    + exfalso. apply endsWith_spec in Ee. destruct Ee as [q Eq].
      symmetry in Eq. destruct (common_end _ _ _ _ Eq); congruence.
    + apply IH.
      * destruct Hin as [-> | Hin]; [contradiction | assumption].
      * intros s Hs. apply Hdis. now right.
Qed.

Lemma WEIGHT_SUFFIXES_disjoint suffix s :
  In suffix WEIGHT_SUFFIXES -> In s WEIGHT_SUFFIXES -> s <> suffix ->
  Str.endsWith suffix s = false /\ Str.endsWith s suffix = false.
Proof.
  unfold WEIGHT_SUFFIXES. cbn [In]. intros H1 H2 Hne.
  repeat (destruct H1 as [<- | H1]);
    repeat (destruct H2 as [<- | H2]);
    try contradiction; try (now elim Hne); split; reflexivity.
Qed.

(** X1. A module path followed by any of the known weight suffixes
    normalizes back to the module path. *)
Theorem stripWeightSuffix_of_suffixed :
  forall p suffix,
    In suffix WEIGHT_SUFFIXES -> stripWeightSuffix (p +++ suffix) = p.
Proof.
  intros p suffix H. unfold stripWeightSuffix.
  apply strip_first_app; [assumption |].
  intros s Hs Hne. now apply WEIGHT_SUFFIXES_disjoint.
Qed.

Lemma stripWeightSuffix_of_suffixed_witness :
  In ".weight_scale" WEIGHT_SUFFIXES /\
  stripWeightSuffix ("model.layers.0.mlp.down_proj" +++ ".weight_scale") =
  "model.layers.0.mlp.down_proj".
Proof.
  assert (H : In ".weight_scale" WEIGHT_SUFFIXES) by (cbn; tauto).
  split; [exact H |].
  exact (stripWeightSuffix_of_suffixed "model.layers.0.mlp.down_proj"
           ".weight_scale" H).
Defined.

Lemma strip_first_cases suffixes key :
  (strip_first suffixes key = key /\
   forall s, In s suffixes -> Str.endsWith key s = false) \/
  (exists s, In s suffixes /\ key = strip_first suffixes key +++ s).
Proof.
  induction suffixes as [| s0 suffixes IH]; cbn [strip_first].
  - left. split; [reflexivity | contradiction].
  - destruct (Str.endsWith key s0) eqn:E.
    + right. exists s0. split; [now left |].
      apply endsWith_spec in E. destruct E as [q ->].
      now destruct (endsWith_app q s0) as [_ ->].
    + destruct IH as [[E1 Hn] | [s [Hs E1]]].
      * left. split; [assumption |]. intros s [<- | Hs]; auto.
      * right. exists s. split; [now right | assumption].
Qed.

(** X2. Normalizing a tensor name removes exactly one known suffix from
    its end, or returns the name unchanged when it ends with none of
    them; only one suffix is removed even when another would follow. *)
Theorem stripWeightSuffix_cases :
  forall key,
    (stripWeightSuffix key = key /\
     forall s, In s WEIGHT_SUFFIXES -> Str.endsWith key s = false) \/
    (exists s, In s WEIGHT_SUFFIXES /\ key = stripWeightSuffix key +++ s).
Proof. intros key. apply strip_first_cases. Qed.

(** ** [escapeRegex] and [toTemplate] *)

Lemma startsWith_spec q s :
  Str.startsWith q s = true <-> exists y, q = s +++ y.
Proof.
  revert q. induction s as [| c s IH]; intros q; cbn [Str.startsWith].
  - split; [intros _; now exists q | reflexivity].
  - destruct q as [| b q].
    + split; [discriminate | intros [y E]; discriminate].
    + rewrite andb_true_iff, IH, Ascii.eqb_eq. split.
      * intros [-> [y ->]]. now exists y.
      * intros [y E]. cbn [append] in E. injection E as -> ->. eauto.
Qed.

Lemma includes_spec q s :
  Str.includes q s = true <-> exists x y, q = x +++ s +++ y.
Proof.
  induction q as [| c q IH]; cbn [Str.includes].
  - rewrite orb_false_r, startsWith_spec. split.
    + intros [y E]. now exists EmptyString, y.
    + intros [x [y E]]. destruct x; [now exists y | discriminate].
  - rewrite orb_true_iff, startsWith_spec, IH. split.
    + intros [[y E] | [x [y ->]]].
      * now exists EmptyString, y.
      * now exists (String c x), y.
    + intros [x [y E]]. destruct x as [| c' x].
      * left. now exists y.
      * right. cbn [append] in E. injection E as _ ->. now exists x, y.
Qed.

(** X3. Escaping neutralizes every metacharacter: the escaped string
    compiles, and as a pattern it matches exactly the paths that contain
    the original string. *)
Theorem escapeRegex_matches_literally :
  forall str,
    RegExp.compile (escapeRegex str) = RegExp.Pattern (lits str RegExp.Empty) /\
    forall q, RegExp.test (lits str RegExp.Empty) q = Str.includes q str.
Proof.
  intros str. split.
  - unfold RegExp.compile.
    rewrite <- (sapp_nil_r (escapeRegex str)), parse_escapeRegex.
    cbn [RegExp.parse]. now rewrite close_push_lits.
  - intros q. apply eq_true_iff_eq. unfold RegExp.test.
    rewrite test_from_spec, includes_spec. split.
    + intros [x [t [-> H]]]. rewrite run_lits in H.
      destruct (strip_prefix str t) as [y |] eqn:E; [| discriminate].
      apply strip_prefix_inv in E. subst t. now exists x, y.
    + intros [x [y ->]]. exists x, (str +++ y). split; [reflexivity |].
      now rewrite run_lits, strip_prefix_app.
Qed.

(** X4. A templated path is a prefix ending with a dot, a run of digits and
    a suffix beginning with a dot; its key is the prefix, the placeholder
    and the suffix; and every path obtained by writing other digits in
    place of the index has the same key. Paths without digits have no
    template. *)
Theorem toTemplate_shape :
  (forall path key index,
      toTemplate path = Some (key, index) ->
      exists pre d suf,
        path = pre +++ d +++ suf /\
        Str.endsWith pre "." = true /\ Str.is_number d = true /\
        Str.startsWith suf "." = true /\
        key = pre +++ INDEX +++ suf /\ index = Num.parseInt d /\
        forall d', Str.is_number d' = true ->
                   toTemplate (pre +++ d' +++ suf) = Some (key, Num.parseInt d')) /\
  (forall path,
      (forall x c y, path = x +++ String c y -> Str.is_digit c = false) ->
      toTemplate path = None).
Proof.
  split.
  - intros path key index H.
    destruct (proj1 (toTemplate_some _ _ _) H) as [pre [d [suf [Hm [-> ->]]]]].
    destruct (match_template_inv _ _ _ _ Hm) as [E [Hd [[c [tl Hs]] Hre]]].
    exists pre, d, suf. repeat split; auto.
    + unfold match_template in Hm.
      destruct (match_template_from_inv _ _ _ _ _ Hm) as [u [-> _]].
      apply endsWith_spec. now exists u.
    + subst suf. reflexivity.
    + intros d' Hd'. apply toTemplate_some. exists pre, d', suf. auto.
  - intros path Hnd. destruct (toTemplate path) as [[key index] |] eqn:T;
      [| reflexivity].
    exfalso.
    destruct (proj1 (toTemplate_some _ _ _) T) as [pre [d [suf [Hm _]]]].
    destruct (match_template_inv _ _ _ _ Hm) as [E [Hd _]].
    destruct d as [| c d]; [discriminate |].
    cbn [Str.is_number Str.all_digits] in Hd. apply andb_true_iff in Hd.
    rewrite (Hnd pre c (d +++ suf)) in Hd; [now destruct Hd |].
    exact E.
Qed.

Lemma toTemplate_shape_witness :
  toTemplate "blocks.7.attn.qkv" = Some ("blocks.{{INDEX}}.attn.qkv", Num.Finite 7) /\
  exists pre d suf,
    "blocks.7.attn.qkv" = pre +++ d +++ suf /\
    Str.endsWith pre "." = true /\ Str.is_number d = true /\
    Str.startsWith suf "." = true /\
    "blocks.{{INDEX}}.attn.qkv" = pre +++ INDEX +++ suf /\
    Num.Finite 7 = Num.parseInt d /\
    forall d', Str.is_number d' = true ->
               toTemplate (pre +++ d' +++ suf) =
               Some ("blocks.{{INDEX}}.attn.qkv", Num.parseInt d').
Proof.
  split; [reflexivity |].
  exact (proj1 toTemplate_shape "blocks.7.attn.qkv" _ _ eq_refl).
Defined.

(** ** Reading a list of paths back *)

Lemma resolve_item_sound U res item res' :
  resolve_item U res item = Some res' ->
  NoDup res -> incl res U -> NoDup res' /\ incl res' U.
Proof.
  unfold resolve_item. intros H Hn Hi.
  destruct (Str.startsWith item "re:").
  - destruct (RegExp.compile (Str.drop 3 item)) as [r | |]; try discriminate.
    + injection H as <-. split; [now apply resolve_regex_NoDup |].
      intros q Hq. apply resolve_regex_In in Hq.
      destruct Hq as [Hq | [Hq _]]; auto.
    + injection H as <-. auto.
  - destruct (Str.mem item U) eqn:E; injection H as <-; [| auto].
    split; [now apply set_add_NoDup |].
    intros q Hq. apply set_add_In in Hq. destruct Hq as [Hq | ->]; auto.
    now apply mem_In.
Qed.

Lemma resolve_items_sound U items :
  forall res res',
    resolve_items U res items = Some res' ->
    NoDup res -> incl res U -> NoDup res' /\ incl res' U.
Proof.
  induction items as [| item items IH]; intros res res' H Hn Hi;
    cbn [resolve_items] in H.
  - injection H as <-. auto.
  - destruct (resolve_item U res item) as [r1 |] eqn:E; [| discriminate].
    destruct (resolve_item_sound _ _ _ _ E Hn Hi) as [Hn1 Hi1].
    exact (IH _ _ H Hn1 Hi1).
Qed.

Lemma parseIgnoreItems_sound_parts text U result :
  parseIgnoreItems text U = Some result -> NoDup result /\ incl result U.
Proof.
  intros H. unfold parseIgnoreItems in H.
  destruct (bracketMatch text) as [inner |].
  - apply (resolve_items_sound U _ [] result H); [constructor |].
    intros q [].
  - injection H as <-. split; [constructor | intros q []].
Qed.

(** X5. Whatever the text, the paths read from it are selectable paths,
    each listed once. *)
Theorem parseIgnoreItems_sound :
  forall text allSelectablePaths result,
    parseIgnoreItems text allSelectablePaths = Some result ->
    NoDup result /\ incl result allSelectablePaths.
Proof.
  intros text U result H. unfold parseIgnoreItems in H.
  destruct (bracketMatch text) as [inner |].
  - apply (resolve_items_sound U _ [] result H); [constructor |].
    intros q [].
  - injection H as <-. split; [constructor | intros q []].
Qed.

Lemma parseIgnoreItems_sound_witness :
  parseIgnoreItems "ignore=['a.b', 're:b', 'zz', 'a.b']" ["a.b"; "b.c"; "c"] =
    Some ["a.b"; "b.c"] /\
  NoDup ["a.b"; "b.c"] /\ incl ["a.b"; "b.c"] ["a.b"; "b.c"; "c"].
Proof.
  split; [reflexivity |].
  exact (parseIgnoreItems_sound
           "ignore=['a.b', 're:b', 'zz', 'a.b']" ["a.b"; "b.c"; "c"] _ eq_refl).
Defined.

(** *** Literal items *)

Lemma set_add_fresh res p : ~ In p res -> set_add res p = res ++ [p].
Proof.
  intros H. unfold set_add. destruct (Str.mem p res) eqn:E; [| reflexivity].
  now apply mem_In in E.
Qed.

Lemma fold_set_add_NoDup l : forall res, NoDup (res ++ l) ->
  fold_left set_add l res = res ++ l.
Proof.
  induction l as [| p l IH]; intros res H; cbn [fold_left].
  - now rewrite app_nil_r.
  - rewrite set_add_fresh.
    + rewrite IH; rewrite <- app_assoc; [reflexivity | exact H].
    + apply NoDup_remove_2 in H. intros Hp. apply H.
      apply in_or_app. now left.
Qed.

Lemma resolve_literals U items :
  Forall (fun i => Str.startsWith i "re:" = false /\ In i U) items ->
  forall res, resolve_items U res items = Some (fold_left set_add items res).
Proof.
  induction 1 as [| i items [Hre Hin] _ IH]; intros res;
    cbn [resolve_items fold_left]; [reflexivity |].
  unfold resolve_item. rewrite Hre.
  rewrite (proj2 (mem_In i U) Hin). apply IH.
Qed.

Lemma no_quote_or_close_no_close s :
  no_quote_or_close s = true -> has_char "]" s = false.
Proof.
  induction s as [| c s IH]; cbn [no_quote_or_close has_char]; [reflexivity |].
  intros H. apply andb_true_iff in H. destruct H as [Hc Hs].
  rewrite (IH Hs), orb_false_r. rewrite Ascii.eqb_sym.
  destruct (Ascii.eqb c "]"); [| reflexivity].
  now rewrite orb_true_r in Hc.
Qed.

Lemma quoted_items_literal item acc rest :
  no_quote_or_close item = true -> acc +++ item <> EmptyString ->
  quoted_items (Some acc) (item +++ String dquote rest) =
  (acc +++ item) :: quoted_items None rest.
Proof.
  revert acc. induction item as [| c item IH]; intros acc Hf Hne.
  - cbn [append quoted_items]. rewrite sapp_nil_r in *.
    change (is_quote dquote) with true. cbv iota.
    destruct acc; [contradiction | reflexivity].
  - cbn [no_quote_or_close] in Hf. apply andb_true_iff in Hf.
    destruct Hf as [Hc Hi].
    cbn [append quoted_items].
    assert (Hq : is_quote c = false) by (now destruct (is_quote c)).
    rewrite Hq, IH.
    + now rewrite sapp_assoc.
    + assumption.
    + rewrite sapp_assoc. cbn [append]. now destruct acc.
Qed.

Lemma quoted_items_literal_lines items :
  Forall (fun i => no_quote_or_close i = true /\ i <> EmptyString) items ->
  quoted_items None (newline +++ join newline (map item_line items) +++ newline) =
  items /\
  has_char "]" (join newline (map item_line items)) = false.
Proof.
  assert (Hline : forall i rest,
             no_quote_or_close i = true -> i <> EmptyString ->
             quoted_items None (newline +++ item_line i +++ rest) =
             i :: quoted_items None rest).
  { intros i rest Hf Hne. unfold item_line, newline.
    change ("    " +++ String dquote (i +++ String dquote ","))
      with (String " " (String " " (String " " (String " "
              (String dquote (i +++ String dquote ",")))))).
    cbn [append quoted_items].
    change (is_quote "010") with false.
    change (is_quote " ") with false. change (is_quote dquote) with true.
    cbv iota. rewrite sapp_assoc. cbn [append].
    rewrite quoted_items_literal by assumption.
    cbn [append quoted_items]. change (is_quote ",") with false. reflexivity. }
  assert (Hclose : forall i, no_quote_or_close i = true ->
                             has_char "]" (item_line i) = false).
  { intros i Hf. unfold item_line. rewrite has_char_app. cbn [has_char].
    now rewrite has_char_app, (no_quote_or_close_no_close i Hf). }
  induction items as [| i items IH]; intros H; [now split |].
  inversion H as [| ? ? [Hf Hne] Hrest]; subst.
  destruct items as [| i2 items].
  - cbn [map join]. split; [| now apply Hclose].
    rewrite Hline by assumption. reflexivity.
  - change (join newline (map item_line (i :: i2 :: items)))
      with (item_line i +++ newline +++ join newline (map item_line (i2 :: items))).
    destruct (IH Hrest) as [IH1 IH2]. split.
    + rewrite !sapp_assoc, Hline by assumption. f_equal. exact IH1.
    + rewrite !has_char_app, (Hclose i Hf), IH2. reflexivity.
Qed.

Lemma parse_format_literal items allSelectablePaths :
  Forall (fun i => no_quote_or_close i = true /\ i <> EmptyString) items ->
  parseIgnoreItems (formatIgnoreList items) allSelectablePaths =
  resolve_items allSelectablePaths [] items.
Proof.
  intros H. destruct items as [| i items]; [reflexivity |].
  destruct (quoted_items_literal_lines _ H) as [Hq Hc].
  unfold formatIgnoreList, formatStringList.
  set (body := join newline (map item_line (i :: items))) in *.
  assert (E : bracketMatch ("ignore=" +++ "[" +++ (newline +++ body +++ newline)
                              +++ "]" +++ EmptyString) =
              Some (newline +++ body +++ newline)).
  { apply bracketMatch_found; [reflexivity |].
    rewrite !has_char_app, Hc. reflexivity. }
  unfold parseIgnoreItems.
  replace ("ignore=" +++ "[" +++ newline +++
           join newline (map (fun item => "    " +++ String dquote (item +++ String dquote ","))
                             (i :: items)) +++ newline +++ "]")
    with ("ignore=" +++ "[" +++ (newline +++ body +++ newline) +++ "]" +++ EmptyString).
  - rewrite E. now rewrite Hq.
  - unfold body. rewrite !sapp_assoc. reflexivity.
Qed.

Lemma literal_path_facts p :
  literal_path p = true ->
  p <> EmptyString /\ Str.startsWith p "re:" = false /\
  no_quote_or_close p = true.
Proof.
  unfold literal_path. intros H.
  apply andb_true_iff in H. destruct H as [H H3].
  apply andb_true_iff in H. destruct H as [H1 H2].
  apply negb_true_iff in H1, H2. apply String.eqb_neq in H1. auto.
Qed.

(** X6. The explicit form reads back as the selection: when every selected
    path is selectable and can stand between quotes, the text of the
    explicit list resolves to the selected paths in their order, later
    duplicates dropped, hence to the selection itself when it has none. *)
Theorem explicit_round_trip :
  forall selectedPaths allSelectablePaths,
    incl selectedPaths allSelectablePaths ->
    forallb literal_path selectedPaths = true ->
    parseIgnoreItems
      (formatIgnoreList (explicit (optimizeSelection selectedPaths allSelectablePaths)))
      allSelectablePaths = Some (fold_left set_add selectedPaths []) /\
    (NoDup selectedPaths -> fold_left set_add selectedPaths [] = selectedPaths).
Proof.
  intros sel U Hincl Hlit. split; [| intros Hn; now apply fold_set_add_NoDup].
  destruct sel as [| p sel]; [reflexivity |].
  change (explicit (optimizeSelection (p :: sel) U)) with (explicit
    (let (templateGroups, nonTemplated) :=
       fold_left group_step (p :: sel) ([], []) in
     mkSelection (p :: sel)
       (nonTemplated ++
        flat_map (emit_group (fold_left count_step U [])) templateGroups))).
  destruct (fold_left group_step (p :: sel) ([], [])) as [tg nt].
  cbn [explicit].
  assert (Hall : forall i, In i (p :: sel) ->
                           i <> EmptyString /\ Str.startsWith i "re:" = false /\
                           no_quote_or_close i = true).
  { intros i Hi. apply literal_path_facts.
    exact (proj1 (forallb_forall _ _) Hlit i Hi). }
  rewrite parse_format_literal.
  - apply resolve_literals. apply Forall_forall. intros i Hi.
    destruct (Hall i Hi) as [? [? ?]]. auto.
  - apply Forall_forall. intros i Hi. destruct (Hall i Hi) as [? [? ?]]. auto.
Qed.

Lemma explicit_round_trip_witness :
  parseIgnoreItems
    (formatIgnoreList (explicit (optimizeSelection
       ["lm_head"; "model.layers.0.mlp.{gate}"] ["model.layers.0.mlp.{gate}"; "lm_head"])))
    ["model.layers.0.mlp.{gate}"; "lm_head"] =
  Some ["lm_head"; "model.layers.0.mlp.{gate}"].
Proof.
  destruct (explicit_round_trip
              ["lm_head"; "model.layers.0.mlp.{gate}"]
              ["model.layers.0.mlp.{gate}"; "lm_head"]) as [H _].
  - intros q [<- | [<- | []]]; cbn [In]; auto.
  - reflexivity.
  - exact H.
Defined.

(** *** The recipe *)

Lemma until_close_app a b :
  has_char "]" a = true -> until_close (a +++ b) = until_close a.
Proof.
  induction a as [| c a IH]; cbn [has_char append until_close];
    [discriminate |].
  intros H. rewrite Ascii.eqb_sym in H.
  destruct (Ascii.eqb c "]"); [reflexivity |]. now rewrite IH.
Qed.

Lemma until_close_closed a :
  has_char "]" a = true -> exists inner, until_close a = Some inner.
Proof.
  induction a as [| c a IH]; cbn [has_char until_close]; [discriminate |].
  intros H. rewrite Ascii.eqb_sym in H.
  destruct (Ascii.eqb c "]"); [now exists EmptyString |].
  destruct (IH H) as [inner ->]. now exists (String c inner).
Qed.

Lemma bracketMatch_skip h t :
  has_char "[" h = false -> bracketMatch (h +++ t) = bracketMatch t.
Proof.
  induction h as [| c h IH]; cbn [has_char append]; [reflexivity |].
  intros H. apply orb_false_iff in H. destruct H as [Hc Hh].
  rewrite Ascii.eqb_sym in Hc. cbn [bracketMatch]. rewrite Hc. now apply IH.
Qed.

Lemma formatStringList_shape items :
  exists r, formatStringList items = String "[" r /\ has_char "]" r = true.
Proof.
  destruct items as [| i items].
  - now exists "]".
  - unfold formatStringList. eexists. split; [reflexivity |].
    rewrite !has_char_app. cbn [has_char]. rewrite Ascii.eqb_refl.
    now rewrite !orb_true_r.
Qed.

Lemma formatRecipe_eq items modifier scheme kvCacheScheme :
  formatRecipe items modifier scheme kvCacheScheme =
  recipe_head modifier scheme +++ formatStringList items +++
  recipe_tail kvCacheScheme.
Proof.
  unfold formatRecipe, recipe_head, recipe_tail.
  destruct kvCacheScheme; cbn [formatKVCacheScheme app join];
    rewrite !sapp_assoc; reflexivity.
Qed.

(** X7. Whatever the items, the modifier, the scheme and the cache preset,
    the text of the recipe is read exactly as the text of the bare list of
    the same items: the first bracketed span of a recipe is its list. *)
Theorem recipe_reads_as_ignore_list :
  forall items modifier scheme kvCacheScheme allSelectablePaths,
    parseIgnoreItems (formatRecipe items modifier scheme kvCacheScheme)
                     allSelectablePaths =
    parseIgnoreItems (formatIgnoreList items) allSelectablePaths.
Proof.
  intros items m s kv U. unfold parseIgnoreItems.
  replace (bracketMatch (formatRecipe items m s kv))
    with (bracketMatch (formatIgnoreList items)); [reflexivity |].
  rewrite formatRecipe_eq. unfold formatIgnoreList.
  destruct (formatStringList_shape items) as [r [-> Hr]].
  rewrite (bracketMatch_skip "ignore=") by reflexivity.
  rewrite (bracketMatch_skip (recipe_head m s)) by now destruct m, s.
  cbn [append bracketMatch]. rewrite Ascii.eqb_refl.
  rewrite until_close_app by assumption.
  destruct (until_close_closed r Hr) as [inner ->]. reflexivity.
Qed.

(** ** The optimized form, without assumptions on the universe *)

Lemma untemplated_In l p :
  In p (untemplated l) <-> In p l /\ toTemplate p = None.
Proof.
  unfold untemplated. rewrite filter_In.
  destruct (toTemplate p); intuition congruence.
Qed.

Lemma optimized_eq selectedPaths allSelectablePaths :
  exists groups,
    groups_inv selectedPaths groups /\
    optimized (optimizeSelection selectedPaths allSelectablePaths) =
    untemplated selectedPaths ++
    flat_map (emit_group (fold_left count_step allSelectablePaths [])) groups.
Proof.
  destruct (grouping_loop selectedPaths) as [groups [Eg Hinv]].
  exists groups. split; [assumption |].
  unfold optimizeSelection. destruct selectedPaths as [| p l] eqn:El.
  - cbn in Eg. now injection Eg as <-.
  - rewrite Eg. reflexivity.
Qed.

(** The rules of one group select every selected path of the group. *)
Lemma group_covers selectedPaths allSelectablePaths groups k g q :
  incl selectedPaths allSelectablePaths ->
  forallb plain_path selectedPaths = true ->
  forallb canonical_index selectedPaths = true ->
  groups_inv selectedPaths groups -> In (k, g) groups ->
  In q (paths_for k selectedPaths) ->
  exists item,
    In item (emit_group (fold_left count_step allSelectablePaths []) (k, g)) /\
    selects allSelectablePaths item q.
Proof.
  intros Hincl Hplain Hcanon Hinv Hg Hq.
  pose proof (member_in_universe _ _ Hincl k q Hq) as HqU.
  destruct (index_of_path _ Hplain Hcanon _ _ _ Hinv Hg q Hq) as [i [Hi E]].
  pose proof (sorted_numbers _ Hplain Hcanon _ _ _ Hinv Hg) as Hn.
  rewrite emit_group_cases.
  destruct (_ =? _)%nat; [| destruct (_ <=? 3)%nat eqn:E3].
  - eexists. split; [now left |].
    apply (selects_regex _ _ _ _ (compile_wildcard (prefix g) (suffix g))).
    split; [assumption |]. apply test_wildcard.
    exists EmptyString, (Num.toString i), EmptyString.
    rewrite sapp_nil_r. split; [exact E |].
    rewrite Forall_forall in Hn. apply Hn, in_map, Hi.
  - exists (prefix g +++ Num.toString i +++ suffix g).
    split; [apply in_map_iff; now exists i |].
    apply paths_for_In in Hq. destruct Hq as [Hsel _].
    destruct (plain_facts _ Hplain _ Hsel) as [_ [Hre _]]. rewrite <- E.
    now apply (selects_literal _ _ _ Hre).
  - pose proof (compile_alternation (prefix g) _ (suffix g) (sorted_many g E3) Hn)
      as Hc.
    eexists. split; [now left |].
    apply (selects_regex _ _ _ _ Hc). split; [assumption |].
    apply (test_alternation _ _ _ _ (sorted_many g E3)).
    exists EmptyString, (Num.toString i), EmptyString.
    rewrite sapp_nil_r. split; [now apply in_map | exact E].
Qed.

(** X8. The optimized form never loses a selected path: for a selection
    inside the universe whose paths are plain and carry their layer index
    in the printed form, the emitted list is read back, and what it resolves
    to contains every selected path. Nothing is assumed about the other
    paths of the universe, and the selection may repeat paths. *)
Theorem optimized_form_covers_selection :
  forall selectedPaths allSelectablePaths,
    incl selectedPaths allSelectablePaths ->
    forallb plain_path selectedPaths = true ->
    forallb canonical_index selectedPaths = true ->
    exists resolved,
      parseIgnoreItems
        (formatIgnoreList
           (optimized (optimizeSelection selectedPaths allSelectablePaths)))
        allSelectablePaths = Some resolved /\
      incl selectedPaths resolved.
Proof.
  intros sel U Hincl Hplain Hcanon.
  pose proof (plain_facts sel Hplain) as plain.
  destruct (optimized_eq sel U) as [groups [Hinv ->]].
  set (counts := fold_left count_step U []).
  rewrite parse_format.
  - destruct (resolve_items_spec U
                (untemplated sel ++ flat_map (emit_group counts) groups))
      with (res := @nil string) as [res [E [_ Hin]]].
    + apply Forall_app. split.
      * apply Forall_forall. intros p Hp Hre. exfalso.
        apply untemplated_In in Hp. destruct (plain p (proj1 Hp)) as [_ [Hs _]].
        congruence.
      * apply Forall_flat_map, Forall_forall. intros [k g] Hg.
        now apply (group_items_compile sel U Hplain Hcanon groups k g).
    + exists res. split; [assumption |].
      intros q Hq. apply Hin. right.
      destruct (toTemplate q) as [[k i] |] eqn:T.
      * assert (Hk : In k (map fst groups)).
        { destruct Hinv as [_ [_ Hcov]]. eapply Hcov; eauto. }
        apply in_map_iff in Hk.
        destruct Hk as [[k' g] [Ek Hg]]. cbn [fst] in Ek. subst k'.
        assert (Hp : In q (paths_for k sel)) by (apply paths_for_In; eauto).
        destruct (group_covers sel U groups k g q Hincl Hplain Hcanon Hinv Hg Hp)
          as [item [Hi Hs]].
        exists item. split; [| assumption].
        apply in_app_iff. right. apply in_flat_map. now exists (k, g).
      * exists q. split.
        -- apply in_app_iff. left. now apply untemplated_In.
        -- destruct (plain _ Hq) as [_ [Hre _]].
           apply (selects_literal _ _ _ Hre). split; [now apply Hincl | auto].
  - apply Forall_app. split.
    + apply Forall_forall. intros p Hp. apply untemplated_In in Hp.
      destruct (plain p (proj1 Hp)) as [Hne [_ Hf]]. auto.
    + apply Forall_flat_map, Forall_forall. intros [k g] Hg.
      now apply (group_items_ok sel U Hplain Hcanon groups k g).
Qed.

Lemma optimized_form_covers_selection_witness :
  exists resolved,
    parseIgnoreItems
      (formatIgnoreList
         (optimized (optimizeSelection ["model.layers.0.mlp"; "model.layers.0.mlp"]
                                       overlapping_universe)))
      overlapping_universe = Some resolved /\
    incl ["model.layers.0.mlp"; "model.layers.0.mlp"] resolved.
Proof.
  apply (optimized_form_covers_selection
           ["model.layers.0.mlp"; "model.layers.0.mlp"] overlapping_universe).
  - intros q [<- | [<- | []]]; cbn [overlapping_universe In]; auto.
  - reflexivity.
  - vm_compute. reflexivity.
Defined.

(** *** The number of rules *)

Lemma paths_for_cons k p l :
  paths_for k (p :: l) =
  (if match toTemplate p with
      | Some (k', _) => String.eqb k' k
      | None => false
      end then [p] else []) ++ paths_for k l.
Proof. unfold paths_for. cbn [filter]. now destruct (match toTemplate p with Some _ => _ | None => _ end). Qed.

Lemma list_sum_cons x l : list_sum (x :: l) = x + list_sum l.
Proof. reflexivity. Qed.

Lemma key_count keys k' :
  NoDup keys ->
  list_sum (map (fun k => if String.eqb k' k then 1 else 0) keys) <= 1.
Proof.
  induction 1 as [| k keys Hk _ IH]; cbn [map]; rewrite ?list_sum_cons;
    [cbn; lia |].
  destruct (String.eqb k' k) eqn:E; [| lia].
  apply String.eqb_eq in E. subst k'.
  assert (Z : list_sum (map (fun k0 => if String.eqb k k0 then 1 else 0) keys) = 0).
  { clear IH. induction keys as [| x keys IH]; [reflexivity |].
    cbn [map]; rewrite ?list_sum_cons. destruct (String.eqb k x) eqn:E.
    - apply String.eqb_eq in E. subst x. elim Hk. now left.
    - rewrite IH; [reflexivity |]. intros H. apply Hk. now right. }
  lia.
Qed.

Lemma group_sizes keys l :
  NoDup keys ->
  list_sum (map (fun k => List.length (paths_for k l)) keys) +
  List.length (untemplated l) <= List.length l.
Proof.
  intros Hk. induction l as [| p l IH]; cbn [List.length].
  - assert (Z : list_sum (map (fun k => List.length (paths_for k [])) keys) = 0).
    { clear Hk. induction keys; [reflexivity | assumption]. }
    rewrite Z. reflexivity.
  - assert (E : list_sum (map (fun k => List.length (paths_for k (p :: l))) keys) =
                list_sum (map (fun k => match toTemplate p with
                                        | Some (k', _) =>
                                            if String.eqb k' k then 1 else 0
                                        | None => 0
                                        end) keys) +
                list_sum (map (fun k => List.length (paths_for k l)) keys)).
    { clear. induction keys as [| k keys IHk]; [reflexivity |].
      cbn [map]; rewrite ?list_sum_cons. rewrite IHk, paths_for_cons, length_app.
      set (a := list_sum (map (fun k0 => List.length (paths_for k0 l)) keys)).
      set (b := List.length (paths_for k l)).
      destruct (toTemplate p) as [[k' i] |].
      - set (c := list_sum (map (fun k0 => if String.eqb k' k0 then 1 else 0) keys)).
        destruct (String.eqb k' k); cbn [List.length]; lia.
      - set (c := list_sum (map (fun _ : string => 0) keys)).
        cbn [List.length]. lia. }
    rewrite E. unfold untemplated. cbn [filter]. fold (untemplated l).
    destruct (toTemplate p) as [[k' i] |].
    + pose proof (key_count keys k' Hk). lia.
    + assert (Z : list_sum (map (fun _ : string => 0) keys) = 0).
      { clear. induction keys; [reflexivity | assumption]. }
      rewrite Z. cbn [List.length]. lia.
Qed.

Lemma emit_group_length U l groups k g :
  groups_inv l groups -> In (k, g) groups ->
  List.length (emit_group (fold_left count_step U []) (k, g)) <=
  List.length (paths_for k l).
Proof.
  intros Hinv Hg. destruct Hinv as [_ [Hent _]].
  destruct (Hent _ _ Hg) as [_ [Hix [p0 [d0 [Hp0 [Hm0 Hk0]]]]]].
  assert (Hlen : List.length (Array_sort by_value (indices g)) =
                 List.length (paths_for k l))
    by now rewrite Array_sort_length, Hix, indices_for_length.
  assert (Hpos : 1 <= List.length (paths_for k l)).
  { assert (H0 : In p0 (paths_for k l)).
    { apply paths_for_In. split; [assumption |].
      exists (Num.parseInt d0). apply toTemplate_some.
      exists (prefix g), d0, (suffix g). auto. }
    destruct (paths_for k l); [contradiction | cbn [List.length]; lia]. }
  rewrite emit_group_cases.
  destruct (_ =? _)%nat; [| destruct (_ <=? 3)%nat].
  - exact Hpos.
  - now rewrite length_map, Hlen.
  - exact Hpos.
Qed.

(** X9. The optimized list is never longer than the selection: every
    selected path without layer index stays one item, and the selected
    paths of one template become at most as many items as they are. *)
Theorem optimized_no_longer_than_selection :
  forall selectedPaths allSelectablePaths,
    List.length (optimized (optimizeSelection selectedPaths allSelectablePaths))
    <= List.length selectedPaths.
Proof.
  intros sel U. destruct (optimized_eq sel U) as [groups [Hinv ->]].
  rewrite length_app.
  assert (H : List.length
                (flat_map (emit_group (fold_left count_step U [])) groups) <=
              list_sum (map (fun k => List.length (paths_for k sel))
                            (map fst groups))).
  { assert (Hall : forall k g, In (k, g) groups ->
               List.length (emit_group (fold_left count_step U []) (k, g)) <=
               List.length (paths_for k sel))
      by (intros k g Hg; now apply (emit_group_length U sel groups)).
    clear Hinv. induction groups as [| [k g] groups IH]; [reflexivity |].
    cbn [flat_map map fst]. rewrite list_sum_cons, length_app.
    pose proof (Hall k g (or_introl eq_refl)).
    assert (IH' := IH (fun k' g' H' => Hall k' g' (or_intror H'))). lia. }
  destruct Hinv as [Hnd _].
  pose proof (group_sizes (map fst groups) sel Hnd). lia.
Qed.

(** ** The selectable paths of a tree *)

Section WalkFacts.
Context {num : Type}.
Local Abbreviation node := (LayerNode num).

Lemma flat_map_walk_Forall2 (R : node -> node -> Prop) (l l' : list node) :
  Forall (fun x => forall y, R x y -> Permutation (walk_paths x) (walk_paths y)) l ->
  Forall2 R l l' ->
  Permutation (flat_map walk_paths l) (flat_map walk_paths l').
Proof.
  intros HF H2. induction H2 as [| x y l l' Hxy _ IH]; [constructor |].
  inversion HF as [| ? ? Hx Hl]; subst. cbn [flat_map].
  apply Permutation_app; auto.
Qed.

Lemma walk_paths_reordered (n : node) :
  forall n', reordered n n' -> Permutation (walk_paths n) (walk_paths n').
Proof.
  induction n as [i nm fp t ch sel pc IH] using LayerNode_tree_ind.
  intros n' H. inversion H as [? ? ? ? ? ? ? mid ch' H2 Hp]; subst.
  cbn [walk_paths]. apply Permutation_app_head.
  transitivity (flat_map walk_paths mid).
  - now apply (flat_map_walk_Forall2 reordered).
  - now apply Permutation_flat_map.
Qed.

Lemma collect_reordered (l l' : list node) :
  reordered_forest l l' ->
  Permutation (collectSelectablePaths l) (collectSelectablePaths l').
Proof.
  intros [mid [H2 Hp]]. unfold collectSelectablePaths.
  transitivity (flat_map walk_paths mid).
  - apply (flat_map_walk_Forall2 reordered); [| assumption].
    apply Forall_forall. intros x _. apply walk_paths_reordered.
  - now apply Permutation_flat_map.
Qed.

Lemma sortForwardPass_reordered (nodes : list node) :
  reordered_forest nodes (sortForwardPass nodes).
Proof.
  exists (map sort_node nodes). split.
  - apply Forall2_map_r, Forall_forall. intros x _. apply sort_node_reordered.
  - apply Array_sort_perm.
Qed.

Section Counts.
Variable add : num -> num -> num.
Variable zero : num.

Lemma walk_paths_attach mp (n : node) :
  walk_paths (attach_node add zero mp n) = walk_paths n.
Proof.
  induction n as [i nm fp t ch sel pc IH] using LayerNode_tree_ind.
  destruct ch as [| c ch]; [reflexivity |].
  cbn [attach_node walk_paths]. f_equal.
  rewrite flat_map_concat_map, map_map, <- flat_map_concat_map.
  rewrite !flat_map_concat_map. f_equal. now apply map_ext_Forall.
Qed.

(** X10. Sorting for the forward pass and collapsing the numbered layers
    only permute the selectable paths of a tree, and attaching parameter
    counts leaves them as they are: the tree that is shown has the paths
    the selection was set up with. *)
Theorem selectable_paths_kept :
  forall (nodes : list node) (tensorParamCounts : list (string * num)),
    Permutation (collectSelectablePaths nodes)
                (collectSelectablePaths (sortForwardPass nodes)) /\
    Permutation (collectSelectablePaths nodes)
                (collectSelectablePaths (collapseNumberedLayers nodes)) /\
    collectSelectablePaths (attachParamCounts add zero nodes tensorParamCounts) =
    collectSelectablePaths nodes.
Proof.
  intros nodes counts. split; [| split].
  - apply collect_reordered, sortForwardPass_reordered.
  - apply collect_reordered, collapse_reordered.
  - unfold attachParamCounts, attach, collectSelectablePaths.
    rewrite !flat_map_concat_map, map_map. f_equal.
    apply map_ext. intros n. apply walk_paths_attach.
Qed.

(** *** The counts of the selectable leaves *)

Lemma mem_app s a b : Str.mem s (a ++ b) = Str.mem s a || Str.mem s b.
Proof. apply existsb_app. Qed.

Lemma walk_counts_fold (f : node -> node) (value : string -> num) p
    (cs : list node) :
  Forall (fun c => forall m,
            JsMap.get (walk_counts (f c) m) p =
            if Str.mem p (walk_paths c) then Some (value p) else JsMap.get m p) cs ->
  forall m,
    JsMap.get (fold_left (fun m child => walk_counts child m) (map f cs) m) p =
    if Str.mem p (flat_map walk_paths cs) then Some (value p) else JsMap.get m p.
Proof.
  induction 1 as [| c cs Hc _ IH]; intros m; [reflexivity |].
  cbn [map fold_left flat_map]. rewrite IH, Hc, mem_app.
  now destruct (Str.mem p (walk_paths c)), (Str.mem p (flat_map walk_paths cs)).
Qed.

Lemma walk_counts_attach mp p (n : node) :
  selectable_leaves n ->
  forall m,
    JsMap.get (walk_counts (attach_node add zero mp n) m) p =
    if Str.mem p (walk_paths n)
    then Some (nullish (JsMap.get mp p) zero)
    else JsMap.get m p.
Proof.
  induction n as [i nm fp t ch sel pc IH] using LayerNode_tree_ind.
  intros Hsl m. inversion Hsl as [? Hsel Hch]; subst.
  cbn [isSelectable children] in Hsel, Hch.
  destruct ch as [| c ch].
  - cbn [attach_node walk_counts walk_paths fold_left flat_map].
    rewrite app_nil_r. destruct sel; [| reflexivity].
    rewrite JsMap_get_set. cbn [Str.mem existsb]. rewrite orb_false_r.
    rewrite String.eqb_sym. destruct (String.eqb p fp) eqn:E; [| reflexivity].
    apply String.eqb_eq in E. now subst.
  - assert (Es : sel = false).
    { destruct sel; [| reflexivity]. now specialize (Hsel eq_refl). }
    subst sel. cbn [attach_node walk_counts walk_paths app].
    apply (walk_counts_fold (attach_node add zero mp)
             (fun q => nullish (JsMap.get mp q) zero)).
    apply Forall_forall. intros x Hx.
    rewrite Forall_forall in IH, Hch. auto.
Qed.

(** X11. After the counts are attached, the map of leaf counts has an
    entry exactly for the selectable paths, and the entry of a path is the
    sum of the counts of its module's tensors, when selectable nodes have
    no children. *)
Theorem leaf_counts_after_attach :
  forall (nodes : list node) (tensorParamCounts : list (string * num)) p,
    Forall selectable_leaves nodes ->
    JsMap.get
      (collectLeafParamCounts (attachParamCounts add zero nodes tensorParamCounts))
      p =
    if Str.mem p (collectSelectablePaths nodes)
    then Some (fold_left add (tensors_of p tensorParamCounts) zero)
    else None.
Proof.
  intros nodes counts p Hsl.
  unfold collectLeafParamCounts, attachParamCounts, attach, collectSelectablePaths.
  rewrite (walk_counts_fold (attach_node add zero (moduleParams add zero counts))
             (fun q => nullish (JsMap.get (moduleParams add zero counts) q) zero)).
  - now rewrite moduleParams_get.
  - apply Forall_forall. intros x Hx m. apply walk_counts_attach.
    rewrite Forall_forall in Hsl. auto.
Qed.
End Counts.
End WalkFacts.

Lemma leaf_counts_after_attach_witness :
  JsMap.get
    (collectLeafParamCounts
       (attachParamCounts N.add 0%N counted_example counted_example_counts))
    "mlp.down_proj" = Some 250%N.
Proof.
  rewrite (leaf_counts_after_attach N.add 0%N counted_example).
  - reflexivity.
  - repeat constructor; cbn; try discriminate; repeat constructor;
      cbn; try discriminate; constructor.
Defined.

(** ** From the weight map to the selectable paths *)

(** *** Splitting and joining at dots *)

Lemma split_from_nonempty cur s : split_from cur s <> [].
Proof.
  revert cur. induction s as [| c s IH]; intros cur; cbn [split_from].
  - discriminate.
  - destruct (Ascii.eqb c "."); [discriminate | apply IH].
Qed.

Lemma join_cons sep x l :
  l <> [] -> join sep (x :: l) = x +++ sep +++ join sep l.
Proof. destruct l; [contradiction | reflexivity]. Qed.

Lemma join_split_from cur s : join "." (split_from cur s) = cur +++ s.
Proof.
  revert cur. induction s as [| c s IH]; intros cur; cbn [split_from].
  - cbn [join]. now rewrite sapp_nil_r.
  - destruct (Ascii.eqb c ".") eqn:E.
    + apply Ascii.eqb_eq in E. subst c.
      rewrite join_cons by apply split_from_nonempty. now rewrite IH.
    + rewrite IH, sapp_assoc. reflexivity.
Qed.

Lemma segment_app a b : segment a -> segment b -> segment (a +++ b).
Proof. unfold segment. intros Ha Hb. now rewrite has_char_app, Ha, Hb. Qed.

Lemma split_from_segments cur s :
  segment cur -> Forall segment (split_from cur s).
Proof.
  revert cur. induction s as [| c s IH]; intros cur Hc; cbn [split_from].
  - now constructor.
  - destruct (Ascii.eqb c ".") eqn:E.
    + constructor; [assumption | now apply IH].
    + apply IH, segment_app; [assumption |].
      unfold segment. cbn [has_char]. now rewrite Ascii.eqb_sym, E.
Qed.

Lemma split_from_segment cur x rest :
  segment x -> split_from cur (x +++ rest) = split_from (cur +++ x) rest.
Proof.
  revert cur. induction x as [| c x IH]; intros cur Hx.
  - now rewrite sapp_nil_r.
  - unfold segment in Hx. cbn [has_char] in Hx. apply orb_false_iff in Hx.
    destruct Hx as [Hc Hx]. cbn [append split_from].
    rewrite Ascii.eqb_sym, Hc, (IH _ Hx), sapp_assoc. reflexivity.
Qed.

Lemma split_join segs :
  Forall segment segs -> segs <> [] -> split_dot (join "." segs) = segs.
Proof.
  unfold split_dot. induction 1 as [| x l Hx Hl IH]; intros Hne; [contradiction |].
  destruct l as [| y l].
  - cbn [join]. rewrite <- (sapp_nil_r x) at 1.
    now rewrite split_from_segment.
  - rewrite join_cons by discriminate. rewrite split_from_segment by assumption.
    cbn [append split_from]. rewrite IH by discriminate. reflexivity.
Qed.

Lemma split_from_dot cur a b :
  split_from cur (a +++ "." +++ b) = split_from cur a ++ split_dot b.
Proof.
  revert cur. induction a as [| c a IH]; intros cur; [reflexivity |].
  cbn [append split_from]. destruct (Ascii.eqb c "."); now rewrite IH.
Qed.

Lemma join_app sep a b :
  a <> [] -> b <> [] -> join sep (a ++ b) = join sep a +++ sep +++ join sep b.
Proof.
  intros Ha Hb. induction a as [| x a IH]; [contradiction |].
  destruct a as [| y a].
  - cbn [app]. now rewrite join_cons.
  - change ((x :: y :: a) ++ b) with (x :: ((y :: a) ++ b)).
    rewrite !join_cons by discriminate. rewrite IH by discriminate.
    now rewrite !sapp_assoc.
Qed.

(** Some path of [M] continues [p] below a dot. *)
Lemma extends_iff (M : list string) p :
  (exists m x r, In m M /\ split_dot m = split_dot p ++ x :: r) <->
  (exists r, In (p +++ "." +++ r) M).
Proof.
  split.
  - intros [m [x [r [Hm E]]]]. exists (join "." (x :: r)).
    replace (p +++ "." +++ join "." (x :: r)) with m; [assumption |].
    assert (Em : join "." (split_dot m) = m) by apply join_split_from.
    rewrite <- Em, E.
    rewrite join_app; [| apply split_from_nonempty | discriminate].
    unfold split_dot. now rewrite join_split_from.
  - intros [r Hr]. exists (p +++ "." +++ r).
    destruct (split_dot r) as [| x l] eqn:E;
      [now apply split_from_nonempty in E |].
    exists x, l. split; [assumption |].
    unfold split_dot. now rewrite split_from_dot, <- E.
Qed.

(** *** Maps with distinct keys *)

Lemma JsMap_get_In {V} (m : list (string * V)) k v :
  JsMap.get m k = Some v -> In (k, v) m.
Proof.
  induction m as [| [k' v'] m IH]; cbn [JsMap.get]; [discriminate |].
  destruct (String.eqb k' k) eqn:E.
  - intros H. injection H as <-. apply String.eqb_eq in E. subst. now left.
  - intros H. right. auto.
Qed.

Lemma JsMap_In_get {V} (m : list (string * V)) k v :
  NoDup (map fst m) -> In (k, v) m -> JsMap.get m k = Some v.
Proof.
  induction m as [| [k' v'] m IH]; cbn [map fst JsMap.get]; intros Hn H;
    [contradiction |].
  inversion Hn as [| ? ? Hk Hm]; subst. destruct H as [H | H].
  - injection H as -> ->. now rewrite String.eqb_refl.
  - destruct (String.eqb k' k) eqn:E; [| auto].
    apply String.eqb_eq in E. subst k'. elim Hk.
    apply in_map_iff. now exists (k, v).
Qed.

Lemma JsMap_set_In {V} (m : list (string * V)) k v k' v' :
  In (k', v') (JsMap.set m k v) -> (k' = k /\ v' = v) \/ In (k', v') m.
Proof.
  induction m as [| [k0 v0] m IH]; cbn [JsMap.set].
  - intros [H | []]. injection H as <- <-. auto.
  - destruct (String.eqb k0 k); cbn [In]; intros [H | H].
    + injection H as <- <-. auto.
    + auto.
    + auto.
    + destruct (IH H); auto.
Qed.

Lemma JsMap_set_keys {V} (m : list (string * V)) k v :
  NoDup (map fst m) -> NoDup (map fst (JsMap.set m k v)).
Proof.
  induction m as [| [k0 v0] m IH]; cbn [JsMap.set map fst].
  - intros _. repeat constructor. intros [].
  - intros Hn. inversion Hn as [| ? ? Hk Hm]; subst.
    destruct (String.eqb k0 k) eqn:E; cbn [map fst].
    + apply String.eqb_eq in E. subst. now constructor.
    + constructor; [| auto]. intros Hin. apply in_map_iff in Hin.
      destruct Hin as [[k1 v1] [E1 Hin]]. cbn [fst] in E1. subst k1.
      apply JsMap_set_In in Hin. destruct Hin as [[-> _] | Hin].
      * rewrite String.eqb_refl in E. discriminate.
      * apply Hk. apply in_map_iff. now exists (k0, v1).
Qed.

(** *** Inserting a path *)

Lemma leaf_at_cons t x r :
  leaf_at t (x :: r) <->
  exists c, JsMap.get (Trie.children t) x = Some c /\ leaf_at c r.
Proof.
  unfold leaf_at. cbn [descend].
  destruct (JsMap.get (Trie.children t) x) as [c |].
  - split; [intros H; now exists c | intros [c' [E H]]; now injection E as ->].
  - split; [intros [n [E _]]; discriminate | intros [c' [E _]]; discriminate].
Qed.

Lemma node_at_cons t x r :
  node_at t (x :: r) <->
  exists c, JsMap.get (Trie.children t) x = Some c /\ node_at c r.
Proof.
  unfold node_at. cbn [descend].
  destruct (JsMap.get (Trie.children t) x) as [c |].
  - split; [intros H; now exists c | intros [c' [E H]]; now injection E as ->].
  - split; [intros [n E]; discriminate | intros [c' [E _]]; discriminate].
Qed.

Lemma leaf_at_nil t : leaf_at t [] <-> Trie.isLeaf t = true.
Proof.
  unfold leaf_at. cbn [descend]. split.
  - intros [n [E H]]. now injection E as ->.
  - intros H. now exists t.
Qed.

Lemma node_at_nil t : node_at t [].
Proof. now exists t. Qed.

Lemma leaf_at_new fp segs : ~ leaf_at (Trie.mkTrieNode [] false fp) segs.
Proof.
  destruct segs as [| x r].
  - rewrite leaf_at_nil. discriminate.
  - rewrite leaf_at_cons. intros [c [E _]]. discriminate.
Qed.

Lemma node_at_new fp segs : node_at (Trie.mkTrieNode [] false fp) segs <-> segs = [].
Proof.
  destruct segs as [| x r].
  - split; [reflexivity | intros _; apply node_at_nil].
  - rewrite node_at_cons. split; [intros [c [E _]] | ]; discriminate.
Qed.

Lemma leaf_at_insert s :
  forall done t segs,
    leaf_at (Trie.insert done s t) segs <-> leaf_at t segs \/ segs = s.
Proof.
  induction s as [| y s IH]; intros done t segs; cbn [Trie.insert].
  - destruct segs as [| x r].
    + rewrite !leaf_at_nil. cbn [Trie.isLeaf]. tauto.
    + rewrite !leaf_at_cons. cbn [Trie.children].
      split; [auto | intros [H | H]; [assumption | discriminate]].
  - destruct segs as [| x r].
    + rewrite !leaf_at_nil. cbn [Trie.isLeaf].
      split; [auto | intros [H | H]; [assumption | discriminate]].
    + rewrite !leaf_at_cons. cbn [Trie.children].
      destruct (String.eqb y x) eqn:E.
      * apply String.eqb_eq in E. subst x. split.
        -- intros [c [G H]]. rewrite JsMap_get_set, String.eqb_refl in G.
           injection G as <-. apply IH in H. destruct H as [H | ->]; [| now right].
           destruct (JsMap.get (Trie.children t) y) as [c |].
           ++ left. now exists c.
           ++ now apply leaf_at_new in H.
        -- intros H. eexists. rewrite JsMap_get_set, String.eqb_refl.
           split; [reflexivity |]. apply IH.
           destruct H as [[c [G H]] | H].
           ++ rewrite G. now left.
           ++ injection H as ->. now right.
      * split.
        -- intros [c [G H]]. rewrite JsMap_get_set, E in G. left. now exists c.
        -- intros [[c [G H]] | H].
           ++ exists c. now rewrite JsMap_get_set, E.
           ++ injection H as -> _. now rewrite String.eqb_refl in E.
Qed.

Lemma node_at_insert s :
  forall done t segs,
    node_at (Trie.insert done s t) segs <->
    node_at t segs \/ exists r, s = segs ++ r.
Proof.
  induction s as [| y s IH]; intros done t segs; cbn [Trie.insert].
  - destruct segs as [| x r].
    + split; intros _; [left |]; apply node_at_nil.
    + rewrite !node_at_cons. cbn [Trie.children].
      split; [auto | intros [H | [r' H]]; [assumption | discriminate]].
  - destruct segs as [| x r].
    + split; intros _; [left |]; apply node_at_nil.
    + rewrite !node_at_cons. cbn [Trie.children].
      destruct (String.eqb y x) eqn:E.
      * apply String.eqb_eq in E. subst x. split.
        -- intros [c [G H]]. rewrite JsMap_get_set, String.eqb_refl in G.
           injection G as <-. apply IH in H.
           destruct H as [H | [r' ->]]; [| right; now exists r'].
           destruct (JsMap.get (Trie.children t) y) as [c |].
           ++ left. now exists c.
           ++ apply node_at_new in H. subst r. right. now exists s.
        -- intros H. eexists. rewrite JsMap_get_set, String.eqb_refl.
           split; [reflexivity |]. apply IH.
           destruct H as [[c [G H]] | [r' H]].
           ++ rewrite G. now left.
           ++ injection H as ->. right. now exists r'.
      * split.
        -- intros [c [G H]]. rewrite JsMap_get_set, E in G. left. now exists c.
        -- intros [[c [G H]] | [r' H]].
           ++ exists c. now rewrite JsMap_get_set, E.
           ++ injection H as -> _. now rewrite String.eqb_refl in E.
Qed.

Lemma insert_fullPath done s t :
  Trie.fullPath (Trie.insert done s t) = Trie.fullPath t.
Proof. now destruct s. Qed.

Lemma trie_wf_insert s :
  forall done t,
    Forall segment s -> trie_wf done t -> trie_wf done (Trie.insert done s t).
Proof.
  induction s as [| y s IH]; intros done t Hs Hwf; cbn [Trie.insert];
    inversion Hwf as [? ch leaf fp Hn Hfp Hsub]; subst; cbn [Trie.children].
  - now constructor.
  - inversion Hs as [| ? ? Hy Hs']; subst.
    set (child := match JsMap.get ch y with
                  | Some c => c
                  | None => Trie.mkTrieNode [] false (join "." (done ++ [y]))
                  end).
    assert (Hc : Trie.fullPath child = join "." (done ++ [y]) /\
                 trie_wf (done ++ [y]) child).
    { unfold child. destruct (JsMap.get ch y) as [c |] eqn:G.
      - apply JsMap_get_In in G. split; [now apply (Hfp y c) | auto].
      - split; [reflexivity |]. constructor; [constructor | |];
          intros ? ? []. }
    constructor.
    + now apply JsMap_set_keys.
    + intros name c Hin. apply JsMap_set_In in Hin.
      destruct Hin as [[-> ->] | Hin]; [| auto].
      split; [assumption |]. now rewrite insert_fullPath.
    + intros name c Hin. apply JsMap_set_In in Hin.
      destruct Hin as [[-> ->] | Hin]; [| auto].
      now apply IH.
Qed.

(** *** The trie of a list of paths *)

Lemma buildTrie_from (M : list string) :
  forall t0,
    trie_wf [] t0 ->
    let t := fold_left (fun trie path => Trie.insert [] (split_dot path) trie) M t0 in
    trie_wf [] t /\
    (forall segs, leaf_at t segs <->
                  leaf_at t0 segs \/ exists m, In m M /\ split_dot m = segs) /\
    (forall segs, node_at t segs <->
                  node_at t0 segs \/
                  exists m r, In m M /\ split_dot m = segs ++ r).
Proof.
  induction M as [| p M IH]; intros t0 Hwf; cbn [fold_left].
  - split; [assumption |]. split; intros segs.
    + split; [auto | intros [H | [m [[] _]]]; assumption].
    + split; [auto | intros [H | [m [r [[] _]]]]; assumption].
  - destruct (IH (Trie.insert [] (split_dot p) t0)) as [Hw [Hl Hn]].
    { apply trie_wf_insert; [| assumption].
      now apply split_from_segments. }
    split; [assumption |]. split; intros segs.
    + rewrite Hl, leaf_at_insert. cbn [In]. split.
      * intros [[H | ->] | [m [Hm E]]]; eauto.
      * intros [H | [m [[<- | Hm] E]]]; eauto.
    + rewrite Hn, node_at_insert. cbn [In]. split.
      * intros [[H | [r E]] | [m [r [Hm E]]]]; eauto 6.
      * intros [H | [m [r [[<- | Hm] E]]]]; eauto 6.
Qed.

Lemma buildTrie_spec (M : list string) :
  trie_wf [] (Trie.buildTrie M) /\
  (forall segs, leaf_at (Trie.buildTrie M) segs <->
                exists m, In m M /\ split_dot m = segs) /\
  (forall segs, node_at (Trie.buildTrie M) segs <->
                segs = [] \/ exists m r, In m M /\ split_dot m = segs ++ r).
Proof.
  destruct (buildTrie_from M Trie.root) as [Hw [Hl Hn]].
  { constructor; [constructor | |]; intros ? ? []. }
  split; [exact Hw |]. split; intros segs.
  - rewrite (Hl segs). split; [| auto].
    intros [H | H]; [| assumption]. now apply leaf_at_new in H.
  - rewrite (Hn segs). unfold Trie.root. rewrite node_at_new. tauto.
Qed.

(** The path and the segments of a node below the root. *)
Lemma descend_fullPath segs :
  forall done t n,
    trie_wf done t -> descend segs t = Some n -> segs <> [] ->
    Trie.fullPath n = join "." (done ++ segs) /\ Forall segment segs.
Proof.
  induction segs as [| x r IH]; intros done t n Hwf E Hne; [contradiction |].
  cbn [descend] in E.
  destruct (JsMap.get (Trie.children t) x) as [c |] eqn:G; [| discriminate].
  apply JsMap_get_In in G.
  inversion Hwf as [? ch leaf fp Hn Hfp Hsub]; subst. cbn [Trie.children] in G.
  destruct (Hfp x c G) as [Hx Hc].
  destruct r as [| y r].
  - injection E as <-. split; [assumption | now repeat constructor].
  - destruct (IH (done ++ [x]) c n (Hsub x c G) E) as [Hp Hs]; [discriminate |].
    rewrite <- app_assoc in Hp. split; [exact Hp | now constructor].
Qed.

(** A node has no children when no segment leads on from it. *)
Lemma childless_iff t segs n :
  descend segs t = Some n ->
  (Trie.children n = [] <-> forall x, ~ node_at t (segs ++ [x])).
Proof.
  revert t. induction segs as [| y r IH]; intros t E.
  - cbn [descend] in E. injection E as <-. cbn [app]. split.
    + intros H x. rewrite node_at_cons, H. intros [c [G _]]. discriminate.
    + intros H. destruct (Trie.children t) as [| [x c] ch] eqn:Ec; [reflexivity |].
      elim (H x). apply node_at_cons. exists c. rewrite Ec. cbn [JsMap.get].
      rewrite String.eqb_refl. split; [reflexivity | apply node_at_nil].
  - cbn [descend] in E.
    destruct (JsMap.get (Trie.children t) y) as [c |] eqn:G; [| discriminate].
    rewrite (IH c E). cbn [app]. split.
    + intros H x. rewrite node_at_cons, G. intros [c' [Ec Hc]].
      injection Ec as <-. now apply (H x).
    + intros H x Hx. apply (H x). apply node_at_cons. now exists c.
Qed.

Section TrieWalk.
Context {num : Type}.

Lemma trieToLayerNodes_eq t :
  @trieToLayerNodes num t = map entry_node (Trie.children t).
Proof. destruct t. reflexivity. Qed.

Lemma trieToLayerNodes_nil t :
  (List.length (@trieToLayerNodes num t) =? 0)%nat = true <-> Trie.children t = [].
Proof.
  rewrite trieToLayerNodes_eq, length_map, Nat.eqb_eq.
  destruct (Trie.children t); cbn [List.length]; split; congruence.
Qed.

Lemma entry_paths name child p :
  In p (walk_paths (@entry_node num (name, child))) <->
  (p = Trie.fullPath child /\ Trie.isLeaf child = true /\
   Trie.children child = []) \/
  In p (collectSelectablePaths (@trieToLayerNodes num child)).
Proof.
  cbn [entry_node walk_paths]. fold (@collectSelectablePaths num).
  change (flat_map walk_paths (trieToLayerNodes child))
    with (collectSelectablePaths (@trieToLayerNodes num child)).
  rewrite in_app_iff.
  destruct (Trie.isLeaf child && _) eqn:E.
  - apply andb_true_iff in E. destruct E as [El Ec].
    apply trieToLayerNodes_nil in Ec. cbn [In]. intuition.
  - cbn [In]. split; [intros [[] | H]; auto |].
    intros [[_ [Hl Hc]] | H]; [| auto]. exfalso.
    apply trieToLayerNodes_nil in Hc. rewrite Hl, Hc in E. discriminate.
Qed.

Lemma collect_trie t p :
  In p (collectSelectablePaths (@trieToLayerNodes num t)) <->
  exists name child, In (name, child) (Trie.children t) /\
                     In p (walk_paths (@entry_node num (name, child))).
Proof.
  rewrite trieToLayerNodes_eq. unfold collectSelectablePaths.
  rewrite in_flat_map. split.
  - intros [x [Hx Hp]]. apply in_map_iff in Hx.
    destruct Hx as [[name child] [<- Hin]]. eauto.
  - intros [name [child [Hin Hp]]]. exists (entry_node (name, child)).
    split; [now apply in_map | assumption].
Qed.

(** The selectable paths of the tree are the paths of the leaf nodes of
    the trie that have no children. *)
Lemma trie_walk t :
  forall done p,
    trie_wf done t ->
    (In p (collectSelectablePaths (@trieToLayerNodes num t)) <->
     exists segs n, segs <> [] /\ descend segs t = Some n /\
                    Trie.isLeaf n = true /\ Trie.children n = [] /\
                    Trie.fullPath n = p).
Proof.
  induction t as [ch leaf fp IH] using TrieNode_tree_ind.
  intros done p Hwf. inversion Hwf as [? ? ? ? Hn Hfp Hsub]; subst.
  rewrite collect_trie. cbn [Trie.children]. split.
  - intros [name [child [Hin Hp]]]. apply entry_paths in Hp.
    assert (G := JsMap_In_get ch name child Hn Hin).
    destruct Hp as [[-> [Hl Hc]] | Hp].
    + exists [name], child. cbn [descend Trie.children]. rewrite G.
      repeat split; auto. discriminate.
    + rewrite Forall_forall in IH.
      apply (IH (name, child) Hin (done ++ [name]) p (Hsub _ _ Hin)) in Hp.
      destruct Hp as [segs [n [Hne [E H]]]].
      exists (name :: segs), n. cbn [descend Trie.children]. rewrite G.
      split; [discriminate | auto].
  - intros [segs [n [Hne [E [Hl [Hc Hp]]]]]].
    destruct segs as [| x r]; [contradiction |].
    cbn [descend Trie.children] in E.
    destruct (JsMap.get ch x) as [c |] eqn:G; [| discriminate].
    apply JsMap_get_In in G. exists x, c. split; [assumption |].
    apply entry_paths. destruct r as [| y r].
    + injection E as <-. left. auto.
    + right. rewrite Forall_forall in IH.
      apply (IH (x, c) G (done ++ [x]) p (Hsub _ _ G)).
      exists (y :: r), n. split; [discriminate | auto].
Qed.
End TrieWalk.

(** *** The selectable paths of a weight map *)

Lemma trie_selectable {num : Type} (M : list string) p :
  In p (collectSelectablePaths (@trieToLayerNodes num (Trie.buildTrie M))) <->
  In p M /\ forall r, ~ In (p +++ "." +++ r) M.
Proof.
  destruct (buildTrie_spec M) as [Hwf [Hleaf Hnode]].
  rewrite (trie_walk _ [] p Hwf). split.
  - intros [segs [n [Hne [E [Hl [Hc Hp]]]]]].
    destruct (descend_fullPath segs [] _ n Hwf E Hne) as [Hfp Hs].
    cbn [app] in Hfp.
    assert (Hm : exists m, In m M /\ split_dot m = segs)
      by (apply Hleaf; now exists n).
    destruct Hm as [m [Hm Es]].
    assert (Em : m = p).
    { rewrite <- Hp, Hfp, <- Es. symmetry. apply join_split_from. }
    subst m. split; [assumption |]. intros r Hr.
    destruct (proj2 (extends_iff M p) (ex_intro _ r Hr)) as [m [x [r' [Hm' E']]]].
    apply (proj1 (childless_iff _ _ _ E) Hc x). apply Hnode. right.
    exists m, r'. split; [assumption |]. now rewrite E', Es, <- app_assoc.
  - intros [Hp Hno].
    assert (Hl : leaf_at (Trie.buildTrie M) (split_dot p))
      by (apply Hleaf; now exists p).
    destruct Hl as [n [E Hl]].
    assert (Hne : split_dot p <> []) by apply split_from_nonempty.
    exists (split_dot p), n. repeat split; auto.
    + apply (childless_iff _ _ _ E). intros x Hx. apply Hnode in Hx.
      destruct Hx as [Hx | [m [r [Hm Em]]]].
      * now destruct (split_dot p).
      * rewrite <- app_assoc in Em.
        destruct (proj1 (extends_iff M p)) as [r' Hr']; [now exists m, x, r |].
        now apply (Hno r').
    + destruct (descend_fullPath _ [] _ n Hwf E Hne) as [Hfp _].
      rewrite Hfp. apply join_split_from.
Qed.

Lemma fold_set_add_In l : forall res q,
  In q (fold_left set_add l res) <-> In q res \/ In q l.
Proof.
  induction l as [| p l IH]; intros res q; cbn [fold_left In]; [tauto |].
  rewrite IH, set_add_In. intuition.
Qed.

Lemma fold_set_add_NoDup_result l : forall res,
  NoDup res -> NoDup (fold_left set_add l res).
Proof.
  induction l as [| p l IH]; intros res H; cbn [fold_left]; [assumption |].
  now apply IH, set_add_NoDup.
Qed.

Lemma modulePaths_of_In keys m :
  In m (modulePaths_of keys) <-> In m (map stripWeightSuffix keys).
Proof.
  unfold modulePaths_of. split.
  - intros H. apply (Permutation_in _ (Permutation_sym (Array_sort_perm _ _))) in H.
    apply fold_set_add_In in H. now destruct H.
  - intros H. apply (Permutation_in _ (Array_sort_perm _ _)).
    apply fold_set_add_In. now right.
Qed.

Lemma collect_weight_map_In {num : Type} keys p :
  In p (collectSelectablePaths (@parseWeightMap num keys)) <->
  In p (map stripWeightSuffix keys) /\
  forall r, ~ In (p +++ "." +++ r) (map stripWeightSuffix keys).
Proof.
  unfold parseWeightMap.
  assert (Hperm := collect_reordered _ _
                     (collapse_reordered
                        (@trieToLayerNodes num (Trie.buildTrie (modulePaths_of keys))))).
  split.
  - intros H. apply (Permutation_in _ (Permutation_sym Hperm)) in H.
    apply trie_selectable in H. destruct H as [Hp Hno].
    split; [now apply modulePaths_of_In |].
    intros r Hr. apply (Hno r). now apply modulePaths_of_In.
  - intros [Hp Hno]. apply (Permutation_in _ Hperm). apply trie_selectable.
    split; [now apply modulePaths_of_In |].
    intros r Hr. apply (Hno r). now apply modulePaths_of_In.
Qed.

(** X12. The selectable paths of the tree of a weight map are the module
    paths (the keys without their weight suffix) that no other module path
    continues below a dot: a module is selectable exactly when it has no
    submodule. *)
Theorem selectable_paths_of_weight_map :
  forall (num : Type) (keys : list string) (p : string),
    In p (collectSelectablePaths (@parseWeightMap num keys)) <->
    In p (map stripWeightSuffix keys) /\
    forall r, ~ In (p +++ "." +++ r) (map stripWeightSuffix keys).
Proof.
  intros num keys p. unfold parseWeightMap.
  assert (Hperm := collect_reordered _ _
                     (collapse_reordered
                        (@trieToLayerNodes num (Trie.buildTrie (modulePaths_of keys))))).
  split.
  - intros H. apply (Permutation_in _ (Permutation_sym Hperm)) in H.
    apply trie_selectable in H. destruct H as [Hp Hno].
    split; [now apply modulePaths_of_In |].
    intros r Hr. apply (Hno r). now apply modulePaths_of_In.
  - intros [Hp Hno]. apply (Permutation_in _ Hperm). apply trie_selectable.
    split; [now apply modulePaths_of_In |].
    intros r Hr. apply (Hno r). now apply modulePaths_of_In.
Qed.

(** *** No path twice *)

Lemma NoDup_flat_map_by {A B C} (f : A -> list B) (g : A -> C) (h : B -> C) l :
  NoDup (map g l) ->
  (forall a, In a l -> NoDup (f a)) ->
  (forall a b, In a l -> In b (f a) -> h b = g a) ->
  NoDup (flat_map f l).
Proof.
  induction l as [| a l IH]; cbn [map flat_map]; intros Hn Hf Hk;
    [constructor |].
  inversion Hn as [| ? ? Ha Hl]; subst.
  apply NoDup_app.
  - apply Hf. now left.
  - apply IH; [assumption | |]; intros; [apply Hf | apply Hk]; cbn [In]; auto.
  - intros b Hb Hb'. apply in_flat_map in Hb'. destruct Hb' as [a' [Ha' Hb']].
    apply Ha. apply in_map_iff. exists a'. split; [| assumption].
    rewrite <- (Hk a b), <- (Hk a' b); cbn [In]; auto.
Qed.

Lemma trie_nodup {num : Type} t :
  forall done,
    trie_wf done t -> Forall segment done ->
    NoDup (collectSelectablePaths (@trieToLayerNodes num t)).
Proof.
  induction t as [ch leaf fp IH] using TrieNode_tree_ind.
  intros done Hwf Hdone. inversion Hwf as [? ? ? ? Hn Hfp Hsub]; subst.
  rewrite trieToLayerNodes_eq. cbn [Trie.children].
  unfold collectSelectablePaths.
  rewrite flat_map_concat_map, map_map, <- flat_map_concat_map.
  apply (NoDup_flat_map_by _ fst
           (fun p => nth (List.length done) (split_dot p) EmptyString)).
  - exact Hn.
  - intros [name child] Hin. cbn [entry_node walk_paths].
    destruct (Trie.isLeaf child && _) eqn:E.
    + apply andb_true_iff in E. destruct E as [_ E].
      apply Nat.eqb_eq in E.
      destruct (trieToLayerNodes child); [| discriminate].
      repeat constructor. intros [].
    + cbn [app]. rewrite Forall_forall in IH.
      apply (IH (name, child) Hin (done ++ [name])); [auto |].
      apply Forall_app. split; [assumption |].
      repeat constructor. now apply (Hfp name child).
  - intros [name child] p Hin Hp. cbn [fst].
    destruct (Hfp name child Hin) as [Hname Hpath].
    assert (Hseg : Forall segment (done ++ [name])).
    { apply Forall_app. split; [assumption | now repeat constructor]. }
    apply entry_paths in Hp. destruct Hp as [[-> _] | Hp].
    + rewrite Hpath, split_join; [apply nth_middle | assumption |].
      now destruct done.
    + apply (trie_walk child (done ++ [name]) p (Hsub _ _ Hin)) in Hp.
      destruct Hp as [segs [n [Hne [E [_ [_ <-]]]]]].
      destruct (descend_fullPath segs _ _ n (Hsub _ _ Hin) E Hne) as [-> Hs].
      rewrite split_join.
      * rewrite <- app_assoc. apply nth_middle.
      * apply Forall_app. now split.
      * now destruct done.
Qed.

Lemma collect_weight_map_NoDup {num : Type} keys :
  NoDup (collectSelectablePaths (@parseWeightMap num keys)).
Proof.
  unfold parseWeightMap. eapply Permutation_NoDup.
  - apply collect_reordered, collapse_reordered.
  - destruct (buildTrie_spec (modulePaths_of keys)) as [Hwf _].
    now apply (trie_nodup _ [] Hwf).
Qed.

(** X13. No path occurs twice among the selectable paths of the tree of a
    weight map, whatever the keys (repeated module paths, empty segments
    and keys without suffix included). *)
Theorem selectable_paths_of_weight_map_distinct :
  forall (num : Type) (keys : list string),
    NoDup (collectSelectablePaths (@parseWeightMap num keys)).
Proof.
  intros num keys. unfold parseWeightMap.
  eapply Permutation_NoDup.
  - apply collect_reordered, collapse_reordered.
  - destruct (buildTrie_spec (modulePaths_of keys)) as [Hwf _].
    now apply (trie_nodup _ [] Hwf).
Qed.

(** *** The shape of the tree *)

Section TreeShape.
Context {num : Type}.

Lemma parent_of_snoc done name :
  match parent_of done with
  | None => name
  | Some pp => pp +++ "." +++ name
  end = join "." (done ++ [name]).
Proof.
  destruct done as [| x done]; [reflexivity |].
  cbn [parent_of]. now rewrite join_app.
Qed.

Lemma trie_parsed t :
  forall done,
    trie_wf done t ->
    Forall (@parsed_below num (parent_of done)) (trieToLayerNodes t).
Proof.
  induction t as [ch leaf fp IH] using TrieNode_tree_ind.
  intros done Hwf. inversion Hwf as [? ? ? ? Hn Hfp Hsub]; subst.
  rewrite trieToLayerNodes_eq. cbn [Trie.children].
  apply Forall_map, Forall_forall. intros [nm child] Hin.
  destruct (Hfp nm child Hin) as [_ Hpath].
  constructor; cbn [entry_node id fullPath name type paramCount isSelectable children];
    try reflexivity.
  - now rewrite parent_of_snoc.
  - intros E. apply andb_true_iff in E. destruct E as [_ E].
    apply Nat.eqb_eq in E. now destruct (trieToLayerNodes child).
  - rewrite Forall_forall in IH.
    specialize (IH (nm, child) Hin (done ++ [nm]) (Hsub _ _ Hin)).
    cbn [snd] in IH. rewrite Hpath.
    replace (Some (join "." (done ++ [nm]))) with (parent_of (done ++ [nm]));
      [exact IH |].
    now destruct done.
Qed.

Lemma collapse_node_parsed (n : LayerNode num) :
  forall parent, parsed_below parent n -> parsed_below parent (collapse_node n).
Proof.
  induction n as [i nm fp t ch sel pc IH] using LayerNode_tree_ind.
  intros parent H. inversion H as [? Hid Hfp Hty Hpc Hsel Hch]; subst.
  cbn [id fullPath name type paramCount isSelectable children] in *.
  constructor; cbn [collapse_node id fullPath name type paramCount isSelectable children];
    auto.
  - intros E. now rewrite (Hsel E).
  - apply Forall_regroup, Forall_map, Forall_forall. intros x Hx.
    rewrite Forall_forall in IH, Hch. auto.
Qed.

Lemma parsed_selectable_leaves (n : LayerNode num) :
  forall parent, parsed_below parent n -> selectable_leaves n.
Proof.
  induction n as [i nm fp t ch sel pc IH] using LayerNode_tree_ind.
  intros parent H. inversion H as [? _ _ _ _ Hsel Hch]; subst.
  cbn [fullPath isSelectable children] in *.
  constructor; [exact Hsel |]. cbn [children].
  apply Forall_forall. intros x Hx. rewrite Forall_forall in IH, Hch. eauto.
Qed.
End TreeShape.

(** X14. In the tree of a weight map every node has its path as
    identifier, the path of a node is its parent's path, a dot and its name
    (its name alone at the top), its type is the class of its name and
    path, it carries no count, and a selectable node has no children. *)
Theorem weight_map_tree_shape :
  forall (num : Type) (keys : list string),
    Forall (parsed_below None) (@parseWeightMap num keys) /\
    Forall selectable_leaves (@parseWeightMap num keys).
Proof.
  intros num keys.
  assert (H : Forall (parsed_below None) (@parseWeightMap num keys)).
  { unfold parseWeightMap, collapseNumberedLayers.
    destruct (buildTrie_spec (modulePaths_of keys)) as [Hwf _].
    apply Forall_regroup, Forall_map.
    apply Forall_forall. intros x Hx. apply collapse_node_parsed.
    pose proof (@trie_parsed num _ [] Hwf) as Hall.
    rewrite Forall_forall in Hall. now apply Hall. }
  split; [exact H |].
  apply Forall_forall. intros x Hx. rewrite Forall_forall in H.
  exact (parsed_selectable_leaves x None (H x Hx)).
Qed.

(** ** The selection store *)

Lemma set_delete_incl set p q : In q (Store.set_delete set p) -> In q set.
Proof.
  induction set as [| x set IH]; cbn [Store.set_delete]; [auto |].
  destruct (String.eqb x p); cbn [In]; intuition.
Qed.

Lemma set_delete_In set p q :
  NoDup set -> (In q (Store.set_delete set p) <-> In q set /\ q <> p).
Proof.
  induction 1 as [| x set Hx Hn IH]; cbn [Store.set_delete In]; [tauto |].
  destruct (String.eqb x p) eqn:E.
  - apply String.eqb_eq in E. subst x. split.
    + intros H. split; [now right |]. intros ->. contradiction.
    + intros [[-> | H] Hq]; [contradiction | assumption].
  - apply String.eqb_neq in E. cbn [In]. rewrite IH. split.
    + intros [-> | [H Hq]]; auto.
    + intros [[-> | H] Hq]; auto.
Qed.

Lemma set_delete_NoDup set p : NoDup set -> NoDup (Store.set_delete set p).
Proof.
  induction 1 as [| x set Hx Hn IH]; cbn [Store.set_delete]; [constructor |].
  destruct (String.eqb x p); [assumption |].
  constructor; [| assumption]. intros H. now apply set_delete_incl in H.
Qed.

Lemma fold_set_delete paths :
  forall set, NoDup set ->
    NoDup (fold_left Store.set_delete paths set) /\
    forall q, In q (fold_left Store.set_delete paths set) <->
              In q set /\ ~ In q paths.
Proof.
  induction paths as [| p paths IH]; intros set Hn; cbn [fold_left In].
  - split; [assumption | tauto].
  - destruct (IH _ (set_delete_NoDup set p Hn)) as [Hn' Hin].
    split; [assumption |]. intros q.
    rewrite Hin, (set_delete_In set p q Hn). intuition.
Qed.

Lemma fold_unless (skip : string -> bool) paths :
  forall res,
    (NoDup res ->
     NoDup (fold_left (fun next p => if skip p then next else set_add next p)
                      paths res)) /\
    forall q,
      In q (fold_left (fun next p => if skip p then next else set_add next p)
                      paths res) <->
      In q res \/ (In q paths /\ skip q = false).
Proof.
  induction paths as [| p paths IH]; intros res; cbn [fold_left In].
  - split; [auto | tauto].
  - destruct (skip p) eqn:E.
    + destruct (IH res) as [Hn Hin]. split; [assumption |].
      intros q. rewrite Hin. split.
      * intros [H | [H1 H2]]; auto.
      * intros [H | [[-> | H1] H2]]; auto. congruence.
    + destruct (IH (set_add res p)) as [Hn Hin]. split.
      * intros H. now apply Hn, set_add_NoDup.
      * intros q. rewrite Hin, set_add_In. split.
        -- intros [[H | ->] | [H1 H2]]; auto.
        -- intros [H | [[-> | H1] H2]]; auto.
Qed.

Lemma fold_delete_if (pattern : string -> bool) paths :
  forall set, NoDup set ->
    NoDup (fold_left (fun next p => if pattern p then Store.set_delete next p
                                    else next) paths set) /\
    incl (fold_left (fun next p => if pattern p then Store.set_delete next p
                                   else next) paths set) set.
Proof.
  induction paths as [| p paths IH]; intros set Hn; cbn [fold_left].
  - split; [assumption | apply incl_refl].
  - destruct (pattern p); [| now apply IH].
    destruct (IH _ (set_delete_NoDup set p Hn)) as [Hn' Hi].
    split; [assumption |]. intros q Hq. apply Hi in Hq.
    now apply set_delete_incl in Hq.
Qed.

Lemma Set_of_In paths q : In q (Store.Set_of paths) <-> In q paths.
Proof.
  unfold Store.Set_of. rewrite fold_set_add_In. cbn [In]. tauto.
Qed.

Lemma Set_of_NoDup paths : NoDup (Store.Set_of paths).
Proof. apply fold_set_add_NoDup_result. constructor. Qed.

(** X15. The actions of the store keep the selection a duplicate-free
    part of the universe: replacing the universe or the selection,
    selecting all, none or the complement do so from any state; removing
    paths and selecting or deselecting by pattern keep a valid selection
    valid; toggling a path and adding paths do so when the paths belong
    to the universe. *)
Theorem store_keeps_selection_valid :
  forall state paths path (pattern : string -> bool),
    valid_selection (Store.setAllSelectablePaths paths state) /\
    valid_selection (Store.setSelectedPaths paths state) /\
    valid_selection (Store.selectAll state) /\
    valid_selection (Store.deselectAll state) /\
    valid_selection (Store.invertSelection state) /\
    (valid_selection state ->
     valid_selection (Store.deselectPaths paths state) /\
     valid_selection (Store.selectByPattern pattern state) /\
     valid_selection (Store.deselectByPattern pattern state) /\
     (In path (Store.allSelectablePaths state) ->
      valid_selection (Store.toggle path state)) /\
     (incl paths (Store.allSelectablePaths state) ->
      valid_selection (Store.selectPaths paths state))).
Proof.
  intros [sel U] paths path pattern. unfold valid_selection.
  cbn [Store.setAllSelectablePaths Store.setSelectedPaths Store.selectAll
       Store.deselectAll Store.invertSelection Store.deselectPaths
       Store.selectByPattern Store.deselectByPattern Store.toggle
       Store.selectPaths Store.selectedPaths Store.allSelectablePaths].
  repeat match goal with |- _ /\ _ => split end.
  - constructor.
  - intros q [].
  - apply resolve_regex_NoDup. constructor.
  - intros q Hq. apply resolve_regex_In in Hq.
    destruct Hq as [[] | [_ Hq]]. apply mem_In in Hq.
    now rewrite Set_of_In in Hq.
  - apply Set_of_NoDup.
  - intros q Hq. now rewrite Set_of_In in Hq.
  - constructor.
  - intros q [].
  - apply (fold_unless (fun p => Str.mem p sel)). constructor.
  - intros q Hq.
    apply (proj1 (proj2 (fold_unless (fun p => Str.mem p sel) U []) q)) in Hq.
    destruct Hq as [[] | [Hq _]]. assumption.
  - intros [Hn Hi].
    repeat match goal with |- _ /\ _ => split end.
    + now apply fold_set_delete.
    + intros q Hq.
      apply (proj1 (proj2 (fold_set_delete paths sel Hn) q)) in Hq.
      now apply Hi.
    + now apply resolve_regex_NoDup.
    + intros q Hq. apply resolve_regex_In in Hq.
      destruct Hq as [Hq | [Hq _]]; auto.
    + now apply fold_delete_if.
    + intros q Hq. apply (proj2 (fold_delete_if pattern U sel Hn)) in Hq. auto.
    + intros Hp. destruct (Str.mem path sel); split.
      * now apply set_delete_NoDup.
      * intros q Hq. apply set_delete_incl in Hq. auto.
      * now apply set_add_NoDup.
      * intros q Hq. apply set_add_In in Hq. destruct Hq as [Hq | ->]; auto.
    + intros Hp. split.
      * now apply fold_set_add_NoDup_result.
      * intros q Hq. apply fold_set_add_In in Hq. destruct Hq; auto.
Qed.

Lemma store_keeps_selection_valid_witness :
  valid_selection (Store.toggle "a" (Store.mkState ["b"] ["a"; "b"; "c"])) /\
  valid_selection
    (Store.deselectByPattern (fun p => String.eqb p "b")
                             (Store.mkState ["b"] ["a"; "b"; "c"])).
Proof.
  assert (Hv : valid_selection (Store.mkState ["b"] ["a"; "b"; "c"])).
  { split.
    - repeat constructor. intros [].
    - intros q [<- | []]. cbn. auto. }
  destruct (store_keeps_selection_valid
              (Store.mkState ["b"] ["a"; "b"; "c"]) [] "a"
              (fun p => String.eqb p "b")) as [_ [_ [_ [_ [_ H]]]]].
  destruct (H Hv) as [_ [_ [Hd [Ht _]]]].
  split; [apply Ht; cbn; auto | exact Hd].
Defined.

Lemma fold_keep_valid (valid : list string) paths :
  forall next,
    NoDup (next ++ paths) -> (forall p, In p paths -> Str.mem p valid = true) ->
    fold_left (fun next p => if Str.mem p valid then set_add next p else next)
              paths next = next ++ paths.
Proof.
  induction paths as [| p paths IH]; intros next Hn Hv; cbn [fold_left].
  - now rewrite app_nil_r.
  - rewrite (Hv p) by now left. rewrite set_add_fresh.
    + rewrite IH.
      * now rewrite <- app_assoc.
      * now rewrite <- app_assoc.
      * intros q Hq. apply Hv. now right.
    + apply NoDup_remove_2 in Hn. intros H. apply Hn, in_or_app. now left.
Qed.

(** X16. Replacing the selection keeps, of the given paths, those of the
    universe, each once, and a duplicate-free list of universe paths is
    kept as it is; so applying an edited text, which resolves the text
    against the universe and then replaces the selection, makes the
    selection exactly the resolved paths, in their order, whenever the
    patterns of the text are in the modelled fragment (the text resolves
    to a list). *)
Theorem apply_sets_resolved_paths :
  forall state,
    (forall paths p,
        In p (Store.selectedPaths (Store.setSelectedPaths paths state)) <->
        In p paths /\ In p (Store.allSelectablePaths state)) /\
    (forall paths,
        NoDup paths -> incl paths (Store.allSelectablePaths state) ->
        Store.setSelectedPaths paths state =
        Store.mkState paths (Store.allSelectablePaths state)) /\
    (forall text resolved,
        parseIgnoreItems text (Store.allSelectablePaths state) = Some resolved ->
        Store.setSelectedPaths resolved state =
        Store.mkState resolved (Store.allSelectablePaths state)).
Proof.
  intros [sel U]. cbn [Store.allSelectablePaths].
  assert (Hkeep : forall paths, NoDup paths -> incl paths U ->
            Store.setSelectedPaths paths (Store.mkState sel U) =
            Store.mkState paths U).
  { intros paths Hn Hi. unfold Store.setSelectedPaths.
    cbn [Store.allSelectablePaths]. f_equal.
    apply (fold_keep_valid (Store.Set_of U) paths []); [exact Hn |].
    intros p Hp. apply mem_In, Set_of_In. now apply Hi. }
  split; [| split].
  - intros paths p. cbn [Store.setSelectedPaths Store.selectedPaths
                         Store.allSelectablePaths].
    rewrite resolve_regex_In, mem_In, Set_of_In. cbn [In]. tauto.
  - exact Hkeep.
  - intros text resolved H.
    destruct (parseIgnoreItems_sound_parts text U resolved H) as [Hn Hi].
    now apply Hkeep.
Qed.

Lemma apply_sets_resolved_paths_witness :
  Store.setSelectedPaths ["a.b"; "b.c"] (Store.mkState ["c"] ["a.b"; "b.c"; "c"]) =
  Store.mkState ["a.b"; "b.c"] ["a.b"; "b.c"; "c"].
Proof.
  exact (proj2 (proj2 (apply_sets_resolved_paths
                         (Store.mkState ["c"] ["a.b"; "b.c"; "c"])))
               "ignore=['a.b', 're:b', 'zz', 'a.b']" ["a.b"; "b.c"] eq_refl).
Defined.

(** X17. Inverting selects the paths of the universe that were not
    selected; inverting twice selects what was selected, for a selection
    inside the universe. *)
Theorem invertSelection_complement :
  forall state p,
    (In p (Store.selectedPaths (Store.invertSelection state)) <->
     In p (Store.allSelectablePaths state) /\
     ~ In p (Store.selectedPaths state)) /\
    (incl (Store.selectedPaths state) (Store.allSelectablePaths state) ->
     (In p (Store.selectedPaths
              (Store.invertSelection (Store.invertSelection state))) <->
      In p (Store.selectedPaths state))).
Proof.
  assert (Hinv : forall state p,
             In p (Store.selectedPaths (Store.invertSelection state)) <->
             In p (Store.allSelectablePaths state) /\
             ~ In p (Store.selectedPaths state)).
  { intros [sel U] p. cbn [Store.invertSelection Store.selectedPaths
                           Store.allSelectablePaths].
    rewrite (proj2 (fold_unless (fun q => Str.mem q sel) U [])). cbn [In].
    rewrite <- (mem_In p sel). destruct (Str.mem p sel); intuition congruence. }
  intros state p. split; [apply Hinv |].
  intros Hincl. rewrite Hinv, Hinv.
  change (Store.allSelectablePaths (Store.invertSelection state))
    with (Store.allSelectablePaths state).
  rewrite <- (mem_In p (Store.selectedPaths state)).
  split.
  - intros [HU Hn]. destruct (Str.mem p (Store.selectedPaths state));
      [reflexivity |]. elim Hn. split; [assumption | discriminate].
  - intros H. split; [apply Hincl; now apply mem_In |].
    intros [_ Hn]. contradiction.
Qed.

Lemma invertSelection_complement_witness :
  In "b" (Store.selectedPaths
            (Store.invertSelection
               (Store.invertSelection (Store.mkState ["b"] ["a"; "b"; "c"])))) <->
  In "b" ["b"].
Proof.
  apply (proj2 (invertSelection_complement
                  (Store.mkState ["b"] ["a"; "b"; "c"]) "b")).
  intros q [<- | []]. cbn. auto.
Defined.

(** X18. Toggling a path flips whether it is selected and changes no
    other path, so toggling twice gives back the selection as a set. *)
Theorem toggle_flips_one_path :
  forall state path q,
    NoDup (Store.selectedPaths state) ->
    Store.isSelected q (Store.toggle path state) =
    (if String.eqb q path then negb (Store.isSelected path state)
     else Store.isSelected q state) /\
    Store.isSelected q (Store.toggle path (Store.toggle path state)) =
    Store.isSelected q state.
Proof.
  assert (Hone : forall state path q,
             NoDup (Store.selectedPaths state) ->
             NoDup (Store.selectedPaths (Store.toggle path state)) /\
             Store.isSelected q (Store.toggle path state) =
             (if String.eqb q path then negb (Store.isSelected path state)
              else Store.isSelected q state)).
  { intros [sel U] path q Hn.
    unfold Store.isSelected, Store.toggle.
    cbn [Store.selectedPaths Store.allSelectablePaths] in *.
    destruct (Str.mem path sel) eqn:E; cbv iota.
    - split; [now apply set_delete_NoDup |].
      apply eq_true_iff_eq. rewrite mem_In, (set_delete_In sel path q Hn).
      destruct (String.eqb q path) eqn:Eq.
      + apply String.eqb_eq in Eq. subst q. cbn [negb]. intuition discriminate.
      + apply String.eqb_neq in Eq. rewrite mem_In. tauto.
    - split; [now apply set_add_NoDup |].
      apply eq_true_iff_eq. rewrite mem_In, set_add_In.
      destruct (String.eqb q path) eqn:Eq.
      + apply String.eqb_eq in Eq. subst q. cbn [negb]. tauto.
      + apply String.eqb_neq in Eq. rewrite mem_In. tauto. }
  intros state path q Hn.
  destruct (Hone state path q Hn) as [Hn1 H1]. split; [exact H1 |].
  destruct (Hone (Store.toggle path state) path q Hn1) as [_ H2].
  rewrite H2. destruct (String.eqb q path) eqn:Eq; [| exact H1].
  apply String.eqb_eq in Eq. subst q.
  destruct (Hone state path path Hn) as [_ H3].
  rewrite H3, String.eqb_refl. apply negb_involutive.
Qed.

Lemma toggle_flips_one_path_witness :
  Store.isSelected "a" (Store.toggle "a" (Store.mkState ["b"] ["a"; "b"])) = true /\
  Store.isSelected "a"
    (Store.toggle "a" (Store.toggle "a" (Store.mkState ["b"] ["a"; "b"]))) = false.
Proof.
  destruct (toggle_flips_one_path (Store.mkState ["b"] ["a"; "b"]) "a" "a")
    as [H1 H2].
  - repeat constructor. intros [].
  - split; [exact H1 | exact H2].
Defined.

(** ** Layer indices: [getMaxLayerIndex] and [selectRange] *)

Lemma number_le_trans a b c : number_le a b = true -> number_le b c = true -> number_le a c = true.
Proof.
  unfold number_le. destruct a as [x |], b as [y |], c as [z |];
    cbn [Num.sub_sign]; try discriminate; try reflexivity.
  destruct (N.compare_spec x y), (N.compare_spec y z), (N.compare_spec x z);
    try discriminate; try reflexivity; intros _ _; exfalso; subst; lia.
Qed.

Lemma number_le_refl a : number_le a a = true.
Proof.
  unfold number_le. destruct a as [x |]; cbn [Num.sub_sign]; [| reflexivity].
  now rewrite N.compare_refl.
Qed.

Lemma number_gt_le a b : number_gt a b = negb (number_le a b).
Proof. unfold number_gt, number_le. now destruct (Num.sub_sign a b). Qed.

Lemma max_loop paths :
  forall max0 m,
    m = fold_left
          (fun max p =>
             match layer_digits p with
             | Some d => let idx := Num.parseInt d in
                         if number_gt idx max then idx else max
             | None => max
             end) paths max0 ->
    number_le max0 m = true /\
    (forall p d, In p paths -> layer_digits p = Some d ->
                 number_le (Num.parseInt d) m = true) /\
    (m = max0 \/
     exists p d, In p paths /\ layer_digits p = Some d /\ m = Num.parseInt d).
Proof.
  induction paths as [| p paths IH]; intros max0 m Em; cbn [fold_left] in Em.
  - subst m. split; [apply number_le_refl |]. split; [intros ? ? [] | now left].
  - pose (max1 := match layer_digits p with
                 | Some d => let idx := Num.parseInt d in
                             if number_gt idx max0 then idx else max0
                 | None => max0
                 end).
    fold max1 in Em. destruct (IH max1 m Em) as [Hle [Hall Hatt]].
    assert (H1 : number_le max0 max1 = true /\
                 (forall d, layer_digits p = Some d ->
                            number_le (Num.parseInt d) max1 = true) /\
                 (max1 = max0 \/
                  exists d, layer_digits p = Some d /\ max1 = Num.parseInt d)).
    { unfold max1. destruct (layer_digits p) as [d |].
      - cbv zeta. rewrite number_gt_le.
        destruct (number_le (Num.parseInt d) max0) eqn:E; cbn [negb].
        + split; [apply number_le_refl |]. split; [| now left].
          intros d' H. now injection H as <-.
        + split.
          * unfold number_le in *. destruct (Num.parseInt d) as [x |], max0 as [y |];
              cbn [Num.sub_sign] in *; try discriminate; try reflexivity.
            rewrite N.compare_antisym. now destruct (N.compare x y).
          * split; [| right; now exists d].
            intros d' H. injection H as <-. apply number_le_refl.
      - split; [apply number_le_refl |]. split; [discriminate | now left]. }
    destruct H1 as [H01 [Hp Hp']].
    split; [now apply (number_le_trans _ max1) |]. split.
    + intros q d [<- | Hq] Hd; [| now apply (Hall q d)].
      apply (number_le_trans _ max1); auto.
    + destruct Hatt as [-> | [q [d [Hq [Hd ->]]]]].
      * destruct Hp' as [-> | [d [Hd ->]]]; [now left |].
        right. exists p, d. cbn [In]. auto.
      * right. exists q, d. cbn [In]. auto.
Qed.

Lemma getMaxLayerIndex_bound paths :
  (forall p d, In p paths -> layer_digits p = Some d ->
               number_le (Num.parseInt d) (getMaxLayerIndex paths) = true) /\
  (getMaxLayerIndex paths = Num.Finite 0 \/
   exists p d, In p paths /\ layer_digits p = Some d /\
               getMaxLayerIndex paths = Num.parseInt d).
Proof.
  destruct (max_loop paths (Num.Finite 0) _ eq_refl) as [_ [Hall Hatt]].
  split; [exact Hall | exact Hatt].
Qed.

(** X19. The maximum layer index is an upper bound of the layer indices
    of the paths, and it is the index of one of them unless it is zero. *)
Theorem getMaxLayerIndex_is_maximum :
  forall paths,
    (forall p d, In p paths -> layer_digits p = Some d ->
                 number_le (Num.parseInt d) (getMaxLayerIndex paths) = true) /\
    (getMaxLayerIndex paths = Num.Finite 0 \/
     exists p d, In p paths /\ layer_digits p = Some d /\
                 getMaxLayerIndex paths = Num.parseInt d).
Proof.
  intros paths.
  destruct (max_loop paths (Num.Finite 0) _ eq_refl) as [_ [Hall Hatt]].
  split; [exact Hall | exact Hatt].
Qed.

Lemma fold_left_ext_in {A B} (f g : A -> B -> A) l :
  (forall a x, f a x = g a x) -> forall a, fold_left f l a = fold_left g l a.
Proof.
  intros H. induction l as [| x l IH]; intros a; cbn [fold_left]; [reflexivity |].
  now rewrite H, IH.
Qed.

Lemma number_ge_zero a : number_ge a (Num.Finite 0) = true.
Proof.
  unfold number_ge. destruct a as [x |]; cbn [Num.sub_sign]; [| reflexivity].
  destruct (N.compare_spec x 0); try reflexivity. lia.
Qed.

(** X20. Selecting a range adds to the selection the paths of the universe
    whose first layer index lies between the bounds and that pass the
    suffix pattern, if one is given, and removes nothing; from zero to the
    maximum layer index of the universe and without pattern, it adds every
    path of the universe that has a layer index. *)
Theorem selectRange_adds_layers_in_range :
  forall startLayer endLayer suffixPattern state q,
    (In q (Store.selectedPaths
             (Store.selectRange startLayer endLayer suffixPattern state)) <->
     In q (Store.selectedPaths state) \/
     (In q (Store.allSelectablePaths state) /\
      exists d, layer_digits q = Some d /\
                number_ge (Num.parseInt d) startLayer = true /\
                number_le (Num.parseInt d) endLayer = true /\
                match suffixPattern with
                | None => True
                | Some pattern => pattern q = true
                end)) /\
    (In q (Store.selectedPaths
             (Store.selectRange (Num.Finite 0)
                (getMaxLayerIndex (Store.allSelectablePaths state)) None state)) <->
     In q (Store.selectedPaths state) \/
     (In q (Store.allSelectablePaths state) /\ layer_digits q <> None)).
Proof.
  assert (Hgen : forall startLayer endLayer suffixPattern state q,
    In q (Store.selectedPaths
            (Store.selectRange startLayer endLayer suffixPattern state)) <->
    In q (Store.selectedPaths state) \/
    (In q (Store.allSelectablePaths state) /\
     exists d, layer_digits q = Some d /\
               number_ge (Num.parseInt d) startLayer = true /\
               number_le (Num.parseInt d) endLayer = true /\
               match suffixPattern with
               | None => True
               | Some pattern => pattern q = true
               end)).
  { intros a b sp [sel U] q.
    cbn [Store.selectRange Store.selectedPaths Store.allSelectablePaths].
    set (test := fun p =>
           match layer_digits p with
           | Some d => number_ge (Num.parseInt d) a && number_le (Num.parseInt d) b &&
                       match sp with None => true | Some pattern => pattern p end
           | None => false
           end).
    rewrite (fold_left_ext_in _
               (fun res p => if test p then set_add res p else res)).
    - rewrite resolve_regex_In. unfold test.
      destruct (layer_digits q) as [d |].
      + rewrite !andb_true_iff. split.
        * intros [H | [HU [[H1 H2] H3]]]; [now left |].
          right. split; [assumption |]. exists d. repeat split; auto.
          now destruct sp.
        * intros [H | [HU [d' [E [H1 [H2 H3]]]]]]; [now left |].
          injection E as <-. right. repeat split; auto.
          destruct sp; [assumption | reflexivity].
      + split; [intros [H | [_ H]]; [now left | discriminate] |].
        intros [H | [_ [d [E _]]]]; [now left | discriminate].
    - intros res p. unfold test. destruct (layer_digits p) as [d |]; [| reflexivity].
      cbv zeta. destruct (number_ge _ a && number_le _ b); [| reflexivity].
      now destruct sp. }
  intros a b sp state q. split; [apply Hgen |].
  rewrite Hgen. split.
  - intros [H | [HU [d [E _]]]]; [now left |].
    right. split; [assumption |]. now rewrite E.
  - intros [H | [HU Hd]]; [now left |]. right. split; [assumption |].
    destruct (layer_digits q) as [d |] eqn:E; [| contradiction].
    exists d. repeat split; auto.
    + apply number_ge_zero.
    + now apply (proj1 (getMaxLayerIndex_bound (Store.allSelectablePaths state)) q d).
Qed.

(** ** The tree does not depend on the order of the keys *)

Lemma ascii_compare_trans a b c :
  Ascii.compare a b = Lt -> Ascii.compare b c = Lt -> Ascii.compare a c = Lt.
Proof.
  unfold Ascii.compare. rewrite !N.compare_lt_iff. lia.
Qed.

Lemma string_compare_trans a :
  forall b c,
    String.compare a b = Lt -> String.compare b c = Lt -> String.compare a c = Lt.
Proof.
  induction a as [| x a IH]; intros [| y b] [| z c]; cbn [String.compare];
    try discriminate; try reflexivity.
  destruct (Ascii.compare x y) eqn:Exy; try discriminate;
    destruct (Ascii.compare y z) eqn:Eyz; try discriminate.
  - apply Ascii.compare_eq_iff in Exy, Eyz. subst y z.
    assert (E : Ascii.compare x x = Eq)
      by (unfold Ascii.compare; apply N.compare_refl).
    rewrite E. apply IH.
  - apply Ascii.compare_eq_iff in Exy. subst y. now rewrite Eyz.
  - apply Ascii.compare_eq_iff in Eyz. subst z. now rewrite Exy.
  - now rewrite (ascii_compare_trans x y z).
Qed.

Lemma string_compare_asym x y :
  String.compare x y = Gt -> String.compare y x <> Gt.
Proof. intros H. rewrite String.compare_antisym, H. discriminate. Qed.

Lemma sorted_strict l :
  Sorted (precedes String.compare) l -> NoDup l ->
  StronglySorted (fun x y => String.compare x y = Lt) l.
Proof.
  intros Hs Hn. apply Sorted_StronglySorted.
  - intros x y z. apply string_compare_trans.
  - induction Hs as [| x l Hs IH Hd]; constructor.
    + inversion Hn; auto.
    + inversion Hn as [| ? ? Hx _]; subst.
      destruct Hd as [| y l Hxy]; constructor.
      unfold precedes in Hxy.
      destruct (String.compare x y) eqn:E; [| reflexivity | contradiction].
      apply String.compare_eq_iff in E. subst y. elim Hx. now left.
Qed.

Lemma strictly_sorted_unique l1 :
  forall l2,
    StronglySorted (fun x y => String.compare x y = Lt) l1 ->
    StronglySorted (fun x y => String.compare x y = Lt) l2 ->
    (forall x, In x l1 <-> In x l2) -> l1 = l2.
Proof.
  assert (Hirr : forall x, String.compare x x <> Lt).
  { intros x H. pose proof (String.compare_antisym x x) as E.
    rewrite H in E. discriminate. }
  assert (Hasym : forall x y, String.compare x y = Lt -> String.compare y x <> Lt).
  { intros x y H H'. apply (Hirr x). now apply (string_compare_trans x y x). }
  induction l1 as [| x l1 IH]; intros l2 H1 H2 Hin.
  - destruct l2 as [| y l2]; [reflexivity |]. elim (proj2 (Hin y)). now left.
  - destruct l2 as [| y l2]; [elim (proj1 (Hin x)); now left |].
    inversion H1 as [| ? ? Hs1 Hx]; subst. inversion H2 as [| ? ? Hs2 Hy]; subst.
    rewrite Forall_forall in Hx, Hy.
    assert (E : x = y).
    { destruct (proj1 (Hin x) (or_introl eq_refl)) as [E | Hx2]; [now symmetry |].
      destruct (proj2 (Hin y) (or_introl eq_refl)) as [E | Hy1]; [assumption |].
      elim (Hasym x y); auto. }
    subst y. f_equal. apply IH; try assumption.
    intros z. split; intros Hz.
    + destruct (proj1 (Hin z) (or_intror Hz)) as [<- | H]; [| assumption].
      elim (Hirr x). auto.
    + destruct (proj2 (Hin z) (or_intror Hz)) as [<- | H]; [| assumption].
      elim (Hirr x). auto.
Qed.

Lemma modulePaths_of_canonical keys :
  StronglySorted (fun x y => String.compare x y = Lt) (modulePaths_of keys).
Proof.
  unfold modulePaths_of. apply sorted_strict.
  - apply Array_sort_sorted. apply string_compare_asym.
  - eapply Permutation_NoDup; [apply Array_sort_perm |].
    apply fold_set_add_NoDup_result. constructor.
Qed.

Lemma parseWeightMap_same_paths {num : Type} keys keys' :
  (forall m, In m (map stripWeightSuffix keys) <->
             In m (map stripWeightSuffix keys')) ->
  @parseWeightMap num keys = @parseWeightMap num keys'.
Proof.
  intros H. unfold parseWeightMap.
  replace (modulePaths_of keys') with (modulePaths_of keys); [reflexivity |].
  apply strictly_sorted_unique; try apply modulePaths_of_canonical.
  intros m. now rewrite !modulePaths_of_In.
Qed.

(** X21. The tree of a weight map depends on the set of module paths
    only: two lists of keys with the same module paths, in any order and
    with any repetition, give the same tree. *)
Theorem parseWeightMap_order_independent :
  forall (num : Type) (keys keys' : list string),
    (forall m, In m (map stripWeightSuffix keys) <->
               In m (map stripWeightSuffix keys')) ->
    @parseWeightMap num keys = @parseWeightMap num keys'.
Proof.
  intros num keys keys' H. unfold parseWeightMap.
  replace (modulePaths_of keys') with (modulePaths_of keys); [reflexivity |].
  apply strictly_sorted_unique; try apply modulePaths_of_canonical.
  intros m. now rewrite !modulePaths_of_In.
Qed.

Lemma parseWeightMap_order_independent_witness :
  @parseWeightMap N ["b.weight"; "a.weight"; "a.bias"] =
  @parseWeightMap N ["a.weight"; "b.bias"].
Proof.
  apply parseWeightMap_order_independent.
  intros m. cbn. intuition.
Defined.

(** ** The tree of generated paths *)

Lemma strip_generated paths :
  map stripWeightSuffix (map (fun p => p +++ ".weight") paths) = paths.
Proof.
  rewrite map_map. rewrite <- (map_id paths) at 2. apply map_ext.
  intros p. unfold stripWeightSuffix.
  assert (Hw : In ".weight" WEIGHT_SUFFIXES) by (cbn; auto).
  apply strip_first_app; [exact Hw |].
  intros s Hs Hne. now apply WEIGHT_SUFFIXES_disjoint.
Qed.

(** X22. From generated paths, the fallback builds nothing when there are
    none, and otherwise the tree of the paths with [.weight] appended; its
    selectable paths are then the generated paths that no other generated
    path continues below a dot, each listed once. *)
Theorem buildTreeFromPaths_selectable :
  forall (num : Type) (paths : list string),
    (paths = [] -> @buildTreeFromPaths num paths = None) /\
    (paths <> [] ->
     exists tree selectablePaths,
       @buildTreeFromPaths num paths = Some (tree, selectablePaths) /\
       tree = parseWeightMap (map (fun p => p +++ ".weight") paths) /\
       NoDup selectablePaths /\
       forall q, In q selectablePaths <->
                 In q paths /\ forall r, ~ In (q +++ "." +++ r) paths).
Proof.
  intros num paths. split; [now intros -> |].
  intros Hne. destruct paths as [| p0 paths]; [contradiction |].
  set (ps := p0 :: paths) in *.
  set (keys := fold_left set_add (map (fun p => p +++ ".weight") ps) []).
  assert (Hkeys : forall m, In m (map stripWeightSuffix keys) <->
                            In m (map stripWeightSuffix
                                      (map (fun p => p +++ ".weight") ps))).
  { intros m. rewrite !in_map_iff. unfold keys. split.
    - intros [k [E Hk]]. exists k. split; [assumption |].
      apply fold_set_add_In in Hk. now destruct Hk.
    - intros [k [E Hk]]. exists k. split; [assumption |].
      apply fold_set_add_In. now right. }
  exists (@parseWeightMap num keys),
         (collectSelectablePaths (@parseWeightMap num keys)).
  split; [reflexivity |]. split.
  - now apply parseWeightMap_same_paths.
  - split; [apply collect_weight_map_NoDup |].
    intros q. rewrite collect_weight_map_In.
    assert (Hin : forall m, In m (map stripWeightSuffix keys) <-> In m ps).
    { intros m. now rewrite Hkeys, strip_generated. }
    split.
    + intros [Hq Hno]. split; [now apply Hin |].
      intros r Hr. apply (Hno r). now apply Hin.
    + intros [Hq Hno]. split; [now apply Hin |].
      intros r Hr. apply (Hno r). now apply Hin.
Qed.

Lemma buildTreeFromPaths_selectable_witness :
  exists tree selectablePaths,
    @buildTreeFromPaths N ["m.a"; "m.b.c"; "m.a"; "m.b"] =
      Some (tree, selectablePaths) /\
    tree = parseWeightMap
             (map (fun p => p +++ ".weight") ["m.a"; "m.b.c"; "m.a"; "m.b"]) /\
    NoDup selectablePaths /\
    forall q, In q selectablePaths <->
              In q ["m.a"; "m.b.c"; "m.a"; "m.b"] /\
              forall r, ~ In (q +++ "." +++ r) ["m.a"; "m.b.c"; "m.a"; "m.b"].
Proof.
  apply (proj2 (buildTreeFromPaths_selectable N ["m.a"; "m.b.c"; "m.a"; "m.b"])).
  discriminate.
Defined.

(** ** Numbered layers under the two passes *)

Lemma lower_char_digit c : Str.is_digit c = true -> Str.lower_char c = c.
Proof.
  unfold Str.lower_char, Str.is_digit, Str.is_upper. intros H.
  apply andb_true_iff in H. destruct H as [_ H]. apply Nat.leb_le in H.
  destruct (65 <=? nat_of_ascii c)%nat eqn:E; [| reflexivity].
  apply Nat.leb_le in E. lia.
Qed.

Lemma toLowerCase_digits s : Str.all_digits s = true -> Str.toLowerCase s = s.
Proof.
  induction s as [| c s IH]; [reflexivity |].
  cbn [Str.all_digits Str.toLowerCase]. intros H.
  apply andb_true_iff in H. destruct H as [Hc Hs].
  now rewrite (lower_char_digit c Hc), IH.
Qed.

Lemma startsWith_digits s c k :
  Str.all_digits s = true -> Str.is_digit c = false ->
  Str.startsWith s (String c k) = false.
Proof.
  destruct s as [| b s]; [reflexivity |].
  cbn [Str.all_digits Str.startsWith]. intros H Hc.
  apply andb_true_iff in H. destruct H as [Hb _].
  destruct (Ascii.eqb c b) eqn:E; [| reflexivity].
  apply Ascii.eqb_eq in E. subst b. congruence.
Qed.

Lemma includes_digits s c k :
  Str.all_digits s = true -> Str.is_digit c = false ->
  Str.includes s (String c k) = false.
Proof.
  intros Hs Hc. induction s as [| b s IH]; [reflexivity |].
  cbn [Str.includes]. rewrite (startsWith_digits _ c k Hs Hc).
  cbn [Str.all_digits] in Hs. apply andb_true_iff in Hs. now apply IH.
Qed.

Lemma eqb_digits s c k :
  Str.is_number s = true -> Str.is_digit c = false ->
  String.eqb s (String c k) = false.
Proof.
  destruct s as [| b s]; [discriminate |].
  cbn [Str.is_number Str.all_digits String.eqb]. intros H Hc.
  apply andb_true_iff in H. destruct H as [Hb _].
  destruct (Ascii.eqb b c) eqn:E; [| reflexivity].
  apply Ascii.eqb_eq in E. subst b. congruence.
Qed.

(** A numbered name has the priority of the layer containers. *)
Lemma numbered_priority nm :
  Str.is_number nm = true -> getForwardPassPriority nm = 4%Q.
Proof.
  intros H.
  assert (Ha : Str.all_digits nm = true) by (destruct nm; [discriminate | exact H]).
  unfold getForwardPassPriority. rewrite (toLowerCase_digits nm Ha). cbv zeta.
  repeat rewrite (includes_digits nm _ _ Ha) by reflexivity.
  repeat rewrite (eqb_digits nm _ _ H) by reflexivity.
  rewrite H. reflexivity.
Qed.

Section LayerOrder.
Context {num : Type}.
Local Abbreviation node := (LayerNode num).

Lemma filter_all (p : node -> bool) l :
  Forall (fun n => p n = true) l -> filter p l = l.
Proof.
  induction 1 as [| x l Hx _ IH]; cbn [filter]; [reflexivity |].
  now rewrite Hx, IH.
Qed.

Lemma filter_none (p : node -> bool) l :
  Forall (fun n => p n = false) l -> filter p l = [].
Proof.
  induction 1 as [| x l Hx _ IH]; cbn [filter]; [reflexivity |].
  now rewrite Hx.
Qed.

Lemma filter_numbered_grouped (l : list node) :
  grouped l -> Sorted index_le (filter numberedPattern l).
Proof.
  intros [others [numbered [-> [Ho [Hn Hs]]]]].
  now rewrite filter_app, (filter_none _ _ Ho), (filter_all _ _ Hn).
Qed.

Lemma filter_numbered_sort_node (l : list node) :
  filter numberedPattern (map sort_node l) =
  map sort_node (filter numberedPattern l).
Proof.
  induction l as [| x l IH]; [reflexivity |]. cbn [map filter].
  assert (E : numberedPattern (sort_node x) = numberedPattern x)
    by (unfold numberedPattern; now rewrite sort_node_name).
  rewrite E, IH. now destruct (numberedPattern x).
Qed.

Lemma Sorted_index_le_map (f : node -> node) (l : list node) :
  (forall n, name (f n) = name n) ->
  Sorted index_le l -> Sorted index_le (map f l).
Proof.
  intros Hf. induction 1 as [| x l Hs IH Hd]; cbn [map]; constructor;
    [assumption |].
  destruct Hd as [| y l Hxy]; cbn [map]; constructor.
  unfold index_le, precedes, by_index in *. now rewrite !Hf.
Qed.

(** The forward-pass sort keeps the numbered siblings in their order. *)
Lemma sort_keeps_numbered (l : list node) :
  filter numberedPattern (Array_sort by_priority l) = filter numberedPattern l.
Proof.
  apply Array_sort_filter. intros x y Hx Hy. unfold by_priority.
  unfold numberedPattern in Hx, Hy.
  rewrite (numbered_priority _ Hx), (numbered_priority _ Hy). discriminate.
Qed.

Lemma sorted_collapsed_numbered (l : list node) :
  Sorted index_le
    (filter numberedPattern
       (Array_sort by_priority (map sort_node (regroup (map collapse_node l))))).
Proof.
  rewrite sort_keeps_numbered, filter_numbered_sort_node.
  apply Sorted_index_le_map; [apply sort_node_name |].
  apply filter_numbered_grouped, regroup_grouped.
Qed.

Lemma sort_collapse_node_ascending (n : node) :
  layers_ascending_below (sort_node (collapse_node n)).
Proof.
  induction n as [i nm fp t ch sel pc IH] using LayerNode_tree_ind.
  cbn [collapse_node sort_node]. constructor; cbn [children].
  - apply sorted_collapsed_numbered.
  - eapply Permutation_Forall; [apply Array_sort_perm |].
    apply Forall_map, Forall_regroup, Forall_map. exact IH.
Qed.

(** *** Collapsing twice *)

Lemma regroup_fixed (l : list node) : grouped l -> regroup l = l.
Proof.
  intros [others [numbered [-> [Ho [Hn Hs]]]]]. unfold regroup.
  rewrite !filter_app.
  rewrite (filter_none _ _ Ho), (filter_all _ _ Hn).
  rewrite (filter_all (fun n => negb (numberedPattern n)) others),
          (filter_none (fun n => negb (numberedPattern n)) numbered).
  - rewrite app_nil_r. cbn [app]. f_equal. now apply Array_sort_sorted_id.
  - apply Forall_forall. intros x Hx. rewrite Forall_forall in Hn.
    now rewrite (Hn x Hx).
  - apply Forall_forall. intros x Hx. rewrite Forall_forall in Ho.
    now rewrite (Ho x Hx).
Qed.

Lemma collapse_node_fixed (n : node) : grouped_below n -> collapse_node n = n.
Proof.
  induction n as [i nm fp t ch sel pc IH] using LayerNode_tree_ind.
  intros H. inversion H as [? Hg Hb]; subst. cbn [children] in Hg, Hb.
  cbn [collapse_node].
  assert (E : map collapse_node ch = ch).
  { rewrite <- (map_id ch) at 2. apply map_ext_Forall.
    rewrite Forall_forall in *. intros x Hx. apply IH; auto. }
  rewrite E. f_equal. now apply regroup_fixed.
Qed.
End LayerOrder.

(** X23. In the forward-pass view of a collapsed tree the numbered layers
    stay in ascending order of index in every list of siblings: the sort by
    priority gives every numbered name the same priority and is stable. *)
Theorem forward_pass_keeps_layer_order :
  forall (num : Type) (nodes : list (LayerNode num)),
    Sorted index_le
      (filter numberedPattern (sortForwardPass (collapseNumberedLayers nodes))) /\
    Forall layers_ascending_below
      (sortForwardPass (collapseNumberedLayers nodes)).
Proof.
  intros num nodes. unfold sortForwardPass, collapseNumberedLayers. split.
  - apply sorted_collapsed_numbered.
  - eapply Permutation_Forall; [apply Array_sort_perm |].
    apply Forall_map, Forall_regroup, Forall_map, Forall_forall.
    intros x _. apply sort_collapse_node_ascending.
Qed.

(** X24. Collapsing the numbered layers of a collapsed tree changes
    nothing. *)
Theorem collapseNumberedLayers_idempotent :
  forall (num : Type) (nodes : list (LayerNode num)),
    collapseNumberedLayers (collapseNumberedLayers nodes) =
    collapseNumberedLayers nodes.
Proof.
  intros num nodes. unfold collapseNumberedLayers.
  set (l := regroup (map collapse_node nodes)).
  assert (E : map collapse_node l = l).
  { rewrite <- (map_id l) at 2. apply map_ext_Forall.
    apply Forall_regroup, Forall_map, Forall_forall.
    intros x _. apply collapse_node_fixed, collapse_node_grouped. }
  rewrite E. apply regroup_fixed, regroup_grouped.
Qed.

(** X26. A segment that is a number (a layer index) is classified by its
    path alone: as vision when the path, in lower case, contains one of
    the vision markers, and as a plain group otherwise; no marker of the
    other roles can occur in a run of digits. *)
Theorem numbered_segment_is_group_or_vision :
  forall segment fullPath,
    Str.is_number segment = true ->
    classifySegment segment fullPath =
    if vision_marker (Str.toLowerCase fullPath) then vision else group.
Proof.
  intros segment fullPath H.
  assert (Ha : Str.all_digits segment = true)
    by (destruct segment; [discriminate | exact H]).
  unfold classifySegment. rewrite (toLowerCase_digits segment Ha). cbv zeta.
  unfold embedding_marker, norm_marker, head_marker, attention_marker, mlp_marker.
  repeat rewrite (includes_digits segment _ _ Ha) by reflexivity.
  repeat rewrite (eqb_digits segment _ _ H) by reflexivity.
  reflexivity.
Qed.

Lemma numbered_segment_is_group_or_vision_witness :
  classifySegment "17" "visual.blocks.17" = vision /\
  classifySegment "17" "model.layers.17" = group.
Proof.
  split.
  - exact (numbered_segment_is_group_or_vision "17" "visual.blocks.17" eq_refl).
  - exact (numbered_segment_is_group_or_vision "17" "model.layers.17" eq_refl).
Defined.

(** ** The index that [toTemplate] takes *)

Lemma no_line_terminator_app a b :
  no_line_terminator (a +++ b) = no_line_terminator a && no_line_terminator b.
Proof.
  induction a as [| c a IH]; cbn [append no_line_terminator]; [reflexivity |].
  now rewrite IH, andb_assoc.
Qed.

Lemma match_template_from_clean rest :
  forall consumed r,
    match_template_from consumed rest = Some r -> no_line_terminator rest = true.
Proof.
  induction rest as [| x rest IH]; intros consumed r H;
    cbn [match_template_from] in H; [discriminate |].
  cbn [no_line_terminator].
  destruct (is_line_terminator x) eqn:El.
  - destruct (Ascii.eqb x ".") eqn:Ex; [| discriminate].
    apply Ascii.eqb_eq in Ex. subst x. discriminate El.
  - cbn [negb andb].
    destruct (match_template_from (consumed +++ String x EmptyString) rest)
      as [res |] eqn:E; [now apply (IH _ _ E) |].
    destruct (Ascii.eqb x "." && negb (String.eqb consumed EmptyString));
      [| discriminate].
    destruct (match_index_suffix rest) as [[d suf] |] eqn:Em; [| discriminate].
    destruct (match_index_suffix_inv _ _ _ Em) as [-> [Hd [c [tl [-> Hl]]]]].
    rewrite no_line_terminator_app.
    assert (Hnd : no_line_terminator d = true).
    { apply is_number_all_digits in Hd. clear -Hd.
      induction d as [| y d IH]; [reflexivity |].
      cbn [Str.all_digits no_line_terminator] in *.
      apply andb_true_iff in Hd. destruct Hd as [Hy Hd].
      destruct (digit_facts y Hy) as [-> _]. now apply IH. }
    rewrite Hnd. cbn [no_line_terminator] in *.
    change (is_line_terminator ".") with false. exact Hl.
Qed.

(** A later place where the expression can match is preferred. *)
Lemma match_template_from_last u :
  forall consumed d suf,
    no_line_terminator u = true -> consumed +++ u <> EmptyString ->
    match_index_suffix (d +++ suf) = Some (d, suf) ->
    exists pre d1 suf1,
      match_template_from consumed (u +++ "." +++ d +++ suf) =
      Some (pre, d1, suf1) /\
      String.length (consumed +++ u) + 1 <= String.length pre.
Proof.
  induction u as [| x u IH]; intros consumed d suf Hl Hne Hm.
  - cbn [append match_template_from].
    change (is_line_terminator ".") with false. cbv iota.
    rewrite sapp_nil_r in *.
    destruct (match_template_from (consumed +++ ".") (d +++ suf))
      as [[[pre d1] suf1] |] eqn:E.
    + exists pre, d1, suf1. split; [reflexivity |].
      destruct (match_template_from_inv _ _ _ _ _ E) as [u' [-> _]].
      rewrite !sapp_length. cbn [String.length]. lia.
    + rewrite Ascii.eqb_refl.
      assert (Ec : String.eqb consumed EmptyString = false)
        by (now destruct consumed).
      rewrite Ec. cbn [negb andb]. rewrite Hm.
      exists (consumed +++ "."), d, suf. split; [reflexivity |].
      rewrite sapp_length. cbn [String.length]. lia.
  - cbn [no_line_terminator] in Hl. apply andb_true_iff in Hl.
    destruct Hl as [Hx Hl]. apply negb_true_iff in Hx.
    cbn [append match_template_from]. rewrite Hx.
    destruct (IH (consumed +++ String x EmptyString) d suf Hl) as
      [pre [d1 [suf1 [E Hlen]]]]; [now destruct consumed | assumption |].
    cbn [append] in E. rewrite E. exists pre, d1, suf1.
    split; [reflexivity |].
    rewrite sapp_assoc in Hlen. exact Hlen.
Qed.

(** X25. The index that toTemplate takes is the last one: when a path has
    a template, no later part of the path is a dot, digits, a dot and at
    least one more character after a non-empty beginning; every such place
    lies inside the prefix the template keeps. *)
Theorem toTemplate_takes_last_index :
  forall path key index,
    toTemplate path = Some (key, index) ->
    exists pre d suf,
      path = pre +++ d +++ suf /\ key = pre +++ INDEX +++ suf /\
      index = Num.parseInt d /\
      forall pre' d' c tl,
        path = pre' +++ "." +++ d' +++ "." +++ String c tl ->
        pre' <> EmptyString -> Str.is_number d' = true ->
        String.length pre' + 1 <= String.length pre.
Proof.
  intros path key index H.
  destruct (proj1 (toTemplate_some _ _ _) H) as [pre [d [suf [Hm [-> ->]]]]].
  destruct (match_template_inv _ _ _ _ Hm) as [E _].
  exists pre, d, suf. repeat split; auto.
  intros pre' d' c tl E' Hne Hd'.
  pose proof (match_template_from_clean _ _ _ Hm) as Hclean.
  rewrite E', !no_line_terminator_app in Hclean.
  apply andb_true_iff in Hclean. destruct Hclean as [Hpre' Hrest].
  apply andb_true_iff in Hrest. destruct Hrest as [_ Hrest].
  apply andb_true_iff in Hrest. destruct Hrest as [_ Hrest].
  apply andb_true_iff in Hrest. destruct Hrest as [_ Htl].
  destruct (match_template_from_last pre' EmptyString d'
              (String "." (String c tl)) Hpre' Hne)
    as [pre1 [d1 [suf1 [E1 Hlen]]]].
  { now apply match_index_suffix_app. }
  unfold match_template in Hm. rewrite E' in Hm.
  change ("." +++ String c tl) with (String "." (String c tl)) in Hm.
  rewrite Hm in E1. injection E1 as <- _ _. exact Hlen.
Qed.

Lemma toTemplate_takes_last_index_witness :
  toTemplate "a.1.b.2.c" = Some ("a.1.b.{{INDEX}}.c", Num.Finite 2) /\
  exists pre d suf,
    "a.1.b.2.c" = pre +++ d +++ suf /\
    "a.1.b.{{INDEX}}.c" = pre +++ INDEX +++ suf /\
    Num.Finite 2 = Num.parseInt d /\
    forall pre' d' c tl,
      "a.1.b.2.c" = pre' +++ "." +++ d' +++ "." +++ String c tl ->
      pre' <> EmptyString -> Str.is_number d' = true ->
      String.length pre' + 1 <= String.length pre.
Proof.
  split; [reflexivity |].
  exact (toTemplate_takes_last_index "a.1.b.2.c" _ _ eq_refl).
Defined.
